(** * dingo-store: a shallow embedding of the coordinator's versioned KV store,
      the Berkeley-DB raw engine, the doubly buffered safe map and the
      GC safe-point service handler.

    Each module follows one source file:
    - [SafeMap]             src/common/safe_map.h
    - [Bdb]                 src/engine/bdb_raw_engine.cc
    - [Kv]                  src/coordinator/coordinator_control_kv.cc
    - [CoordinatorService]  src/server/coordinator_service.cc

    Unsigned 64-bit integers are [Z] with the wrap-around written out
    ([to_uint64]); [std::string] is [string], compared byte-wise as
    [std::string::compare] does; protobuf messages are records, an optional
    sub-message is an [option]. *)

From Stdlib Require Import ZArith String Ascii List Bool Lia.
From Stdlib Require Import DecimalString PrimFloat FloatOps SpecFloat.
From Stdlib Require Uint63 OrdersEx.
From stdpp Require Import base option gmap strings list.

Open Scope string_scope.
Open Scope list_scope.
Open Scope Z_scope.

(** ** Machine integers *)

Definition to_uint64 (z : Z) : Z := z mod 2 ^ 64.
Definition UINT32_MAX : Z := 2 ^ 32 - 1.
Definition INT64_MAX : Z := 2 ^ 63 - 1.

(** ** std::string helpers *)

(** [std::string::size]. *)
Definition size (s : string) : Z := Z.of_nat (String.length s).

(** [std::string::empty]. *)
Definition empty (s : string) : bool :=
  match s with EmptyString => true | String _ _ => false end.

(** [a.compare(b) >= 0] and [a.compare(b) < 0]; [char_traits<char>] orders
    bytes as unsigned values, as [String.compare] does. *)
Definition str_lt (a b : string) : bool := String.ltb a b.
Definition str_ge (a b : string) : bool := negb (String.ltb a b).
Definition str_gt (a b : string) : bool :=
  match String.compare a b with Gt => true | _ => false end.

(** [std::string(n, c)]. *)
Fixpoint string_n (n : nat) (c : ascii) : string :=
  match n with O => EmptyString | S n' => String c (string_n n' c) end.

(** ** butil::Status and the error numbers the sources use *)

(** [EINVAL] is the C library's errno; the others are members of the
    protobuf enum [pb::error::Errno].  [Eother] stands for the codes of
    callees that are not part of the embedded sources. *)
Inductive Errno : Type :=
| OK
| EINVAL
| EINTERNAL
| EILLEGAL_PARAMTETERS
| EKEY_EMPTY
| EKEY_NOT_FOUND
| ERANGE_INVALID
| EBDB_DEADLOCK
| EBDB_EXCEPTION
| EBDB_COMMIT
| EBDB_UNKNOW
| ESTD_EXCEPTION
| Eother (code : Z).

#[global] Instance Errno_eq_dec : EqDecision Errno.
Proof. solve_decision. Defined.

Record Status : Type := mkStatus { error_code : Errno; error_str : string }.

#[global] Instance Status_eq_dec : EqDecision Status.
Proof. solve_decision. Defined.

(** [butil::Status()] and [butil::Status::OK()]. *)
Definition Status_OK : Status := mkStatus OK "".

(** [status.ok()]. *)
Definition ok (s : Status) : bool := bool_decide (error_code s = OK).

(** * src/common/safe_map.h *)

Module SafeMap.

Section DingoSafeMap.
Context {T_KEY T_VALUE : Type} `{Countable T_KEY} `{EqDecision T_VALUE}.

(** [ByteSizeLong] of the protobuf value type. *)
Variable ByteSizeLong : T_VALUE -> Z.

Abbreviation TypeFlatMap := (gmap T_KEY T_VALUE).

(** [butil::DoublyBufferedData<TypeFlatMap>]: the foreground copy readers
    see, and what [Read(&ptr)] returns ([0] on success; it fails only when
    the calling thread cannot get its thread-local wrapper). *)
Record DingoSafeMap : Type := mkSafeMap {
  safe_map : TypeFlatMap;
  read_rc : Z
}.

(** [DoublyBufferedData::Modify(fn, args...)]: runs [fn] on the background
    copy; when [fn] returns 0 nothing is published, otherwise the copies are
    swapped, [fn] is run on the other one and its result returned. *)
Definition Modify (fn : TypeFlatMap -> TypeFlatMap * Z) (m : DingoSafeMap)
  : DingoSafeMap * Z :=
  let '(fg, ret) := fn (safe_map m) in
  if ret =? 0 then (m, 0) else (mkSafeMap fg (read_rc m), ret).

(** *** Inner functions: 1 when a record was modified, 0 otherwise *)

Definition InnerSwapFlatMap (input_map : TypeFlatMap) (map : TypeFlatMap)
  : TypeFlatMap * Z := (input_map, 1).

Definition InnerCopyFlatMap (input_map : TypeFlatMap) (map : TypeFlatMap)
  : TypeFlatMap * Z := (input_map, 1).

(** [InnerSwapSafeMap] and [InnerCopySafeMap] take the doubly buffered data
    of another map; [map] receives what that one shows to readers. *)
Definition InnerSwapSafeMap (input_map : DingoSafeMap) (map : TypeFlatMap)
  : TypeFlatMap * Z := (safe_map input_map, 1).

Definition InnerCopySafeMap (input_map : DingoSafeMap) (map : TypeFlatMap)
  : TypeFlatMap * Z := (safe_map input_map, 1).

Definition InnerErase (key : T_KEY) (map : TypeFlatMap) : TypeFlatMap * Z :=
  (delete key map, 1).

Definition InnerClear (map : TypeFlatMap) : TypeFlatMap * Z := (∅, 1).

Definition InnerPut (key : T_KEY) (value : T_VALUE) (map : TypeFlatMap)
  : TypeFlatMap * Z := (<[key := value]> map, 1).

Fixpoint insert_all (key_list : list T_KEY) (value_list : list T_VALUE)
  (map : TypeFlatMap) : TypeFlatMap :=
  match key_list, value_list with
  | k :: ks, v :: vs => insert_all ks vs (<[k := v]> map)
  | _, _ => map
  end.

Definition InnerMultiPut (key_list : list T_KEY) (value_list : list T_VALUE)
  (map : TypeFlatMap) : TypeFlatMap * Z :=
  if negb (length key_list =? length value_list)%nat then (map, 0)
  else if (length key_list =? 0)%nat then (map, 0)
  else (insert_all key_list value_list map, Z.of_nat (length key_list)).

Definition InnerPutIfExists (key : T_KEY) (value : T_VALUE)
  (map : TypeFlatMap) : TypeFlatMap * Z :=
  match map !! key with
  | None => (map, 0)
  | Some _ => (<[key := value]> map, 1)
  end.

Definition InnerPutIfAbsent (key : T_KEY) (value : T_VALUE)
  (map : TypeFlatMap) : TypeFlatMap * Z :=
  match map !! key with
  | Some _ => (map, 0)
  | None => (<[key := value]> map, 1)
  end.

Definition InnerPutIfEqual (key : T_KEY) (value : T_VALUE)
  (map : TypeFlatMap) : TypeFlatMap * Z :=
  match map !! key with
  | None => (map, 0)
  | Some old =>
      if bool_decide (old = value) then (<[key := value]> map, 1) else (map, 0)
  end.

Definition InnerPutIfNotEqual (key : T_KEY) (value : T_VALUE)
  (map : TypeFlatMap) : TypeFlatMap * Z :=
  match map !! key with
  | None => (map, 0)
  | Some old =>
      if bool_decide (old = value) then (map, 0) else (<[key := value]> map, 1)
  end.

(** *** Member functions *)

(** [if (safe_map.Modify(fn, ...) > 0) return 1; else return -1;] *)
Definition modify_member (fn : TypeFlatMap -> TypeFlatMap * Z)
  (m : DingoSafeMap) : DingoSafeMap * Z :=
  let '(m', n) := Modify fn m in
  if 0 <? n then (m', 1) else (m', -1).

(** [int Get(const T_KEY&, T_VALUE&)]: the second component is the
    out-parameter [value] after the call. *)
Definition Get (m : DingoSafeMap) (key : T_KEY) (value : T_VALUE)
  : Z * T_VALUE :=
  if negb (read_rc m =? 0) then (-1, value)
  else match safe_map m !! key with
       | None => (-1, value)
       | Some v => (0, v)
       end.

(** [T_VALUE Get(const T_KEY&)]; [dflt] is the default-constructed value. *)
Definition Get_value (dflt : T_VALUE) (m : DingoSafeMap) (key : T_KEY)
  : T_VALUE :=
  if negb (read_rc m =? 0) then dflt
  else match safe_map m !! key with
       | None => dflt
       | Some v => v
       end.

Definition Count (m : DingoSafeMap) (key : T_KEY) : Z :=
  if negb (read_rc m =? 0) then 0
  else match safe_map m !! key with
       | None => 0
       | Some _ => 1
       end.

Definition Size (m : DingoSafeMap) : Z :=
  if negb (read_rc m =? 0) then 0
  else Z.of_nat (base.size (safe_map m)).

(** [uint64_t MemorySize()]: the [return -1] of the read-error branch is
    converted to the unsigned return type. *)
Definition MemorySize (m : DingoSafeMap) : Z :=
  if negb (read_rc m =? 0) then to_uint64 (-1)
  else
    map_fold (fun _ v sz => to_uint64 (sz + ByteSizeLong v)) 0 (safe_map m).

Definition SwapFlatMap (input_map : TypeFlatMap) :=
  modify_member (InnerSwapFlatMap input_map).
Definition CopyFlatMap (input_map : TypeFlatMap) :=
  modify_member (InnerCopyFlatMap input_map).
Definition Swap (input_map : DingoSafeMap) :=
  modify_member (InnerSwapSafeMap input_map).
Definition Copy (input_map : DingoSafeMap) :=
  modify_member (InnerCopySafeMap input_map).
Definition Put (key : T_KEY) (value : T_VALUE) :=
  modify_member (InnerPut key value).
Definition MultiPut (key_list : list T_KEY) (value_list : list T_VALUE) :=
  modify_member (InnerMultiPut key_list value_list).
Definition PutIfExists (key : T_KEY) (value : T_VALUE) :=
  modify_member (InnerPutIfExists key value).
Definition PutIfAbsent (key : T_KEY) (value : T_VALUE) :=
  modify_member (InnerPutIfAbsent key value).
Definition PutIfEqual (key : T_KEY) (value : T_VALUE) :=
  modify_member (InnerPutIfEqual key value).
Definition PutIfNotEqual (key : T_KEY) (value : T_VALUE) :=
  modify_member (InnerPutIfNotEqual key value).
Definition Erase (key : T_KEY) := modify_member (InnerErase key).
Definition Clear := modify_member InnerClear.

(** Modelled from the spec: [GetAllValues] is missing from this revision of
    the header, and the interface the spec lists does not name it; the model
    follows its call [kv_index_map_.GetAllValues(values, filter)] in
    [RangeRawKvIndex], which reads a negative result as a failure: under the
    return codes of the class it fails exactly on a read error, and otherwise
    appends the values the filter accepts, in the map's iteration order. *)
Definition GetAllValues (m : DingoSafeMap) (values : list T_VALUE)
  (filter : T_VALUE -> bool) : Z * list T_VALUE :=
  if negb (read_rc m =? 0) then (-1, values)
  else
    let values' :=
      values ++ List.filter filter (snd <$> map_to_list (safe_map m)) in
    (Z.of_nat (length values'), values').

End DingoSafeMap.

Arguments DingoSafeMap T_KEY T_VALUE {_ _}.

End SafeMap.

(** * src/engine/bdb_raw_engine.cc *)

Module Bdb.

(** ** Flags, constants and protobuf messages *)

(** [DEFINE_int32(bdb_max_retries, 30, ...)]. *)
Definition FLAGS_bdb_max_retries : Z := 30.

(** [#define DB_MAXIMUM_PAGESIZE (64 * 1024)]. *)
Definition DB_MAXIMUM_PAGESIZE : Z := 64 * 1024.

(** Berkeley DB's [DB_NOTFOUND], and [BdbHelper::kCommitException], the
    non-zero marker the header declares for a commit that threw. *)
Definition DB_NOTFOUND : Z := -30988.
Definition kCommitException : Z := -60000.

(** The two [#define]s at the top of the file select the compiled paths. *)
Definition BDB_FAST_GET_APROX_SIZE : bool := true.
Definition BDB_BUILD_USE_BULK_DELETE : bool := true.

(** [pb::common::KeyValue] and [pb::common::Range]. *)
Record KeyValue : Type := mkKeyValue { key : string; value : string }.
Record Range : Type := mkRange { start_key : string; end_key : string }.

#[global] Instance KeyValue_eq_dec : EqDecision KeyValue.
Proof. solve_decision. Defined.

(** ** BdbHelper *)

Definition cf_name_to_id : list (string * ascii) :=
  [("default", "0"%char); ("meta", "1"%char); ("vector_scalar", "2"%char);
   ("vector_table", "3"%char); ("data", "4"%char); ("lock", "5"%char);
   ("write", "6"%char)].

(** [GetCfId]: [None] is the [DINGO_LOG(FATAL)] of an unknown name. *)
Fixpoint assoc_find {A : Type} (k : string) (l : list (string * A)) : option A :=
  match l with
  | [] => None
  | (k', a) :: l' => if String.eqb k k' then Some a else assoc_find k l'
  end.

Definition GetCfId (cf_name : string) : option ascii :=
  assoc_find cf_name cf_name_to_id.

(** [CF_ID_LEN] is 1: [Iterator::Seek] builds the same prefix with
    [std::string(1, cf_id_)]. *)
Definition CF_ID_LEN : nat := 1.

Definition EncodeKey_id (cf_id : ascii) (k : string) : string :=
  String.append (string_n CF_ID_LEN cf_id) k.

Definition EncodeCf_id (cf_id : ascii) : string := string_n CF_ID_LEN cf_id.

(** [cf_id + 1] on a [char]. *)
Definition char_succ (c : ascii) : ascii :=
  ascii_of_N ((N_of_ascii c + 1) mod 256).

Definition EncodedCfUpperBound_id (cf_id : ascii) : string :=
  string_n CF_ID_LEN (char_succ cf_id).

(** [DbtToUserKey]: drops the column-family prefix.  The code is handed
    stored keys, which are at least [CF_ID_LEN] bytes long; on a shorter one
    its unsigned subtraction would wrap, where this one gives the empty
    string. *)
Definition DbtToUserKey (dbt : string) : string :=
  String.substring CF_ID_LEN (String.length dbt - CF_ID_LEN) dbt.

(** ** The Berkeley DB engine

    The database is one B-tree shared by all column families: its records,
    ordered by key.  The engine's misbehaviour is an input: [faults] lists,
    call by call, what the next engine calls do instead of succeeding;
    once the list is used up every call succeeds.  The calls that can be
    made to fail are those whose code or exception the sources act on:
    [txn_begin], [put], [del], [commit], [cursor], [Dbc::get], [Dbc::del],
    [stat] and [key_range]; [Dbc::close] and [DbTxn::abort] always succeed.
    The number and the text of a caught exception ([get_errno()],
    [what()]), which the code formats into the message of the status it
    builds, are left out of it: such a status carries the fixed part of the
    message only. *)

Definition Db : Type := list (string * string).

Fixpoint db_insert (k v : string) (d : Db) : Db :=
  match d with
  | [] => [(k, v)]
  | (k', v') :: d' =>
      match String.compare k k' with
      | Lt => (k, v) :: d
      | Eq => (k, v) :: d'
      | Gt => (k', v') :: db_insert k v d'
      end
  end.

Definition db_remove (k : string) (d : Db) : Db :=
  List.filter (fun kv => negb (String.eqb (fst kv) k)) d.

Definition db_find (k : string) (d : Db) : option string := assoc_find k d.

(** The records at and after the smallest key [>= k] ([DB_SET_RANGE]). *)
Fixpoint db_seek (k : string) (d : Db) : Db :=
  match d with
  | [] => []
  | (k', v') :: d' => if str_lt k' k then db_seek k d' else d
  end.

Inductive exn : Type :=
| DbDeadlockException
| DbException
| std_exception.

(** [catch (DbException&)] also catches the deadlock subclass. *)
Definition is_DbException (e : exn) : bool :=
  match e with
  | DbDeadlockException | DbException => true
  | std_exception => false
  end.

Inductive fault : Type :=
| NoFault
| FaultRet (ret : Z)
| FaultThrow (e : exn).

Record World : Type := mkWorld { db : Db; faults : list fault }.

(** How a piece of code ends. *)
Inductive outcome (A : Type) : Type :=
| Val (a : A)          (* it completes with a value *)
| Return (s : Status)  (* the enclosing function returns [s] *)
| Throw (e : exn)      (* an exception propagates *)
| Fatal                (* [DINGO_LOG(FATAL)] aborts the process *)
| Timeout.             (* the loop fuel of the model ran out *)

Arguments Val {A} a.
Arguments Return {A} s.
Arguments Throw {A} e.
Arguments Fatal {A}.
Arguments Timeout {A}.

Definition M (A : Type) : Type := World -> outcome A * World.

Definition ret {A : Type} (a : A) : M A := fun w => (Val a, w).

Definition bind {A B : Type} (m : M A) (k : A -> M B) : M B :=
  fun w =>
    match m w with
    | (Val a, w') => k a w'
    | (Return s, w') => (Return s, w')
    | (Throw e, w') => (Throw e, w')
    | (Fatal, w') => (Fatal, w')
    | (Timeout, w') => (Timeout, w')
    end.

Definition return_ {A : Type} (s : Status) : M A := fun w => (Return s, w).
Definition throw {A : Type} (e : exn) : M A := fun w => (Throw e, w).
Definition fatal {A : Type} : M A := fun w => (Fatal, w).
Definition timeout {A : Type} : M A := fun w => (Timeout, w).

Declare Scope bdb_scope.
Delimit Scope bdb_scope with bdb.
Notation "x <- m ;; k" := (bind m (fun x => k))
  (at level 100, m at next level, right associativity) : bdb_scope.
Open Scope bdb_scope.

(** A call of a function of this file: its [return] ends the call, not the
    caller. *)
Definition call (f : M Status) : M Status :=
  fun w =>
    match f w with
    | (Return s, w') => (Val s, w')
    | r => r
    end.

(** One engine call: it does [normal] unless the next fault says otherwise;
    [failed r] is what the caller sees when the call returns the code [r]. *)
Definition next_fault : M fault :=
  fun w =>
    match faults w with
    | [] => (Val NoFault, w)
    | f :: fs => (Val f, mkWorld (db w) fs)
    end.

Definition engine_call {A : Type} (normal : M A) (failed : Z -> A) : M A :=
  f <- next_fault ;;
  match f with
  | NoFault => normal
  | FaultRet r => if r =? 0 then normal else ret (failed r)
  | FaultThrow e => throw e
  end.

(** [DbEnv::txn_begin]: the code and the transaction's private copy. *)
Definition txn_begin : M (Z * Db) :=
  engine_call (fun w => (Val (0, db w), w)) (fun r => (r, [])).

(** [Db::put(txn, key, value, DB_OVERWRITE_DUP)]. *)
Definition db_put (txn : Db) (k v : string) : M (Z * Db) :=
  engine_call (ret (0, db_insert k v txn)) (fun r => (r, txn)).

(** [Db::del(txn, key, 0)]. *)
Definition db_del (txn : Db) (k : string) : M (Z * Db) :=
  engine_call
    (ret (match db_find k txn with
          | Some _ => (0, db_remove k txn)
          | None => (DB_NOTFOUND, txn)
          end))
    (fun r => (r, txn)).

(** [Db::del(txn, keys, DB_MULTIPLE)]: every listed key is deleted; the
    code is [DB_NOTFOUND] when one of them was not there (the writers treat
    that code like 0). *)
Definition db_del_multiple (txn : Db) (ks : list string) : M (Z * Db) :=
  engine_call
    (ret (if forallb (fun k => bool_decide (is_Some (db_find k txn))) ks
          then (0, fold_left (fun t k => db_remove k t) ks txn)
          else (DB_NOTFOUND, fold_left (fun t k => db_remove k t) ks txn)))
    (fun r => (r, txn)).

(** [DbTxn::commit(0)]: publishes the transaction's copy. *)
Definition txn_commit (txn : Db) : M Z :=
  engine_call (fun w => (Val 0, mkWorld txn (faults w))) (fun r => r).

(** [Db::cursor]: the code; the cursor reads the records [view]. *)
Definition db_cursor : M Z := engine_call (ret 0) (fun r => r).

(** [Dbc::get(key, value, DB_SET_RANGE)] on the records [view]: the code and
    the records from the cursor's position on. *)
Definition dbc_get_set_range (view : Db) (k : string) : M (Z * Db) :=
  engine_call
    (ret (match db_seek k view with
          | [] => (DB_NOTFOUND, [])
          | pos => (0, pos)
          end))
    (fun r => (r, [])).

(** [Dbc::get(key, value, DB_NEXT)] from the position [pos]. *)
Definition dbc_get_next (pos : Db) : M (Z * Db) :=
  engine_call
    (ret (match tl pos with
          | [] => (DB_NOTFOUND, pos)
          | pos' => (0, pos')
          end))
    (fun r => (r, pos)).

(** [Dbc::get(key, value, DB_FIRST)]. *)
Definition dbc_get_first (view : Db) : M Z :=
  engine_call (ret (match view with [] => DB_NOTFOUND | _ => 0 end)) (fun r => r).

(** [Dbc::del(0)] on the record the cursor is on. *)
Definition dbc_del (txn : Db) (pos : Db) : M (Z * Db) :=
  engine_call
    (ret (match pos with
          | [] => (DB_NOTFOUND, txn)
          | (k, _) :: _ => (0, db_remove k txn)
          end))
    (fun r => (r, txn)).

(** [BdbHelper::EncodeKey(cf_name, key)]. *)
Definition EncodeKey (cf_name k : string) : M string :=
  match GetCfId cf_name with
  | Some cf_id => ret (EncodeKey_id cf_id k)
  | None => fatal
  end.

(** ** Writer *)

Definition st_EINTERNAL (msg : string) : Status := mkStatus EINTERNAL msg.
Definition st_EKEY_EMPTY (msg : string) : Status := mkStatus EKEY_EMPTY msg.
Definition st_EBDB_COMMIT : Status := mkStatus EBDB_COMMIT "error on txn commit.".
Definition st_EBDB_DEADLOCK : Status :=
  mkStatus EBDB_DEADLOCK "writer got DeadLockException and out of retries. giving up.".
Definition st_EBDB_UNKNOW : Status := mkStatus EBDB_UNKNOW "unknown error.".
Definition st_ESTD_EXCEPTION : Status := mkStatus ESTD_EXCEPTION "std exception".

(** The retry loop every writer repeats around its [try] block:
<<
  while (retry) {
    try { body }
    catch (DbDeadlockException&) {
      if (retry_count < FLAGS_bdb_max_retries) { abort; retry_count++; retry = true; }
      else return Status(EBDB_DEADLOCK, ...);
    } catch (DbException&) { return Status(EBDB_EXCEPTION, ...); }
    catch (std::exception&) { return Status(ESTD_EXCEPTION, ...); }
  }
>>
    Aborting drops the transaction's private copy, which is local to [body].
    [retry] is never set to [false], so a [try] block that ends without
    returning runs again.  [what] is the fixed part of the message of the
    [EBDB_EXCEPTION] status; the code appends the number and the text of
    the exception to it, and the text of the exception to "std exception". *)
Fixpoint retry_loop (fuel : nat) (what : string) (body : M unit)
  (retry_count : Z) : M unit :=
  match fuel with
  | O => timeout
  | S fuel' =>
      fun w =>
        match body w with
        | (Val _, w') => retry_loop fuel' what body retry_count w'
        | (Throw DbDeadlockException, w') =>
            if retry_count <? FLAGS_bdb_max_retries
            then retry_loop fuel' what body (retry_count + 1) w'
            else (Return st_EBDB_DEADLOCK, w')
        | (Throw DbException, w') => (Return (mkStatus EBDB_EXCEPTION what), w')
        | (Throw std_exception, w') => (Return st_ESTD_EXCEPTION, w')
        | (Return s, w') => (Return s, w')
        | (Fatal, w') => (Fatal, w')
        | (Timeout, w') => (Timeout, w')
        end
  end.

(** Enough for [FLAGS_bdb_max_retries] retries after the first attempt. *)
Definition retry_fuel : nat := Z.to_nat FLAGS_bdb_max_retries + 2.

(** [try { m } catch (DbException&) { ret = BdbHelper::kCommitException; }]
    around the commit. *)
Definition catch_commit (m : M Z) : M Z :=
  fun w =>
    match m w with
    | (Throw e, w') =>
        if is_DbException e then (Val kCommitException, w') else (Throw e, w')
    | r => r
    end.

(** The commit block shared by [KvBatchPutAndDelete], [KvDelete] and
    [KvBatchDeleteRangeNormal]. *)
Definition commit_block (txn : Db) : M unit :=
  r <- catch_commit
         (r <- txn_commit txn ;;
          if r =? 0 then return_ Status_OK else ret r) ;;
  if negb (r =? 0) then return_ st_EBDB_COMMIT else ret tt.

Definition KvPut_try (cf_name : string) (kv : KeyValue) : M unit :=
  b <- txn_begin ;;
  if negb (fst b =? 0) then return_ (st_EINTERNAL "Internal txn begin error.")
  else
    store_key <- EncodeKey cf_name (key kv) ;;
    p <- db_put (snd b) store_key (value kv) ;;
    if negb (fst p =? 0) then return_ (st_EINTERNAL "Internal put error.")
    else
      r <- catch_commit
             (r <- txn_commit (snd p) ;;
              if r =? 0 then return_ Status_OK
              else return_ (st_EINTERNAL "Internal txn commit error.")) ;;
      if negb (r =? 0) then return_ st_EBDB_COMMIT else ret tt.

Definition KvPut (cf_name : string) (kv : KeyValue) : M Status :=
  call
    (if empty (key kv) then return_ (st_EKEY_EMPTY "Key is empty")
     else
       _ <- retry_loop retry_fuel "db put failed" (KvPut_try cf_name kv) 0 ;;
       return_ st_EBDB_UNKNOW).

(** The put loop; the state is the local [ret] and the transaction. *)
Fixpoint put_all (cf_name : string) (kvs : list KeyValue) (st : Z * Db)
  : M (Z * Db) :=
  match kvs with
  | [] => ret st
  | kv :: kvs' =>
      if empty (key kv) then return_ (st_EKEY_EMPTY "Key is empty")
      else
        store_key <- EncodeKey cf_name (key kv) ;;
        p <- db_put (snd st) store_key (value kv) ;;
        if negb (fst p =? 0) then return_ (st_EINTERNAL "Internal put error.")
        else put_all cf_name kvs' p
  end.

(** The delete loop: the code of [del] is not assigned, so the check that
    follows reads the [ret] left by the last call before it. *)
Fixpoint del_all (cf_name : string) (keys : list string) (st : Z * Db)
  : M (Z * Db) :=
  match keys with
  | [] => ret st
  | k :: keys' =>
      if empty k then return_ (st_EKEY_EMPTY "Key is empty")
      else
        store_key <- EncodeKey cf_name k ;;
        p <- db_del (snd st) store_key ;;
        if negb (fst st =? 0) && negb (fst st =? DB_NOTFOUND)
        then return_ (st_EINTERNAL "Internal put error.")
        else del_all cf_name keys' (fst st, snd p)
  end.

Definition KvBatchPutAndDelete_try (cf_name : string)
  (kvs_to_put : list KeyValue) (keys_to_delete : list string) : M unit :=
  b <- txn_begin ;;
  if negb (fst b =? 0) then return_ (st_EINTERNAL "Internal txn begin error.")
  else
    p <- put_all cf_name kvs_to_put b ;;
    d <- del_all cf_name keys_to_delete p ;;
    commit_block (snd d).

Definition KvBatchPutAndDelete (cf_name : string) (kvs_to_put : list KeyValue)
  (keys_to_delete : list string) : M Status :=
  call
    (if match kvs_to_put, keys_to_delete with [], [] => true | _, _ => false end
     then return_ (st_EKEY_EMPTY "Key is empty")
     else
       _ <- retry_loop retry_fuel "db put failed"
              (KvBatchPutAndDelete_try cf_name kvs_to_put keys_to_delete) 0 ;;
       return_ st_EBDB_UNKNOW).

(** The overload over [std::map]s keyed by column family; a map is the list
    of its entries in key order. *)
Fixpoint put_all_cf (kv_puts_with_cf : list (string * list KeyValue))
  (st : Z * Db) : M (Z * Db) :=
  match kv_puts_with_cf with
  | [] => ret st
  | (cf_name, kv_puts) :: rest =>
      match kv_puts with
      | [] => return_ (st_EKEY_EMPTY "Key is empty")
      | _ => st' <- put_all cf_name kv_puts st ;; put_all_cf rest st'
      end
  end.

Fixpoint del_all_cf (kv_deletes_with_cf : list (string * list string))
  (st : Z * Db) : M (Z * Db) :=
  match kv_deletes_with_cf with
  | [] => ret st
  | (cf_name, kv_deletes) :: rest =>
      match kv_deletes with
      | [] => return_ (st_EKEY_EMPTY "Key is empty")
      | _ => st' <- del_all cf_name kv_deletes st ;; del_all_cf rest st'
      end
  end.

Definition KvBatchPutAndDelete_cf_try
  (kv_puts_with_cf : list (string * list KeyValue))
  (kv_deletes_with_cf : list (string * list string)) : M unit :=
  b <- txn_begin ;;
  if negb (fst b =? 0) then return_ (st_EINTERNAL "Internal txn begin error.")
  else
    p <- put_all_cf kv_puts_with_cf b ;;
    d <- del_all_cf kv_deletes_with_cf p ;;
    commit_block (snd d).

Definition KvBatchPutAndDelete_cf
  (kv_puts_with_cf : list (string * list KeyValue))
  (kv_deletes_with_cf : list (string * list string)) : M Status :=
  call
    (_ <- retry_loop retry_fuel "db put failed"
            (KvBatchPutAndDelete_cf_try kv_puts_with_cf kv_deletes_with_cf) 0 ;;
     return_ st_EBDB_UNKNOW).

Definition KvDelete_try (cf_name : string) (k : string) : M unit :=
  b <- txn_begin ;;
  if negb (fst b =? 0) then return_ (st_EINTERNAL "Internal txn begin error.")
  else
    store_key <- EncodeKey cf_name k ;;
    d <- db_del (snd b) store_key ;;
    if negb (fst d =? 0) && negb (fst d =? DB_NOTFOUND)
    then return_ (st_EINTERNAL "Internal delete error.")
    else commit_block (snd d).

Definition KvDelete (cf_name : string) (k : string) : M Status :=
  call
    (if empty k then return_ (st_EKEY_EMPTY "Key is empty")
     else
       _ <- retry_loop retry_fuel "db delete failed" (KvDelete_try cf_name k) 0 ;;
       return_ st_EBDB_UNKNOW).

(** [KvBatchDelete]: the size of the bulk buffer.  [keys_size] is an [int],
    [keys_buf_size] a [uint64_t]. *)
Definition to_int32 (z : Z) : Z := (z + 2 ^ 31) mod 2 ^ 32 - 2 ^ 31.

Definition keys_buf_size (raw_keys : list string) : Z :=
  let keys_size :=
    fold_left (fun acc k => to_int32 (acc + 4 + size k)) raw_keys 0 in
  let sz := to_uint64 (4 * Z.of_nat (length raw_keys) + keys_size + 4) in
  let sz := to_uint64 (sz + (1024 - sz mod 1024)) in
  if sz <? DB_MAXIMUM_PAGESIZE then DB_MAXIMUM_PAGESIZE else sz.

Fixpoint encode_keys (cf_name : string) (keys : list string) : M (list string) :=
  match keys with
  | [] => ret []
  | k :: keys' =>
      raw <- EncodeKey cf_name k ;;
      raws <- encode_keys cf_name keys' ;;
      ret (raw :: raws)
  end.

Definition KvBatchDelete_try (raw_keys : list string) : M unit :=
  b <- txn_begin ;;
  if negb (fst b =? 0) then return_ (st_EINTERNAL "Internal txn begin error.")
  else
    d <- db_del_multiple (snd b) raw_keys ;;
    if negb (fst d =? 0) && negb (fst d =? DB_NOTFOUND)
    then return_ (st_EINTERNAL "Internal delete error.")
    else
      r <- catch_commit
             (r <- txn_commit (snd d) ;;
              if r =? 0 then return_ Status_OK else return_ st_EBDB_COMMIT) ;;
      if negb (r =? 0) then return_ st_EBDB_COMMIT else ret tt.

(** [DbMultipleDataBuilder::append] on a bulk buffer of [ulen] bytes
    (Berkeley DB's [DB_MULTIPLE_WRITE_NEXT]): the items are written from the
    start of the buffer, the offset and the length of each one as two 32-bit
    words from its end, below the 32-bit end mark; an item that would reach
    these words fails the call.  [off] is where the next item goes, [n] the
    number of items written so far. *)
Fixpoint append_all (ulen off n : Z) (raw_keys : list string) : bool :=
  match raw_keys with
  | [] => true
  | raw_key :: rest =>
      if ulen - 4 - 8 * n - 8 <? off + size raw_key then false
      else append_all ulen (off + size raw_key) (n + 1) rest
  end.

Section Malloc.

(** [malloc(n) != nullptr]: whether the allocation of [n] bytes succeeds. *)
Variable malloc : Z -> bool.

(** [Writer::KvBatchDelete].  The bulk buffer is the list [raw_keys] handed
    to the engine, once it could be allocated and filled.  ([new] does not
    return a null pointer, so the [return] after it is not reached.) *)
Definition KvBatchDelete (cf_name : string) (keys : list string) : M Status :=
  call
    (match keys with
     | [] => return_ (st_EKEY_EMPTY "Keys is empty")
     | _ =>
         raw_keys <- encode_keys cf_name keys ;;
         if UINT32_MAX <? keys_buf_size raw_keys then fatal
         else if negb (malloc (keys_buf_size raw_keys))
         then return_ (st_EINTERNAL "Internal malloc error.")
         else if negb (append_all (keys_buf_size raw_keys) 0 0 raw_keys)
         then return_ (st_EINTERNAL "Internal DbMultipleKeyDataBuilder append error.")
         else
           _ <- retry_loop retry_fuel "db delete failed"
                  (KvBatchDelete_try raw_keys) 0 ;;
           return_ st_EBDB_UNKNOW
     end).

End Malloc.

(** ** Snapshot and Iterator *)

(** [BdbRawEngine::GetSnapshot]: a snapshot is the set of records it sees;
    [None] is [nullptr].  The loop has no bound on the retries; its
    [retry_count] is only logged. *)
Definition GetSnapshot_try : M (option Db) :=
  b <- txn_begin ;;
  if negb (fst b =? 0) then ret None
  else
    r <- db_cursor ;;
    if negb (r =? 0) then ret None
    else
      r <- dbc_get_first (snd b) ;;
      if negb (r =? 0) && negb (r =? DB_NOTFOUND) then ret None
      else ret (Some (snd b)).

Fixpoint GetSnapshot_loop (fuel : nat) : M (option Db) :=
  match fuel with
  | O => timeout
  | S fuel' =>
      fun w =>
        match GetSnapshot_try w with
        | (Throw DbDeadlockException, w') => GetSnapshot_loop fuel' w'
        | (Throw DbException, w') => (Val None, w')
        | (Throw std_exception, w') => (Fatal, w')
        | r => r
        end
  end.

(** Every retry follows a fault taken from the list, so one more round than
    there are faults is enough. *)
Definition GetSnapshot : M (option Db) :=
  fun w => GetSnapshot_loop (S (length (faults w))) w.

Record IteratorOptions : Type :=
  mkOptions { lower_bound : string; upper_bound : string }.

(** [bdb::Iterator]: [pos_] holds the record the cursor is on ([bdb_key_],
    [bdb_value_]) followed by the records after it. *)
Record Iterator : Type := mkIterator {
  cf_id_ : ascii;
  cf_upper_bound_ : string;
  raw_start_key_ : string;
  raw_end_key_ : string;
  view_ : Db;
  pos_ : Db;
  valid_ : bool;
  status_ : Status
}.

Definition Iterator_new (cf_name : string) (options : IteratorOptions)
  (view : Db) : M Iterator :=
  match GetCfId cf_name with
  | None => fatal
  | Some cf_id =>
      ret {| cf_id_ := cf_id;
             cf_upper_bound_ := EncodedCfUpperBound_id cf_id;
             raw_start_key_ :=
               if negb (empty (lower_bound options))
               then EncodeKey_id cf_id (lower_bound options)
               else EncodeCf_id cf_id;
             raw_end_key_ :=
               if negb (empty (upper_bound options))
               then EncodeKey_id cf_id (upper_bound options)
               else EncodedCfUpperBound_id cf_id;
             view_ := view;
             pos_ := [];
             valid_ := false;
             status_ := Status_OK |}
  end.

Definition bdb_key_ (it : Iterator) : string :=
  match pos_ it with [] => "" | (k, _) :: _ => k end.

Definition bdb_value_ (it : Iterator) : string :=
  match pos_ it with [] => "" | (_, v) :: _ => v end.

(** [raw_start_key_.compare(sv) > 0] and [raw_end_key_.compare(sv) <= 0]. *)
Definition Valid (it : Iterator) : bool :=
  if negb (valid_ it) then false
  else if str_gt (raw_start_key_ it) (bdb_key_ it) then false
  else if negb (str_gt (raw_end_key_ it) (bdb_key_ it)) then false
  else true.

Definition Key (it : Iterator) : string := DbtToUserKey (bdb_key_ it).
Definition Value (it : Iterator) : string := bdb_value_ it.

Definition set_pos (it : Iterator) (pos : Db) (valid : bool) (st : Status)
  : Iterator :=
  {| cf_id_ := cf_id_ it; cf_upper_bound_ := cf_upper_bound_ it;
     raw_start_key_ := raw_start_key_ it; raw_end_key_ := raw_end_key_ it;
     view_ := view_ it; pos_ := pos; valid_ := valid; status_ := st |}.

(** The body shared by [Seek], [Next]: [valid_ = false; status_ = OK;] then
    the cursor call inside a [try] whose handlers only set [status_].
    [internal] is the text of the [EINTERNAL] status, [failed] that of the
    [EBDB_EXCEPTION] one. *)
Definition cursor_move (internal failed : string) (get : M (Z * Db))
  (it : Iterator) : M Iterator :=
  fun w =>
    match get w with
    | (Val (r, pos), w') =>
        if r =? 0 then (Val (set_pos it pos true Status_OK), w')
        else if r =? DB_NOTFOUND then (Val (set_pos it (pos_ it) false Status_OK), w')
        else (Val (set_pos it (pos_ it) false (st_EINTERNAL internal)), w')
    | (Throw DbDeadlockException, w') =>
        (Val (set_pos it (pos_ it) false
                (mkStatus EBDB_DEADLOCK "writer got DeadLockException, giving up.")), w')
    | (Throw DbException, w') =>
        (Val (set_pos it (pos_ it) false (mkStatus EBDB_EXCEPTION failed)), w')
    | (Throw std_exception, w') =>
        (Val (set_pos it (pos_ it) false st_ESTD_EXCEPTION), w')
    | (Return s, w') => (Return s, w')
    | (Fatal, w') => (Fatal, w')
    | (Timeout, w') => (Timeout, w')
    end.

Definition Seek (it : Iterator) (target : string) : M Iterator :=
  cursor_move "internal cursor seek error." "db seek failed"
    (dbc_get_set_range (view_ it) (String (cf_id_ it) target)) it.

Definition Next (it : Iterator) : M Iterator :=
  cursor_move "internal cursor next error." "db cursor next failed"
    (dbc_get_next (pos_ it)) it.

(** [Reader::NewIterator(cf_name, snapshot, options)]; without a snapshot the
    cursor reads the committed records. *)
Definition NewIterator (cf_name : string) (snapshot : option Db)
  (options : IteratorOptions) : M (option Iterator) :=
  fun w =>
    let view := match snapshot with Some ss => ss | None => db w end in
    match db_cursor w with
    | (Val r, w') =>
        if r =? 0
        then match Iterator_new cf_name options view w' with
             | (Val it, w'') => (Val (Some it), w'')
             | (Return s, w'') => (Return s, w'')
             | (Throw e, w'') => (Val None, w'')
             | (Fatal, w'') => (Fatal, w'')
             | (Timeout, w'') => (Timeout, w'')
             end
        else (Val None, w')
    | (Throw _, w') => (Val None, w')
    | (Return s, w') => (Return s, w')
    | (Fatal, w') => (Fatal, w')
    | (Timeout, w') => (Timeout, w')
    end.

(** ** Reader *)

(** [while (iter->Valid()) { out.push_back(emit(iter)); iter->Next(); }] *)
Fixpoint scan_loop {A : Type} (emit : Iterator -> A) (fuel : nat)
  (iter : Iterator) (out : list A) : M (list A) :=
  match fuel with
  | O => timeout
  | S fuel' =>
      if Valid iter
      then iter' <- Next iter ;; scan_loop emit fuel' iter' (out ++ [emit iter])
      else ret out
  end.

(** The scan shared by [KvScan], [KvCount] and [GetRangeKeys]: the result is
    the status and the out-parameter after the call. *)
Definition range_scan {A : Type} (emit : Iterator -> A) (cf_name : string)
  (snapshot : option Db) (start_key end_key : string) (out : list A)
  : M (Status * list A) :=
  if empty start_key then ret (st_EKEY_EMPTY "Start key is empty", out)
  else if empty end_key then ret (st_EKEY_EMPTY "End key is empty", out)
  else if str_ge start_key end_key then ret (Status_OK, out)
  else
    o <- NewIterator cf_name snapshot (mkOptions start_key end_key) ;;
    match o with
    | None => ret (st_EINTERNAL "Internal create iterator error.", out)
    | Some iter =>
        iter <- Seek iter start_key ;;
        out' <- scan_loop emit (S (length (pos_ iter))) iter out ;;
        ret (Status_OK, out')
    end.

(** [Reader::KvScan(cf_name, snapshot, start_key, end_key, kvs)]. *)
Definition KvScan_snapshot (cf_name : string) (snapshot : option Db)
  (start_key end_key : string) (kvs : list KeyValue)
  : M (Status * list KeyValue) :=
  range_scan (fun it => mkKeyValue (Key it) (Value it))
    cf_name snapshot start_key end_key kvs.

(** [Reader::KvScan(cf_name, start_key, end_key, kvs)]. *)
Definition KvScan (cf_name : string) (start_key end_key : string)
  (kvs : list KeyValue) : M (Status * list KeyValue) :=
  snapshot <- GetSnapshot ;;
  KvScan_snapshot cf_name snapshot start_key end_key kvs.

(** [Reader::KvCount]: [count] is reset, then incremented per record. *)
Definition KvCount_snapshot (cf_name : string) (snapshot : option Db)
  (start_key end_key : string) : M (Status * Z) :=
  r <- range_scan (fun _ => tt) cf_name snapshot start_key end_key [] ;;
  ret (fst r, Z.of_nat (length (snd r))).

Definition KvCount (cf_name : string) (start_key end_key : string)
  : M (Status * Z) :=
  snapshot <- GetSnapshot ;;
  KvCount_snapshot cf_name snapshot start_key end_key.

(** [Reader::GetRangeKeys]. *)
Definition GetRangeKeys (cf_name : string) (start_key end_key : string)
  (keys : list string) : M (Status * list string) :=
  if empty start_key then ret (st_EKEY_EMPTY "Start key is empty", keys)
  else if empty end_key then ret (st_EKEY_EMPTY "End key is empty", keys)
  else if str_ge start_key end_key then ret (Status_OK, keys)
  else
    snapshot <- GetSnapshot ;;
    o <- NewIterator cf_name snapshot (mkOptions start_key end_key) ;;
    match o with
    | None => ret (st_EINTERNAL "Internal create iterator error.", keys)
    | Some iter =>
        iter <- Seek iter start_key ;;
        keys' <- scan_loop Key (S (length (pos_ iter))) iter keys ;;
        ret (Status_OK, keys')
    end.

(** ** Range deletion and approximate sizes *)

Section WithHelper.

(** [Helper::CheckRange] (common/helper.cc is not among the sources). *)
Variable CheckRange : Range -> Status.

(** [malloc(n) != nullptr], for the bulk buffer of [KvBatchDelete]. *)
Variable malloc : Z -> bool.

(** [while (cursorp->get(&bdb_key, &bdb_value, DB_NEXT) == 0)]: the code of
    [cursorp->del(0)] is not read. *)
Fixpoint cursor_del_loop (fuel : nat) (store_end_key : string) (pos : Db)
  (txn : Db) : M Db :=
  match fuel with
  | O => timeout
  | S fuel' =>
      g <- dbc_get_next pos ;;
      if fst g =? 0
      then
        if str_lt (match snd g with [] => "" | (k, _) :: _ => k end) store_end_key
        then
          d <- dbc_del txn (snd g) ;;
          cursor_del_loop fuel' store_end_key (snd g) (snd d)
        else ret txn
      else ret txn
  end.

(** [Writer::DeleteRangeByCursor]: the status and the transaction after the
    call.  A cursor that could not be created leaves [cursorp] null, and the
    [get] that follows dereferences it. *)
Definition DeleteRangeByCursor (cf_name : string) (range : Range) (txn : Db)
  : M (Status * Db) :=
  if negb (ok (CheckRange range)) then ret (CheckRange range, txn)
  else
    c <- db_cursor ;;
    if negb (c =? 0) then fatal
    else
      store_key <- EncodeKey cf_name (start_key range) ;;
      store_end_key <- EncodeKey cf_name (end_key range) ;;
      g <- dbc_get_set_range txn store_key ;;
      if negb (fst g =? 0)
      then ret (st_EINTERNAL "Internal txn get error.", txn)
      else
        if str_lt (match snd g with [] => "" | (k, _) :: _ => k end) store_end_key
        then
          d <- dbc_del txn (snd g) ;;
          txn' <- cursor_del_loop (S (length (snd g))) store_end_key (snd g) (snd d) ;;
          ret (Status_OK, txn')
        else ret (Status_OK, txn).

Definition range_is_empty (range : Range) : bool :=
  empty (start_key range) || empty (end_key range).
Definition range_is_wrong (range : Range) : bool :=
  str_ge (start_key range) (end_key range).

Definition st_range_empty : Status :=
  mkStatus EILLEGAL_PARAMTETERS "range is empty".
Definition st_range_wrong : Status :=
  mkStatus EILLEGAL_PARAMTETERS "range is wrong".

Fixpoint normal_ranges (cf_name : string) (ranges : list Range) (txn : Db)
  : M Db :=
  match ranges with
  | [] => ret txn
  | range :: rest =>
      if range_is_empty range then return_ st_range_empty
      else if range_is_wrong range then return_ st_range_wrong
      else
        r <- DeleteRangeByCursor cf_name range txn ;;
        if negb (ok (fst r)) then return_ (fst r)
        else normal_ranges cf_name rest (snd r)
  end.

Fixpoint normal_cfs (range_with_cfs : list (string * list Range)) (txn : Db)
  : M Db :=
  match range_with_cfs with
  | [] => ret txn
  | (cf_name, ranges) :: rest =>
      txn' <- normal_ranges cf_name ranges txn ;;
      normal_cfs rest txn'
  end.

Definition KvBatchDeleteRangeNormal_try
  (range_with_cfs : list (string * list Range)) : M unit :=
  b <- txn_begin ;;
  if negb (fst b =? 0) then return_ (st_EINTERNAL "Internal txn begin error.")
  else
    txn <- normal_cfs range_with_cfs (snd b) ;;
    commit_block txn.

(** [Writer::KvBatchDeleteRangeNormal]: one transaction for all ranges. *)
Definition KvBatchDeleteRangeNormal
  (range_with_cfs : list (string * list Range)) : M Status :=
  call
    (_ <- retry_loop retry_fuel "db delete failed"
            (KvBatchDeleteRangeNormal_try range_with_cfs) 0 ;;
     return_ st_EBDB_UNKNOW).

Fixpoint bulk_ranges (cf_name : string) (ranges : list Range) : M unit :=
  match ranges with
  | [] => ret tt
  | range :: rest =>
      if range_is_empty range then return_ st_range_empty
      else if range_is_wrong range then return_ st_range_wrong
      else
        r <- GetRangeKeys cf_name (start_key range) (end_key range) [] ;;
        if negb (ok (fst r)) then return_ (fst r)
        else
          match snd r with
          | [] => bulk_ranges cf_name rest
          | keys =>
              s <- call (KvBatchDelete malloc cf_name keys) ;;
              if negb (ok s) then return_ s else bulk_ranges cf_name rest
          end
  end.

Fixpoint bulk_cfs (range_with_cfs : list (string * list Range)) : M unit :=
  match range_with_cfs with
  | [] => ret tt
  | (cf_name, ranges) :: rest =>
      _ <- bulk_ranges cf_name ranges ;; bulk_cfs rest
  end.

Definition KvBatchDeleteRangeBulk_try
  (range_with_cfs : list (string * list Range)) : M unit :=
  _ <- bulk_cfs range_with_cfs ;; return_ Status_OK.

(** [Writer::KvBatchDeleteRangeBulk]: the keys of each range are read
    through an iterator, then deleted by a [KvBatchDelete] of their own. *)
Definition KvBatchDeleteRangeBulk
  (range_with_cfs : list (string * list Range)) : M Status :=
  call
    (_ <- retry_loop retry_fuel "db delete failed"
            (KvBatchDeleteRangeBulk_try range_with_cfs) 0 ;;
     return_ Status_OK).

Definition KvBatchDeleteRange (range_with_cfs : list (string * list Range))
  : M Status :=
  if BDB_BUILD_USE_BULK_DELETE
  then KvBatchDeleteRangeBulk range_with_cfs
  else KvBatchDeleteRangeNormal range_with_cfs.

Definition KvDeleteRange (cf_name : string) (range : Range) : M Status :=
  if range_is_empty range then ret st_range_empty
  else if range_is_wrong range then ret st_range_wrong
  else KvBatchDeleteRange [(cf_name, [range])].

(** *** GetApproximateSizes *)

(** [DB_KEY_RANGE]: the proportions of keys less than, equal to and greater
    than a key, as [double]s. *)
Record DB_KEY_RANGE : Type :=
  mkKeyRange { less : float; equal : float; greater : float }.

(** The conversions [int64_t -> double] and [double -> int64_t]
    (truncation; a value that does not fit gives the "indefinite" integer
    of x86-64). *)
Definition double_of_int64 (n : Z) : float :=
  if 0 <=? n then PrimFloat.of_uint63 (Uint63.of_Z n)
  else PrimFloat.opp (PrimFloat.of_uint63 (Uint63.of_Z (- n))).

Definition int64_of_double (x : float) : Z :=
  match Prim2SF x with
  | S754_zero _ => 0
  | S754_finite s m e =>
      let v := if 0 <=? e then Z.pos m * 2 ^ e else Z.pos m / 2 ^ (- e) in
      let v := if s then - v else v in
      if (- 2 ^ 63 <=? v) && (v <? 2 ^ 63) then v else - 2 ^ 63
  | _ => - 2 ^ 63
  end.

(** The engine's statistics are inputs: [bt_nkeys] is what [Db::stat]
    reports with [DB_FAST_STAT], [key_range k] what [Db::key_range]
    reports for the key [k]. *)
Variable bt_nkeys : Z.
Variable key_range : string -> DB_KEY_RANGE.

Definition db_stat : M Z := engine_call (ret 0) (fun r => r).
Definition db_key_range (k : string) : M (Z * DB_KEY_RANGE) :=
  engine_call (ret (0, key_range k))
    (fun r => (r, mkKeyRange 0%float 0%float 0%float)).

Definition estimate_count (range_start range_end : DB_KEY_RANGE) : Z :=
  let range_result :=
    (1.0 - less range_start - equal range_end - greater range_end)%float in
  if PrimFloat.leb 0x1.203af9ee75616p-50%float range_result
  then int64_of_double (double_of_int64 bt_nkeys * range_result)%float
  else 0.

Fixpoint fast_ranges (cf_name : string) (ranges : list Range)
  (result_counts : list Z) : M (list Z) :=
  match ranges with
  | [] => ret result_counts
  | range :: rest =>
      if negb (ok (CheckRange range)) then ret []
      else
        store_start_key <- EncodeKey cf_name (start_key range) ;;
        store_end_key <- EncodeKey cf_name (end_key range) ;;
        rs <- db_key_range store_start_key ;;
        if negb (fst rs =? 0) then ret []
        else
          re <- db_key_range store_end_key ;;
          if negb (fst re =? 0) then ret []
          else
            let count := estimate_count (snd rs) (snd re) in
            if 0 <? count
            then fast_ranges cf_name rest (result_counts ++ [count])
            else fast_ranges cf_name rest result_counts
  end.

(** The [#else] branch: statistics, inside [try ... catch (DbException&)]. *)
Definition GetApproximateSizes_fast (cf_name : string) (ranges : list Range)
  : M (list Z) :=
  fun w =>
    match (r <- db_stat ;;
           if negb (r =? 0) then ret [] else fast_ranges cf_name ranges []) w
    with
    | (Throw e, w') =>
        if is_DbException e then (Val [], w') else (Throw e, w')
    | r => r
    end.

(** [Reader::GetRangeCountByCursor] is declared in the header only. *)
Variable GetRangeCountByCursor : string -> string -> string -> M (Status * Z).

Fixpoint cursor_ranges (cf_name : string) (ranges : list Range)
  (result_counts : list Z) : M (list Z) :=
  match ranges with
  | [] => ret result_counts
  | range :: rest =>
      r <- GetRangeCountByCursor cf_name (start_key range) (end_key range) ;;
      if negb (ok (fst r)) then ret []
      else cursor_ranges cf_name rest (result_counts ++ [snd r])
  end.

(** The [#ifndef BDB_FAST_GET_APROX_SIZE] branch: counting by cursor. *)
Definition GetApproximateSizes_cursor (cf_name : string)
  (ranges : list Range) : M (list Z) :=
  cursor_ranges cf_name ranges [].

Definition GetApproximateSizes (cf_name : string) (ranges : list Range)
  : M (list Z) :=
  if BDB_FAST_GET_APROX_SIZE
  then GetApproximateSizes_fast cf_name ranges
  else GetApproximateSizes_cursor cf_name ranges.

End WithHelper.

(** ** More of BdbHelper and of the Reader *)

Definition cf_id_to_name : list (ascii * string) :=
  [("0"%char, "default"); ("1"%char, "meta"); ("2"%char, "vector_scalar");
   ("3"%char, "vector_table"); ("4"%char, "data"); ("5"%char, "lock");
   ("6"%char, "write")].

(** [GetCfName]: [None] is the [DINGO_LOG(FATAL)] of an unknown id. *)
Definition GetCfName (cf_id : ascii) : option string :=
  snd <$> List.find (fun p => Ascii.eqb (fst p) cf_id) cf_id_to_name.

(** [DecodeKey(cf_name, bdb_key, key)]: the code and [key] after the call;
    a key that is not longer than the prefix fails the [CHECK].  The code is
    -1 also when the key was decoded. *)
Definition DecodeKey (bdb_key : string) : M (Z * string) :=
  if (CF_ID_LEN <? String.length bdb_key)%nat
  then ret (-1, DbtToUserKey bdb_key)
  else fatal.

(** [Db::get(txn, key, value, 0)] on the records [view]: the code and the
    value. *)
Definition db_get (view : Db) (k : string) : M (Z * string) :=
  engine_call
    (ret (match db_find k view with
          | Some v => (0, v)
          | None => (DB_NOTFOUND, "")
          end))
    (fun r => (r, "")).

(** [Reader::KvGet(cf_name, snapshot, key, value)]: the status and [value]
    after the call.  The handlers are those of the [try] block around the
    whole body: a deadlock is a [DbException] here. *)
Definition KvGet_snapshot (cf_name : string) (snapshot : option Db)
  (k : string) (v : string) : M (Status * string) :=
  if empty k then ret (st_EKEY_EMPTY "Key is empty", v)
  else
    fun w =>
      let view := match snapshot with Some ss => ss | None => db w end in
      match (store_key <- EncodeKey cf_name k ;; db_get view store_key) w with
      | (Val (r, bdb_value), w') =>
          if r =? 0 then (Val (Status_OK, bdb_value), w')
          else if r =? DB_NOTFOUND
          then (Val (mkStatus EKEY_NOT_FOUND "Not found key.", v), w')
          else (Val (st_EINTERNAL "Internal get error.", v), w')
      | (Throw e, w') =>
          if is_DbException e then (Val (mkStatus EBDB_EXCEPTION "", v), w')
          else (Val (mkStatus ESTD_EXCEPTION "", v), w')
      | (Return s, w') => (Return s, w')
      | (Fatal, w') => (Fatal, w')
      | (Timeout, w') => (Timeout, w')
      end.

(** [Reader::KvGet(cf_name, key, value)]. *)
Definition KvGet (cf_name : string) (k : string) (v : string)
  : M (Status * string) :=
  snapshot <- GetSnapshot ;;
  KvGet_snapshot cf_name snapshot k v.

End Bdb.

(** * src/coordinator/coordinator_control_kv.cc *)

Module Kv.

Import SafeMap.

(** [DEFINE_uint32(max_kv_key_size, 4096, ...)] and
    [DEFINE_uint32(max_kv_value_size, 4096, ...)]. *)
Definition FLAGS_max_kv_key_size : Z := 4096.
Definition FLAGS_max_kv_value_size : Z := 4096.

(** ** Protobuf messages *)

(** [pb::coordinator_internal::RevisionInternal]. *)
Record RevisionInternal : Type := mkRevision { main : Z; sub : Z }.

(** [KvIndexInternal::Generation]; [create_revision] is a sub-message, so the
    generated code knows whether it was set ([has_create_revision]). *)
Record Generation : Type := mkGeneration {
  create_revision : option RevisionInternal;
  verison : Z;
  revisions : list RevisionInternal
}.

(** [pb::coordinator_internal::KvIndexInternal]. *)
Record KvIndexInternal : Type := mkKvIndex {
  index_id : string;
  index_mod_revision : RevisionInternal;
  generations : list Generation
}.

(** [pb::coordinator_internal::KvInternal]. *)
Record KvInternal : Type := mkKvInternal {
  kv_id : string;
  kv_value : string;
  kv_create_revision : RevisionInternal;
  kv_mod_revision : RevisionInternal;
  kv_version : Z;
  kv_lease : Z;
  kv_is_deleted : bool
}.

(** [pb::coordinator_internal::KvRevInternal]. *)
Record KvRevInternal : Type := mkKvRev { rev_id : string; rev_kv : KvInternal }.

(** [pb::version::Kv]. *)
Record version_Kv : Type := mkVersionKv {
  vkv_create_revision : Z;
  vkv_mod_revision : Z;
  vkv_version : Z;
  vkv_lease : Z;
  vkv_key : string;
  vkv_value : string
}.

(** [pb::version::Event::EventType]. *)
Inductive EventType : Type := Event_EventType_PUT | Event_EventType_DELETE.

(** One entry of [MetaIncrement::kv_indexes]. *)
Inductive KvIndexEventType : Type :=
| KV_INDEX_EVENT_TYPE_PUT
| KV_INDEX_EVENT_TYPE_DELETE.

Record MetaIncrementKvIndex : Type := mkMetaIncrementKvIndex {
  mi_id : string;
  mi_event_type : KvIndexEventType;
  mi_op_revision : RevisionInternal;
  mi_ignore_lease : bool;
  mi_lease_id : Z;
  mi_ignore_value : bool;
  mi_value : string
}.

(** [pb::coordinator_internal::MetaIncrement], its [kv_indexes]. *)
Definition MetaIncrement : Type := list MetaIncrementKvIndex.

#[global] Instance RevisionInternal_eq_dec : EqDecision RevisionInternal.
Proof. solve_decision. Defined.
#[global] Instance Generation_eq_dec : EqDecision Generation.
Proof. solve_decision. Defined.
#[global] Instance KvIndexInternal_eq_dec : EqDecision KvIndexInternal.
Proof. solve_decision. Defined.
#[global] Instance KvInternal_eq_dec : EqDecision KvInternal.
Proof. solve_decision. Defined.
#[global] Instance KvRevInternal_eq_dec : EqDecision KvRevInternal.
Proof. solve_decision. Defined.

(** Default-constructed messages. *)
Definition Revision_default : RevisionInternal := mkRevision 0 0.
Definition Generation_default : Generation := mkGeneration None 0 [].
Definition KvIndex_default : KvIndexInternal := mkKvIndex "" Revision_default [].
Definition KvInternal_default : KvInternal :=
  mkKvInternal "" "" Revision_default Revision_default 0 0 false.
Definition KvRev_default : KvRevInternal := mkKvRev "" KvInternal_default.
Definition version_Kv_default : version_Kv := mkVersionKv 0 0 0 0 "" "".

(** [generation.create_revision()]: the default message when unset. *)
Definition get_create_revision (g : Generation) : RevisionInternal :=
  match create_revision g with Some r => r | None => Revision_default end.

Definition has_create_revision (g : Generation) : bool :=
  match create_revision g with Some _ => true | None => false end.

(** ** Revision keys *)

(** The [i]-th byte of a 64-bit integer, counted from the least
    significant one. *)
Definition byte_of (z : Z) (i : Z) : ascii :=
  ascii_of_N (Z.to_N ((to_uint64 z / 2 ^ (8 * i)) mod 256)).

(** Modelled from the spec: [Buf::WriteLong] (serial/buf.h is not among the
    sources) writes the eight bytes of its argument, most significant
    first: the revision key is "fixed 17-byte big-endian
    main(8) | '_' | sub(8)". *)
Definition WriteLong (z : Z) : string :=
  String (byte_of z 7) (String (byte_of z 6) (String (byte_of z 5)
  (String (byte_of z 4) (String (byte_of z 3) (String (byte_of z 2)
  (String (byte_of z 1) (String (byte_of z 0) EmptyString))))))).

(** [CoordinatorControl::RevisionToString]:
    [buf.WriteLong(main); buf.Write('_'); buf.WriteLong(sub);]. *)
Definition RevisionToString (revision : RevisionInternal) : string :=
  String.append (WriteLong (main revision))
    (String "_"%char (WriteLong (sub revision))).

(** ** The coordinator's state *)

(** What [meta_writer_] was asked to persist. *)
Inductive MetaWrite : Type :=
| MetaPutKvIndex (kv_index : KvIndexInternal)
| MetaPutKvRev (kv_rev : KvRevInternal)
| MetaDeleteKvIndex (kv_index : KvIndexInternal)
| MetaDeleteKvRev (kv_rev : KvRevInternal).

(** A watch that fired: the watchers, the event and the two records. *)
Record WatchEvent : Type := mkWatchEvent {
  we_watchers : list Z;
  we_type : EventType;
  we_new_kv : version_Kv;
  we_prev_kv : version_Kv
}.

Record CoordinatorControl : Type := mkControl {
  kv_index_map_ : DingoSafeMap string KvIndexInternal;
  kv_rev_map_ : DingoSafeMap string KvRevInternal;
  meta_writer_ : list MetaWrite;
  one_time_watch_map_ : gmap string (list Z);
  watch_fired_ : list WatchEvent
}.

Definition set_kv_index_map (cc : CoordinatorControl)
  (m : DingoSafeMap string KvIndexInternal) : CoordinatorControl :=
  mkControl m (kv_rev_map_ cc) (meta_writer_ cc) (one_time_watch_map_ cc)
    (watch_fired_ cc).

Definition set_kv_rev_map (cc : CoordinatorControl)
  (m : DingoSafeMap string KvRevInternal) : CoordinatorControl :=
  mkControl (kv_index_map_ cc) m (meta_writer_ cc) (one_time_watch_map_ cc)
    (watch_fired_ cc).

Definition meta_write (cc : CoordinatorControl) (op : MetaWrite)
  : CoordinatorControl :=
  mkControl (kv_index_map_ cc) (kv_rev_map_ cc) (meta_writer_ cc ++ [op])
    (one_time_watch_map_ cc) (watch_fired_ cc).

(** Modelled from the spec: [TriggerOneWatch] (coordinator_control_watch.cc
    is not among the sources); a one-shot watch "fires once on the next PUT
    or DELETE matching key, then is removed". *)
Definition TriggerOneWatch (k : string) (event : EventType)
  (new_kv prev_kv : version_Kv) (cc : CoordinatorControl) : CoordinatorControl :=
  match one_time_watch_map_ cc !! k with
  | None => cc
  | Some watchers =>
      mkControl (kv_index_map_ cc) (kv_rev_map_ cc) (meta_writer_ cc)
        (delete k (one_time_watch_map_ cc))
        (watch_fired_ cc ++ [mkWatchEvent watchers event new_kv prev_kv])
  end.

(** ** Raw access to the two maps *)

Definition st_EINVAL (msg : string) : Status := mkStatus EINVAL msg.

Definition GetRawKvIndex (cc : CoordinatorControl) (k : string)
  (kv_index : KvIndexInternal) : Status * KvIndexInternal :=
  let '(r, kv_index') := Get (kv_index_map_ cc) k kv_index in
  if r <? 0 then (st_EINVAL "GetRawKvIndex not found", kv_index')
  else (Status_OK, kv_index').

(** [std::to_string('\0')]: the [char] is promoted to [int], so the result is
    the decimal text of 0. *)
Definition std_to_string (n : Z) : string := NilZero.string_of_int (Z.to_int n).

Definition nul : ascii := Ascii.zero.

(** The filter [RangeRawKvIndex] hands to [GetAllValues]. *)
Definition range_filter (k range_end : string) (version_kv : KvIndexInternal)
  : bool :=
  match last (generations version_kv) with
  | None => false
  | Some latest_generation =>
      if negb (has_create_revision latest_generation)
         || (length (revisions latest_generation) =? 0)%nat
      then false
      else if empty range_end then bool_decide (k = index_id version_kv)
      else if bool_decide (range_end = std_to_string (Z.of_N (N_of_ascii nul)))
      then str_ge (index_id version_kv) k
      else str_ge (index_id version_kv) k && str_lt (index_id version_kv) range_end
  end.

Definition RangeRawKvIndex (cc : CoordinatorControl) (k range_end : string)
  (kv_index_values : list KvIndexInternal) : Status * list KvIndexInternal :=
  let '(r, values) :=
    GetAllValues (kv_index_map_ cc) kv_index_values (range_filter k range_end) in
  if r <? 0 then (st_EINVAL "RangeRawKvIndex failed", values)
  else (Status_OK, values).

Definition PutRawKvIndex (cc : CoordinatorControl) (k : string)
  (kv_index : KvIndexInternal) : Status * CoordinatorControl :=
  let '(m, _) := Put k kv_index (kv_index_map_ cc) in
  (Status_OK, meta_write (set_kv_index_map cc m) (MetaPutKvIndex kv_index)).

Definition DeleteRawKvIndex (cc : CoordinatorControl) (k : string)
  (kv_index : KvIndexInternal) : Status * CoordinatorControl :=
  let '(m, _) := Erase k (kv_index_map_ cc) in
  (Status_OK, meta_write (set_kv_index_map cc m) (MetaDeleteKvIndex kv_index)).

Definition GetRawKvRev (cc : CoordinatorControl) (revision : RevisionInternal)
  (kv_rev : KvRevInternal) : Status * KvRevInternal :=
  let '(r, kv_rev') := Get (kv_rev_map_ cc) (RevisionToString revision) kv_rev in
  if r <? 0 then (st_EINVAL "GetRawKvRev not found", kv_rev')
  else (Status_OK, kv_rev').

Definition PutRawKvRev (cc : CoordinatorControl) (revision : RevisionInternal)
  (kv_rev : KvRevInternal) : Status * CoordinatorControl :=
  let '(m, _) := Put (RevisionToString revision) kv_rev (kv_rev_map_ cc) in
  (Status_OK, meta_write (set_kv_rev_map cc m) (MetaPutKvRev kv_rev)).

Definition DeleteRawKvRev (cc : CoordinatorControl) (revision : RevisionInternal)
  (kv_rev : KvRevInternal) : Status * CoordinatorControl :=
  let '(m, _) := Erase (RevisionToString revision) (kv_rev_map_ cc) in
  (Status_OK, meta_write (set_kv_rev_map cc m) (MetaDeleteKvRev kv_rev)).

(** ** KvRange *)

Definition to_uint32 (z : Z) : Z := z mod 2 ^ 32.

(** One round of the loop over [kv_index_values]; the state is
    [limit_count] and the output vector [kv]. *)
Definition range_step (cc : CoordinatorControl) (limit : Z) (keys_only : bool)
  (acc : Z * list version_Kv) (kv_index_value : KvIndexInternal)
  : Z * list version_Kv :=
  let '(limit_count, kv) := acc in
  match last (generations kv_index_value) with
  | None => acc
  | Some latest_generation =>
      if negb (has_create_revision latest_generation)
         || (length (revisions latest_generation) =? 0)%nat
      then acc
      else
        let limit_count := to_uint32 (limit_count + 1) in
        if limit <? limit_count then (limit_count, kv)
        else
          let '(ret, kv_rev) :=
            GetRawKvRev cc (index_mod_revision kv_index_value) KvRev_default in
          if negb (ok ret) then (limit_count, kv)
          else
            let kv_in_rev := rev_kv kv_rev in
            (limit_count,
             kv ++ [mkVersionKv (main (kv_create_revision kv_in_rev))
                      (main (kv_mod_revision kv_in_rev))
                      (kv_version kv_in_rev) (kv_lease kv_in_rev)
                      (kv_id kv_in_rev)
                      (if keys_only then "" else kv_value kv_in_rev)])
  end.

(** [CoordinatorControl::KvRange]: the status, the vector [kv] and
    [total_count_in_range] after the call. *)
Definition KvRange (cc : CoordinatorControl) (k range_end : string) (limit : Z)
  (keys_only count_only : bool) (kv : list version_Kv)
  (total_count_in_range : Z) : Status * list version_Kv * Z :=
  let limit := if limit =? 0 then INT64_MAX else limit in
  let lookup : Status + list KvIndexInternal :=
    if empty range_end
    then
      let '(ret, kv_index) := GetRawKvIndex cc k KvIndex_default in
      if negb (ok ret) then inl Status_OK else inr [kv_index]
    else
      let '(ret, values) := RangeRawKvIndex cc k range_end [] in
      if negb (ok ret) then inl ret else inr values in
  match lookup with
  | inl st => (st, kv, total_count_in_range)
  | inr kv_index_values =>
      if count_only then (Status_OK, kv, total_count_in_range)
      else
        let '(limit_count, kv') :=
          fold_left (range_step cc limit keys_only) kv_index_values (0, kv) in
        (Status_OK, kv', limit_count)
  end.

(** ** KvPut *)

Section Lease.

(** [LeaseQuery] and [LeaseAddKeys] (coordinator_control_lease.cc is not
    among the sources) act on the lease state. *)
Variable LeaseState : Type.
Variable LeaseQuery : Z -> LeaseState -> Status.
Variable LeaseAddKeys : Z -> list string -> LeaseState -> Status * LeaseState.

(** What a call of [KvPut] leaves in its reference parameters. *)
Record KvPutResult : Type := mkKvPutResult {
  put_status : Status;
  put_sub_revision : Z;
  put_prev_kv : version_Kv;
  put_lease_grant_id : Z;
  put_meta_increment : MetaIncrement;
  put_leases : LeaseState
}.

Definition KvPut (cc : CoordinatorControl) (leases : LeaseState)
  (key_value_in : Bdb.KeyValue) (lease_id : Z)
  (need_prev_kv igore_value ignore_lease : bool) (main_revision : Z)
  (sub_revision : Z) (prev_kv : version_Kv) (lease_grant_id : Z)
  (meta_increment : MetaIncrement) : KvPutResult :=
  let k := Bdb.key key_value_in in
  let v := Bdb.value key_value_in in
  let fail st lease_grant_id leases :=
    mkKvPutResult st sub_revision prev_kv lease_grant_id meta_increment leases in
  (* check lease is valid *)
  if negb ignore_lease && negb (lease_id =? 0) && negb (ok (LeaseQuery lease_id leases))
  then fail (LeaseQuery lease_id leases) lease_grant_id leases
  else
    let lease_grant_id := lease_id in
    (* if ignore_lease, get the lease of the key *)
    let kvs_temp : list version_Kv :=
      if ignore_lease then snd (fst (KvRange cc k "" 1 false false [] 0)) else [] in
    match (if ignore_lease
           then match kvs_temp with
                | kv0 :: _ => Some (vkv_lease kv0)
                | [] => None
                end
           else Some lease_grant_id) with
    | None => fail (st_EINVAL "KvPut ignore_lease, but not found key") lease_grant_id leases
    | Some lease_grant_id =>
        (* add key to lease if lease_id is not 0 *)
        let '(ret, leases') :=
          if negb (lease_grant_id =? 0) then LeaseAddKeys lease_grant_id [k] leases
          else (Status_OK, leases) in
        if negb (ok ret) then fail ret lease_grant_id leases'
        else if empty k then fail (st_EINVAL "KvPut key is empty") lease_grant_id leases'
        else if negb igore_value && empty v
        then fail (st_EINVAL "KvPut value is empty") lease_grant_id leases'
        else if FLAGS_max_kv_key_size <? size k
        then fail (st_EINVAL "KvPut key is too long") lease_grant_id leases'
        else if negb igore_value && (FLAGS_max_kv_value_size <? size v)
        then fail (st_EINVAL "KvPut value is too long") lease_grant_id leases'
        else
          (* get prev_kvs *)
          let prev_kv' :=
            if need_prev_kv
            then
              let kvs_temp :=
                match kvs_temp with
                | [] => snd (fst (KvRange cc k "" 1 false false [] 0))
                | _ => kvs_temp
                end in
              match kvs_temp with
              | kv0 :: _ => kv0
              | [] => version_Kv_default
              end
            else prev_kv in
          (* add meta_increment *)
          let kv_index_meta_increment :=
            mkMetaIncrementKvIndex k KV_INDEX_EVENT_TYPE_PUT
              (mkRevision main_revision sub_revision) ignore_lease lease_grant_id
              (if negb ignore_lease then igore_value else false)
              (if negb igore_value then v else "") in
          mkKvPutResult Status_OK (to_uint64 (sub_revision + 1)) prev_kv'
            lease_grant_id (meta_increment ++ [kv_index_meta_increment]) leases'
    end.

End Lease.

Arguments mkKvPutResult {LeaseState}.
Arguments put_status {LeaseState}.
Arguments put_sub_revision {LeaseState}.
Arguments put_prev_kv {LeaseState}.
Arguments put_lease_grant_id {LeaseState}.
Arguments put_meta_increment {LeaseState}.
Arguments put_leases {LeaseState}.
Arguments KvPut {LeaseState}.

(** ** KvDeleteRange *)

Section LeaseRemove.

(** [LeaseRemoveMultiLeaseKeys] (coordinator_control_lease.cc is not among
    the sources) acts on the lease state. *)
Variable LeaseState : Type.
Variable LeaseRemoveMultiLeaseKeys :
  gmap Z (gset string) -> LeaseState -> Status * LeaseState.

(** What a call of [KvDeleteRange] leaves in its reference parameters. *)
Record KvDeleteRangeResult : Type := mkKvDeleteRangeResult {
  del_status : Status;
  del_sub_revision : Z;
  del_prev_kvs : list version_Kv;
  del_meta_increment : MetaIncrement;
  del_leases : LeaseState
}.

(** One round of the loop over [kvs_to_delete]; the state is
    [sub_revision], [meta_increment] and [keys_to_remove_lease], whose keys
    are [uint64_t]. *)
Definition delete_step (main_revision : Z)
  (acc : Z * MetaIncrement * gmap Z (gset string)) (kv_to_delete : version_Kv)
  : Z * MetaIncrement * gmap Z (gset string) :=
  let '(sub_revision, meta_increment, keys_to_remove_lease) := acc in
  let kv_index_meta_increment :=
    mkMetaIncrementKvIndex (vkv_key kv_to_delete) KV_INDEX_EVENT_TYPE_DELETE
      (mkRevision main_revision sub_revision) false 0 false "" in
  let meta_increment := meta_increment ++ [kv_index_meta_increment] in
  let sub_revision := to_uint64 (sub_revision + 1) in
  if vkv_lease kv_to_delete =? 0
  then (sub_revision, meta_increment, keys_to_remove_lease)
  else
    (* prepare for lease remove *)
    let keys : gset string := {[vkv_key kv_to_delete]} in
    (sub_revision, meta_increment,
     <[to_uint64 (vkv_lease kv_to_delete) := keys]> keys_to_remove_lease).

Definition KvDeleteRange (cc : CoordinatorControl) (leases : LeaseState)
  (k range_end : string) (need_prev_kv : bool) (main_revision : Z)
  (sub_revision : Z) (need_lease_remove_keys : bool)
  (prev_kvs : list version_Kv) (meta_increment : MetaIncrement)
  : KvDeleteRangeResult :=
  let key_only := negb need_prev_kv in
  let '(ret, kvs_to_delete, _) :=
    KvRange cc k range_end INT64_MAX key_only false [] 0 in
  if negb (ok ret)
  then mkKvDeleteRangeResult ret sub_revision prev_kvs meta_increment leases
  else
    (* do kv_delete *)
    let '(sub_revision, meta_increment, keys_to_remove_lease) :=
      fold_left (delete_step main_revision) kvs_to_delete
        (sub_revision, meta_increment, ∅) in
    (* do lease_remove_keys *)
    let '(ret, leases') :=
      if need_lease_remove_keys && negb (bool_decide (keys_to_remove_lease = ∅))
      then LeaseRemoveMultiLeaseKeys keys_to_remove_lease leases
      else (Status_OK, leases) in
    if negb (ok ret)
    then mkKvDeleteRangeResult ret sub_revision prev_kvs meta_increment leases'
    else
      mkKvDeleteRangeResult Status_OK sub_revision
        (if need_prev_kv then kvs_to_delete else prev_kvs) meta_increment leases'.

End LeaseRemove.

Arguments mkKvDeleteRangeResult {LeaseState}.
Arguments del_status {LeaseState}.
Arguments del_sub_revision {LeaseState}.
Arguments del_prev_kvs {LeaseState}.
Arguments del_meta_increment {LeaseState}.
Arguments del_leases {LeaseState}.
Arguments KvDeleteRange {LeaseState}.

(** ** The apply functions *)

(** [*kv_index.mutable_generations(kv_index.generations_size() - 1) = g]. *)
Definition set_latest_generation (gens : list Generation) (g : Generation)
  : list Generation := removelast gens ++ [g].

(** The generation a put starts: [create_revision = op_revision],
    [verison = 1], [op_revision] added to [revisions]. *)
Definition start_generation (g : Generation) (op_revision : RevisionInternal)
  : Generation :=
  mkGeneration (Some (mkRevision (main op_revision) (sub op_revision))) 1
    (revisions g ++ [op_revision]).

(** [add_revisions()->CopyFrom(op_revision); set_verison(verison() + 1);] *)
Definition add_revision (g : Generation) (op_revision : RevisionInternal)
  : Generation :=
  mkGeneration (create_revision g) (to_uint64 (verison g + 1))
    (revisions g ++ [op_revision]).

(** The new kv_index with [last_mod_revision], [new_create_revision],
    [new_version] and [prev_kv], as the first half of [KvPutApply] leaves
    them. *)
Definition put_kv_index (cc : CoordinatorControl) (k : string)
  (op_revision : RevisionInternal)
  : KvIndexInternal * RevisionInternal * RevisionInternal * Z * version_Kv :=
  let new_create_revision := mkRevision (main op_revision) (sub op_revision) in
  let '(ret, kv_index) := GetRawKvIndex cc k KvIndex_default in
  if negb (ok ret)
  then
    (mkKvIndex k (mkRevision (main op_revision) (sub op_revision))
       (generations kv_index ++ [start_generation Generation_default op_revision]),
     Revision_default, new_create_revision, 1, version_Kv_default)
  else
    let last_mod_revision := index_mod_revision kv_index in
    match last (generations kv_index) with
    | None =>
        (mkKvIndex (index_id kv_index) op_revision
           (generations kv_index ++ [start_generation Generation_default op_revision]),
         last_mod_revision, new_create_revision, 1, version_Kv_default)
    | Some latest_generation =>
        let '(latest_generation', prev_kv) :=
          if has_create_revision latest_generation
          then
            let g := add_revision latest_generation op_revision in
            (g, mkVersionKv (main (get_create_revision g))
                  (main (index_mod_revision kv_index)) (verison g) 0 "" "")
          else (start_generation latest_generation op_revision, version_Kv_default) in
        (mkKvIndex (index_id kv_index) op_revision
           (set_latest_generation (generations kv_index) latest_generation'),
         last_mod_revision,
         mkRevision (main (get_create_revision latest_generation'))
           (sub (get_create_revision latest_generation')),
         verison latest_generation', prev_kv)
    end.

(** The watch block shared by the two apply functions. *)
Definition trigger_watch (cc : CoordinatorControl) (k : string)
  (event : EventType) (prev_kv : version_Kv) (kv_rev_last kv_rev : KvRevInternal)
  (new_create_revision op_revision : RevisionInternal) (new_version : Z)
  : CoordinatorControl :=
  if negb (bool_decide (one_time_watch_map_ cc = ∅))
  then
    let prev_kv :=
      if 0 <? vkv_create_revision prev_kv
      then mkVersionKv (vkv_create_revision prev_kv) (vkv_mod_revision prev_kv)
             (vkv_version prev_kv) (kv_lease (rev_kv kv_rev_last)) k
             (kv_value (rev_kv kv_rev_last))
      else prev_kv in
    let new_kv :=
      mkVersionKv (main new_create_revision) (main op_revision) new_version
        (kv_lease (rev_kv kv_rev)) k (kv_value (rev_kv kv_rev)) in
    TriggerOneWatch k event new_kv prev_kv cc
  else cc.

Definition KvPutApply (cc : CoordinatorControl) (k : string)
  (op_revision : RevisionInternal) (ignore_lease : bool) (lease_id : Z)
  (ignore_value : bool) (v : string) : Status * CoordinatorControl :=
  let '(kv_index, last_mod_revision, new_create_revision, new_version, prev_kv) :=
    put_kv_index cc k op_revision in
  (* generate new kv_rev *)
  let kv_rev_last := snd (GetRawKvRev cc last_mod_revision KvRev_default) in
  let kv_rev :=
    mkKvRev (RevisionToString op_revision)
      (mkKvInternal k
         (if negb ignore_value then v else kv_value (rev_kv kv_rev_last))
         (mkRevision (main new_create_revision) (sub new_create_revision))
         (mkRevision (main op_revision) (sub op_revision))
         new_version
         (if ignore_lease then kv_lease (rev_kv kv_rev_last) else lease_id)
         false) in
  (* do real write to state machine *)
  let '(_, cc1) := PutRawKvIndex cc k kv_index in
  let '(ret, cc2) := PutRawKvRev cc1 op_revision kv_rev in
  if negb (ok ret) then (ret, cc2)
  else
    (Status_OK,
     trigger_watch cc2 k Event_EventType_PUT prev_kv kv_rev_last kv_rev
       new_create_revision op_revision new_version).

(** The first half of [KvDeleteApply] for a key whose kv_index was found. *)
Definition delete_kv_index (kv_index : KvIndexInternal)
  (op_revision : RevisionInternal)
  : KvIndexInternal * RevisionInternal * RevisionInternal * Z * version_Kv :=
  let new_create_revision := mkRevision (main op_revision) (sub op_revision) in
  let last_mod_revision := index_mod_revision kv_index in
  match last (generations kv_index) with
  | None =>
      (* create a null generator means delete *)
      (mkKvIndex (index_id kv_index) op_revision
         (generations kv_index ++ [Generation_default]),
       last_mod_revision, new_create_revision, 1, version_Kv_default)
  | Some latest_generation =>
      let '(gens, latest_generation', prev_kv) :=
        if has_create_revision latest_generation
        then
          let g := add_revision latest_generation op_revision in
          (set_latest_generation (generations kv_index) g ++ [Generation_default],
           g,
           mkVersionKv (main (get_create_revision g))
             (main (index_mod_revision kv_index)) (verison g) 0 "" "")
        else (generations kv_index, latest_generation, version_Kv_default) in
      (mkKvIndex (index_id kv_index) op_revision gens,
       last_mod_revision,
       mkRevision (main (get_create_revision latest_generation'))
         (sub (get_create_revision latest_generation')),
       verison latest_generation', prev_kv)
  end.

Definition KvDeleteApply (cc : CoordinatorControl) (k : string)
  (op_revision : RevisionInternal) : Status * CoordinatorControl :=
  let '(ret, kv_index0) := GetRawKvIndex cc k KvIndex_default in
  if negb (ok ret) then (Status_OK, cc)
  else
    let '(kv_index, last_mod_revision, new_create_revision, new_version, prev_kv) :=
      delete_kv_index kv_index0 op_revision in
    (* generate new kv_rev *)
    let kv_rev_last := snd (GetRawKvRev cc last_mod_revision KvRev_default) in
    let kv_rev :=
      mkKvRev (RevisionToString op_revision)
        (mkKvInternal k ""
           (mkRevision (main new_create_revision) (sub new_create_revision))
           (mkRevision (main op_revision) (sub op_revision))
           new_version 0 true) in
    (* do real write to state machine *)
    let '(_, cc1) := PutRawKvIndex cc k kv_index in
    let '(ret, cc2) := PutRawKvRev cc1 op_revision kv_rev in
    if negb (ok ret) then (ret, cc2)
    else
      (Status_OK,
       trigger_watch cc2 k Event_EventType_DELETE prev_kv kv_rev_last kv_rev
         new_create_revision op_revision new_version).

(** [CoordinatorControl::KvCompactApply]. *)
Definition KvCompactApply (cc : CoordinatorControl) (k : string)
  (op_revision : RevisionInternal) : Status * CoordinatorControl :=
  (Status_OK, cc).

End Kv.

(** * src/server/coordinator_service.cc *)

Module CoordinatorService.

(** [pb::error::Error]. *)
Record Error : Type := mkError { errcode : Errno; errmsg : string }.

(** [pb::coordinator::UpdateGCSafePointRequest]; the two maps are keyed by
    tenant id. *)
Record UpdateGCSafePointRequest : Type := mkRequest {
  safe_point : Z;
  gc_flag : Z;
  tenant_safe_points : gmap Z Z;
  resolve_lock_safe_point : Z;
  tenant_resolve_lock_safe_points : gmap Z Z
}.

(** [pb::coordinator::UpdateGCSafePointResponse], the fields the handler
    writes; [leader_location] is what [RedirectResponse] fills in. *)
Record UpdateGCSafePointResponse : Type := mkResponse {
  error : option Error;
  new_safe_point : Z;
  gc_stop : bool;
  leader_location : option string
}.

Definition set_error (response : UpdateGCSafePointResponse) (e : Error)
  : UpdateGCSafePointResponse :=
  mkResponse (Some e) (new_safe_point response) (gc_stop response)
    (leader_location response).

Definition set_new_safe_point (response : UpdateGCSafePointResponse) (v : Z)
  : UpdateGCSafePointResponse :=
  mkResponse (error response) v (gc_stop response) (leader_location response).

Definition set_gc_stop (response : UpdateGCSafePointResponse) (b : bool)
  : UpdateGCSafePointResponse :=
  mkResponse (error response) (new_safe_point response) b
    (leader_location response).

(** What [CoordinatorControl::UpdateGCSafePoint] leaves in its reference
    parameters. *)
Record UpdateGCSafePointResult : Type := mkResult {
  ret : Status;
  new_gc_safe_point : Z;
  out_gc_stop : bool;
  new_resolve_lock_safe_point : Z;
  meta_increment_size : Z
}.

Section Handler.

(** The collaborators of the handler (coordinator_control.h and the raft
    engine are not among the sources): the coordinator's view of itself and
    of the safe points, and the replicated write. *)
Variable IsLeader : bool.
Variable RedirectResponse : UpdateGCSafePointResponse -> UpdateGCSafePointResponse.
Variable UpdateGCSafePoint :
  Z -> Z -> gmap Z Z -> Z -> gmap Z Z -> UpdateGCSafePointResult.
Variable raft_engine_Write : Status.

(** [DoUpdateGCSafePoint]: the response after the call. *)
Definition DoUpdateGCSafePoint (request : UpdateGCSafePointRequest)
  (response : UpdateGCSafePointResponse) : UpdateGCSafePointResponse :=
  if negb IsLeader then RedirectResponse response
  else
    let r :=
      UpdateGCSafePoint (safe_point request) (gc_flag request)
        (tenant_safe_points request) (resolve_lock_safe_point request)
        (tenant_resolve_lock_safe_points request) in
    if negb (ok (ret r))
    then set_error response (mkError (error_code (ret r)) (error_str (ret r)))
    else
      let response := set_new_safe_point response (new_gc_safe_point r) in
      let response := set_gc_stop response (out_gc_stop r) in
      let response := set_new_safe_point response (new_resolve_lock_safe_point r) in
      if meta_increment_size r =? 0 then response
      else if negb (ok raft_engine_Write)
      then set_error response
             (mkError (error_code raft_engine_Write) (error_str raft_engine_Write))
      else response.

End Handler.

(** ** CreateIds and CreateRegionId *)

(** [DEFINE_int32(max_create_id_count, 2048, ...)]. *)
Definition FLAGS_max_create_id_count : Z := 2048.

(** [pb::coordinator::IdEpochType]: the members [DoCreateIds] names;
    [ID_other] stands for the other values of the enum. *)
Inductive IdEpochType : Type :=
| ID_DDL_JOB
| ID_SCHEMA_VERSION
| ID_NEXT_TENANT
| ID_NEXT_TABLE
| ID_NEXT_SCHEMA
| ID_other (n : Z).

#[global] Instance IdEpochType_eq_dec : EqDecision IdEpochType.
Proof. solve_decision. Defined.

(** [pb::coordinator::CreateIdsRequest] and [CreateIdsResponse]. *)
Record CreateIdsRequest : Type := mkCreateIdsRequest {
  id_epoch_type : IdEpochType;
  ids_count : Z
}.

Record CreateIdsResponse : Type := mkCreateIdsResponse {
  ids_error : option Error;
  ids : list Z
}.

(** [pb::coordinator::CreateRegionIdRequest] and [CreateRegionIdResponse]. *)
Record CreateRegionIdRequest : Type := mkCreateRegionIdRequest {
  region_count : Z
}.

Record CreateRegionIdResponse : Type := mkCreateRegionIdResponse {
  region_error : option Error;
  region_ids : list Z
}.

Section CreateIds.

(** The collaborators, as for [DoUpdateGCSafePoint]: [CreateIds] and
    [CreateRegionId] give their status, the ids and the meta increment they
    filled; [raft_engine_Write] is the replicated write of an increment. *)
Variable MetaIncrement : Type.
Variable ByteSizeLong : MetaIncrement -> Z.
Variable IsLeader : bool.
Variable RedirectIds : CreateIdsResponse -> CreateIdsResponse.
Variable RedirectRegionId : CreateRegionIdResponse -> CreateRegionIdResponse.
Variable CreateIds : IdEpochType -> Z -> Status * list Z * MetaIncrement.
Variable CreateRegionId : Z -> Status * list Z * MetaIncrement.
Variable raft_engine_Write : MetaIncrement -> Status.

(** [DoCreateIds]: the response after the call and the increments handed to
    [raft_engine->Write]. *)
Definition DoCreateIds (request : CreateIdsRequest) (response : CreateIdsResponse)
  : CreateIdsResponse * list MetaIncrement :=
  if negb IsLeader then (RedirectIds response, [])
  else if ids_count request <=? 0
  then (mkCreateIdsResponse
          (Some (mkError EILLEGAL_PARAMTETERS "count must be greater than 0"))
          (ids response), [])
  else if negb (bool_decide (id_epoch_type request = ID_DDL_JOB))
          && negb (bool_decide (id_epoch_type request = ID_SCHEMA_VERSION))
          && negb (bool_decide (id_epoch_type request = ID_NEXT_TENANT))
          && negb (bool_decide (id_epoch_type request = ID_NEXT_TABLE))
          && negb (bool_decide (id_epoch_type request = ID_NEXT_SCHEMA))
  then (mkCreateIdsResponse
          (Some (mkError EILLEGAL_PARAMTETERS
                   "id_epoch_type must be in [ID_DDL_JOB, ID_SCHEMA_VERSION, ID_NEXT_TENANT, ID_NEXT_TABLE, ID_NEXT_SCHEMA]"))
          (ids response), [])
  else
    let '(st, new_ids, meta_increment) :=
      CreateIds (id_epoch_type request) (ids_count request) in
    if negb (ok st)
    then (mkCreateIdsResponse (Some (mkError (error_code st) (error_str st)))
            (ids response), [])
    else
      let st2 := raft_engine_Write meta_increment in
      if negb (ok st2)
      then (mkCreateIdsResponse (Some (mkError (error_code st2) (error_str st2)))
              (ids response), [meta_increment])
      else (mkCreateIdsResponse (ids_error response) (ids response ++ new_ids),
            [meta_increment]).

(** [DoCreateRegionId]: the response after the call and the increments
    handed to [raft_engine->Write]. *)
Definition DoCreateRegionId (request : CreateRegionIdRequest)
  (response : CreateRegionIdResponse)
  : CreateRegionIdResponse * list MetaIncrement :=
  if negb IsLeader then (RedirectRegionId response, [])
  else if region_count request <=? 0
  then (mkCreateRegionIdResponse
          (Some (mkError EILLEGAL_PARAMTETERS "count must be greater than 0"))
          (region_ids response), [])
  else if FLAGS_max_create_id_count <? region_count request
  then (mkCreateRegionIdResponse
          (Some (mkError EILLEGAL_PARAMTETERS
                   ("count must be less than "
                    ++ Kv.std_to_string FLAGS_max_create_id_count)))
          (region_ids response), [])
  else
    let '(st, new_ids, meta_increment) := CreateRegionId (region_count request) in
    let response :=
      if ok st
      then mkCreateRegionIdResponse (region_error response)
             (region_ids response ++ new_ids)
      else mkCreateRegionIdResponse
             (Some (mkError (error_code st) (error_str st)))
             (region_ids response) in
    if ByteSizeLong meta_increment =? 0 then (response, [])
    else
      let st2 := raft_engine_Write meta_increment in
      if negb (ok st2)
      then (mkCreateRegionIdResponse
              (Some (mkError (error_code st2) (error_str st2)))
              (region_ids response), [meta_increment])
      else (response, [meta_increment]).

End CreateIds.

End CoordinatorService.

(** * Properties *)

(** ** Integers and strings *)

Lemma to_uint64_small z : 0 <= z < 2 ^ 64 -> to_uint64 z = z.
Proof. intros Hz. unfold to_uint64. now apply Z.mod_small. Qed.

Lemma to_uint64_range z : 0 <= to_uint64 z < 2 ^ 64.
Proof. unfold to_uint64. apply Z.mod_pos_bound. lia. Qed.

Lemma size_string_n n c : size (string_n n c) = Z.of_nat n.
Proof. unfold size. f_equal. induction n; simpl; congruence. Qed.

Lemma empty_size s : empty s = true <-> size s = 0.
Proof. destruct s; unfold size; simpl; split; intros; try easy; lia. Qed.

Lemma str_ge_refl a : str_ge a a = true.
Proof.
  unfold str_ge, String.ltb.
  pose proof (String.compare_antisym a a) as Hanti.
  destruct (String.compare a a); simpl in *; congruence.
Qed.

(** The order on strings: [String.compare] is the comparison of
    [String_as_OT], whose order is strict. *)
Lemma compare_as_OT a b :
  OrdersEx.String_as_OT.compare a b = String.compare a b.
Proof. reflexivity. Qed.

Lemma compare_refl a : String.compare a a = Eq.
Proof.
  pose proof (String.compare_antisym a a) as Hanti.
  destruct (String.compare a a); simpl in Hanti; congruence.
Qed.

Lemma compare_eq a b : String.compare a b = Eq <-> a = b.
Proof.
  split; [apply String.compare_eq_iff | intros ->; apply compare_refl].
Qed.

Lemma compare_lt_trans a b c :
  String.compare a b = Lt -> String.compare b c = Lt -> String.compare a c = Lt.
Proof.
  rewrite <- !compare_as_OT.
  apply (@StrictOrder_Transitive _ _ OrdersEx.String_as_OT.lt_strorder).
Qed.

Lemma str_lt_compare a b : str_lt a b = true <-> String.compare a b = Lt.
Proof.
  unfold str_lt, String.ltb. destruct (String.compare a b); split; congruence.
Qed.

Lemma str_gt_lt a b : str_gt a b = str_lt b a.
Proof.
  unfold str_gt, str_lt, String.ltb. rewrite (String.compare_antisym a b).
  destruct (String.compare b a); reflexivity.
Qed.

Lemma str_ge_lt a b : str_ge a b = negb (str_lt a b).
Proof. reflexivity. Qed.

Lemma str_lt_irrefl a : str_lt a a = false.
Proof. unfold str_lt, String.ltb. now rewrite compare_refl. Qed.

Lemma str_lt_trans a b c :
  str_lt a b = true -> str_lt b c = true -> str_lt a c = true.
Proof. rewrite !str_lt_compare. apply compare_lt_trans. Qed.

Lemma str_lt_asym a b : str_lt a b = true -> str_lt b a = false.
Proof.
  intros Hab. destruct (str_lt b a) eqn:Hba; [|reflexivity].
  pose proof (str_lt_trans _ _ _ Hab Hba) as Haa.
  rewrite str_lt_irrefl in Haa. discriminate.
Qed.

(** [a <= b < c] and [a < b <= c] give [a < c]. *)
Lemma str_le_lt_trans a b c :
  str_lt b a = false -> str_lt b c = true -> str_lt a c = true.
Proof.
  intros Hab Hbc. unfold str_lt, String.ltb in Hab.
  destruct (String.compare b a) eqn:Hcmp; try discriminate.
  - apply compare_eq in Hcmp. now subst.
  - apply str_lt_trans with b; [|assumption].
    apply str_lt_compare. rewrite String.compare_antisym, Hcmp. reflexivity.
Qed.

Lemma str_lt_le_trans a b c :
  str_lt a b = true -> str_lt c b = false -> str_lt a c = true.
Proof.
  intros Hab Hbc. unfold str_lt, String.ltb in Hbc.
  destruct (String.compare c b) eqn:Hcmp; try discriminate.
  - apply compare_eq in Hcmp. now subst.
  - apply str_lt_trans with b; [assumption|].
    apply str_lt_compare. rewrite String.compare_antisym, Hcmp. reflexivity.
Qed.

Lemma str_lt_neq a b : str_lt a b = true -> a <> b.
Proof. intros Hlt ->. rewrite str_lt_irrefl in Hlt. discriminate. Qed.

(** ** safe_map.h *)

Module SafeMapSpec.

Import SafeMap.

Section Facts.
Context {T_KEY T_VALUE : Type} `{Countable T_KEY} `{EqDecision T_VALUE}.
Variable ByteSizeLong : T_VALUE -> Z.

Implicit Types (m : DingoSafeMap T_KEY T_VALUE) (fg : gmap T_KEY T_VALUE).

(** Every member built on [Modify] answers 1 or -1. *)
Lemma modify_member_codes fn m :
  snd (modify_member fn m) = 1 \/ snd (modify_member fn m) = -1.
Proof.
  unfold modify_member. destruct (Modify fn m) as [m' n].
  destruct (0 <? n); simpl; auto.
Qed.

(** ... 1 exactly when the inner function reports a modified record. *)
Lemma modify_member_success fn m :
  snd (modify_member fn m) = 1 <-> 0 < snd (fn (safe_map m)).
Proof.
  unfold modify_member, Modify.
  destruct (fn (safe_map m)) as [fg n] eqn:Hfn; simpl.
  destruct (n =? 0) eqn:Hn.
  - apply Z.eqb_eq in Hn. subst n. simpl. split; intros; lia.
  - destruct (0 <? n) eqn:Hpos; simpl.
    + apply Z.ltb_lt in Hpos. tauto.
    + apply Z.ltb_ge in Hpos. split; intros; lia.
Qed.

Lemma Put_stores key value m :
  Put key value m = (mkSafeMap (<[key := value]> (safe_map m)) (read_rc m), 1).
Proof. reflexivity. Qed.

Lemma Get_failure m key v0 :
  read_rc m <> 0 \/ safe_map m !! key = None -> Get m key v0 = (-1, v0).
Proof.
  intros Hfail. unfold Get.
  destruct (read_rc m =? 0) eqn:Hrc; simpl; [|reflexivity].
  apply Z.eqb_eq in Hrc. destruct Hfail as [Hne | Hnone]; [lia|].
  now rewrite Hnone.
Qed.

Lemma Get_found m key v0 v :
  read_rc m = 0 -> safe_map m !! key = Some v -> Get m key v0 = (0, v).
Proof.
  intros Hrc Hsome. unfold Get. rewrite Hrc, Hsome. reflexivity.
Qed.

Lemma Get_negative_iff m key v0 :
  (fst (Get m key v0) <? 0) = true <-> read_rc m <> 0 \/ safe_map m !! key = None.
Proof.
  unfold Get. destruct (read_rc m =? 0) eqn:Hrc; simpl.
  - apply Z.eqb_eq in Hrc. destruct (safe_map m !! key); simpl.
    + split; [discriminate|]. intros [Hne | Hnone]; [lia | discriminate].
    + split; auto.
  - apply Z.eqb_neq in Hrc. split; auto.
Qed.

Lemma Size_read_error m : read_rc m <> 0 -> Size m = 0.
Proof.
  intros Hrc. unfold Size. apply Z.eqb_neq in Hrc. now rewrite Hrc.
Qed.

Lemma MemorySize_read_error m :
  read_rc m <> 0 -> MemorySize ByteSizeLong m = 2 ^ 64 - 1.
Proof.
  intros Hrc. unfold MemorySize. apply Z.eqb_neq in Hrc. now rewrite Hrc.
Qed.

(** C10: the header says every member but [Size] and [MemorySize] answers 1 on
    success and -1 on failure, and the two sizes answer 0 on a read error.
    [Get(key, value)] answers 0 when it finds the key, and [MemorySize]
    answers [uint64_t(-1)] when the read fails. *)
Theorem Get_and_MemorySize_codes :
  (forall fg key v v0,
      Get (mkSafeMap (<[key := v]> fg) 0) key v0 = (0, v)) /\
  (forall fg, MemorySize ByteSizeLong (mkSafeMap fg (-1)) = 18446744073709551615) /\
  (forall fg key v0, Get (mkSafeMap fg (-1)) key v0 = (-1, v0)) /\
  (forall fg, Size (mkSafeMap fg (-1)) = 0).
Proof.
  split; [|split; [|split]].
  - intros fg key v v0. apply Get_found; [reflexivity|].
    simpl. apply lookup_insert_eq.
  - intros fg. rewrite MemorySize_read_error by (simpl; lia). reflexivity.
  - intros fg key v0. apply Get_failure. left. simpl. lia.
  - intros fg. apply Size_read_error. simpl. lia.
Qed.

(** *** Round trips through the map *)

Lemma Erase_stores key m :
  Erase key m = (mkSafeMap (delete key (safe_map m)) (read_rc m), 1).
Proof. reflexivity. Qed.

Lemma Get_lookup m key v0 :
  read_rc m = 0 ->
  Get m key v0 = match safe_map m !! key with
                 | Some v => (0, v)
                 | None => (-1, v0)
                 end.
Proof. intros Hrc. unfold Get. now rewrite Hrc. Qed.

Lemma Count_lookup m key :
  read_rc m = 0 ->
  Count m key = match safe_map m !! key with Some _ => 1 | None => 0 end.
Proof. intros Hrc. unfold Count. now rewrite Hrc. Qed.

(** A value that was put is read back, until the key is erased; the other
    keys are not concerned. *)
Theorem Put_Get_Erase_round_trip m key value v0 :
  read_rc m = 0 ->
  let m1 := fst (Put key value m) in
  let m2 := fst (Erase key m1) in
  snd (Put key value m) = 1 /\
  Get m1 key v0 = (0, value) /\ Count m1 key = 1 /\
  snd (Erase key m1) = 1 /\
  Get m2 key v0 = (-1, v0) /\ Count m2 key = 0 /\
  (forall k, k <> key ->
             Get m1 k v0 = Get m k v0 /\ Get m2 k v0 = Get m k v0 /\
             Count m1 k = Count m k /\ Count m2 k = Count m k).
Proof.
  intros Hrc m1 m2. subst m2 m1. rewrite Put_stores. cbn [fst snd].
  rewrite Erase_stores. cbn [fst snd].
  rewrite !Get_lookup, !Count_lookup by assumption. cbn [safe_map].
  rewrite lookup_insert_eq, lookup_delete_eq.
  repeat (split; [reflexivity|]).
  intros k Hk.
  rewrite !Get_lookup, !Count_lookup by assumption. cbn [safe_map].
  rewrite (lookup_delete_ne _ key k), (lookup_insert_ne _ key k) by congruence.
  auto.
Qed.

(** *** Conditional puts *)

Lemma modify_member_changed fn m fg n :
  fn (safe_map m) = (fg, n) -> 0 < n ->
  modify_member fn m = (mkSafeMap fg (read_rc m), 1).
Proof.
  intros Hfn Hn. unfold modify_member, Modify. rewrite Hfn.
  destruct (Z.eqb_spec n 0) as [->|_]; [lia|].
  apply Z.ltb_lt in Hn. now rewrite Hn.
Qed.

Lemma modify_member_refused fn m fg :
  fn (safe_map m) = (fg, 0) -> modify_member fn m = (m, -1).
Proof. intros Hfn. unfold modify_member, Modify. now rewrite Hfn. Qed.

Lemma PutIfAbsent_result key value m :
  PutIfAbsent key value m
  = match safe_map m !! key with
    | Some _ => (m, -1)
    | None => (mkSafeMap (<[key := value]> (safe_map m)) (read_rc m), 1)
    end.
Proof.
  unfold PutIfAbsent. destruct (safe_map m !! key) as [old|] eqn:Hk.
  - apply (modify_member_refused _ _ (safe_map m)).
    unfold InnerPutIfAbsent. now rewrite Hk.
  - apply modify_member_changed with (n := 1); [|lia].
    unfold InnerPutIfAbsent. now rewrite Hk.
Qed.

Lemma PutIfExists_result key value m :
  PutIfExists key value m
  = match safe_map m !! key with
    | None => (m, -1)
    | Some _ => (mkSafeMap (<[key := value]> (safe_map m)) (read_rc m), 1)
    end.
Proof.
  unfold PutIfExists. destruct (safe_map m !! key) as [old|] eqn:Hk.
  - apply modify_member_changed with (n := 1); [|lia].
    unfold InnerPutIfExists. now rewrite Hk.
  - apply (modify_member_refused _ _ (safe_map m)).
    unfold InnerPutIfExists. now rewrite Hk.
Qed.

(** [PutIfAbsent] never overwrites: afterwards the key holds the value it
    had, or the new one when it had none, and the call says which.
    [PutIfExists] never creates a key: a key that was there holds the new
    value, one that was not is still missing. *)
Theorem PutIfAbsent_PutIfExists_keep m key value v0 :
  read_rc m = 0 ->
  Get (fst (PutIfAbsent key value m)) key v0
  = (0, default value (safe_map m !! key)) /\
  (snd (PutIfAbsent key value m) = 1 <-> safe_map m !! key = None) /\
  (snd (PutIfAbsent key value m) = -1 <-> is_Some (safe_map m !! key)) /\
  Get (fst (PutIfExists key value m)) key v0
  = (if Count m key =? 1 then (0, value) else (-1, v0)) /\
  Count (fst (PutIfExists key value m)) key = Count m key /\
  (snd (PutIfExists key value m) = 1 <-> is_Some (safe_map m !! key)) /\
  (snd (PutIfExists key value m) = -1 <-> safe_map m !! key = None).
Proof.
  intros Hrc. rewrite PutIfAbsent_result, PutIfExists_result.
  rewrite (Count_lookup m) by assumption.
  destruct (safe_map m !! key) as [old|] eqn:Hk; cbn [fst snd default].
  - rewrite Get_lookup, Hk by assumption.
    rewrite Get_lookup, Count_lookup by assumption. cbn [safe_map].
    rewrite lookup_insert_eq. cbn.
    repeat split; try easy; eauto.
  - rewrite !Get_lookup, Count_lookup by assumption. cbn [safe_map].
    rewrite lookup_insert_eq, Hk. cbn.
    repeat split; try easy; intros [x Hx]; discriminate.
Qed.

Lemma PutIfEqual_result key value m :
  PutIfEqual key value m
  = if bool_decide (safe_map m !! key = Some value) then (m, 1) else (m, -1).
Proof.
  unfold PutIfEqual. destruct m as [fg rc]. cbn [safe_map].
  destruct (fg !! key) as [old|] eqn:Hk.
  - destruct (decide (old = value)) as [->|Hne].
    + rewrite bool_decide_eq_true_2 by reflexivity.
      rewrite (modify_member_changed _ _ (<[key := value]> fg) 1); [|
        cbn [safe_map]; unfold InnerPutIfEqual; rewrite Hk;
        now rewrite bool_decide_eq_true_2 | lia].
      cbn [safe_map read_rc]. now rewrite insert_id.
    + rewrite bool_decide_eq_false_2 by congruence.
      apply (modify_member_refused _ _ fg). cbn [safe_map].
      unfold InnerPutIfEqual. rewrite Hk.
      now rewrite bool_decide_eq_false_2.
  - rewrite bool_decide_eq_false_2 by congruence.
    apply (modify_member_refused _ _ fg). cbn [safe_map].
    unfold InnerPutIfEqual. now rewrite Hk.
Qed.

Lemma PutIfNotEqual_result key value m :
  PutIfNotEqual key value m
  = match safe_map m !! key with
    | None => (m, -1)
    | Some old =>
        if bool_decide (old = value) then (m, -1)
        else (mkSafeMap (<[key := value]> (safe_map m)) (read_rc m), 1)
    end.
Proof.
  unfold PutIfNotEqual. destruct (safe_map m !! key) as [old|] eqn:Hk.
  - destruct (decide (old = value)) as [->|Hne].
    + rewrite bool_decide_eq_true_2 by reflexivity.
      apply (modify_member_refused _ _ (safe_map m)).
      unfold InnerPutIfNotEqual. rewrite Hk.
      now rewrite bool_decide_eq_true_2.
    + rewrite bool_decide_eq_false_2 by assumption.
      apply modify_member_changed with (n := 1); [|lia].
      unfold InnerPutIfNotEqual. rewrite Hk.
      now rewrite bool_decide_eq_false_2.
  - apply (modify_member_refused _ _ (safe_map m)).
    unfold InnerPutIfNotEqual. now rewrite Hk.
Qed.

(** [PutIfEqual] is a test: it answers 1 exactly when the key holds the given
    value, and the map is the same afterwards in either case.
    [PutIfNotEqual] answers 1 exactly when the key holds another value, and
    then stores the given one; a key that is there holds the given value
    afterwards whatever the answer, a missing key stays missing. *)
Theorem PutIfEqual_PutIfNotEqual_effect m key value :
  fst (PutIfEqual key value m) = m /\
  (snd (PutIfEqual key value m) = 1 <-> safe_map m !! key = Some value) /\
  (snd (PutIfNotEqual key value m) = 1 <->
   exists old, safe_map m !! key = Some old /\ old <> value) /\
  safe_map (fst (PutIfNotEqual key value m)) !! key
  = (fun _ => value) <$> (safe_map m !! key) /\
  (forall k, k <> key ->
             safe_map (fst (PutIfNotEqual key value m)) !! k = safe_map m !! k).
Proof.
  rewrite PutIfEqual_result, PutIfNotEqual_result.
  split; [now destruct (bool_decide _)|].
  split.
  { destruct (bool_decide_reflect (safe_map m !! key = Some value));
      cbn; split; intros; try easy; try lia. }
  destruct (safe_map m !! key) as [old|] eqn:Hk.
  - destruct (bool_decide_reflect (old = value)) as [->|Hne]; cbn [fst snd].
    + split; [split; [lia | intros (x & Hx & Hneq); congruence]|].
      split; [now rewrite Hk | reflexivity].
    + split; [split; eauto|]. cbn [safe_map].
      split; [apply lookup_insert_eq|].
      intros k Hne'. apply lookup_insert_ne. congruence.
  - cbn [fst snd]. split; [split; [lia | intros (x & Hx & _); discriminate]|].
    split; [now rewrite Hk | reflexivity].
Qed.

(** *** MultiPut *)

Lemma insert_all_notin key_list : forall value_list fg k,
  k ∉ key_list -> insert_all key_list value_list fg !! k = fg !! k.
Proof.
  induction key_list as [|k0 ks IH]; intros [|v0 vs] fg k Hk; try reflexivity.
  cbn [insert_all]. apply not_elem_of_cons in Hk as [Hne Hk].
  rewrite IH by assumption. now apply lookup_insert_ne.
Qed.

Lemma insert_all_lookup key_list : forall value_list fg i k v,
  NoDup key_list ->
  key_list !! i = Some k -> value_list !! i = Some v ->
  insert_all key_list value_list fg !! k = Some v.
Proof.
  induction key_list as [|k0 ks IH]; intros [|v0 vs] fg i k v Hnd Hk Hv;
    try discriminate.
  apply NoDup_cons in Hnd as [Hnotin Hnd]. cbn [insert_all].
  destruct i as [|i]; cbn in Hk, Hv.
  - inversion Hk; inversion Hv; subst.
    rewrite insert_all_notin by assumption. apply lookup_insert_eq.
  - now apply (IH vs _ i).
Qed.

Lemma MultiPut_result key_list value_list m :
  MultiPut key_list value_list m
  = if bool_decide (length key_list = length value_list /\ key_list <> [])
    then (mkSafeMap (insert_all key_list value_list (safe_map m)) (read_rc m), 1)
    else (m, -1).
Proof.
  unfold MultiPut.
  destruct (Nat.eqb_spec (length key_list) (length value_list)) as [Hlen|Hlen].
  - destruct key_list as [|k ks].
    + rewrite bool_decide_eq_false_2 by (intros [_ Hne]; congruence).
      apply (modify_member_refused _ _ (safe_map m)).
      unfold InnerMultiPut. rewrite <- Hlen. reflexivity.
    + rewrite bool_decide_eq_true_2 by (split; [assumption | discriminate]).
      apply modify_member_changed with (n := Z.of_nat (length (k :: ks)));
        [|cbn [length]; lia].
      unfold InnerMultiPut. rewrite Hlen, Nat.eqb_refl. cbn [negb].
      rewrite <- Hlen. reflexivity.
  - rewrite bool_decide_eq_false_2 by (intros [Heq _]; contradiction).
    apply (modify_member_refused _ _ (safe_map m)).
    unfold InnerMultiPut. apply Nat.eqb_neq in Hlen. now rewrite Hlen.
Qed.

(** [MultiPut] is all or nothing.  Lists of different lengths, or empty
    ones, are refused and the map is as before.  Otherwise every key holds
    its value afterwards (the keys being distinct) and the keys that are not
    listed are not concerned. *)
Theorem MultiPut_all_or_nothing m key_list value_list :
  (length key_list <> length value_list \/ key_list = [] ->
   MultiPut key_list value_list m = (m, -1)) /\
  (length key_list = length value_list -> key_list <> [] ->
   snd (MultiPut key_list value_list m) = 1 /\
   (NoDup key_list ->
    forall i k v, key_list !! i = Some k -> value_list !! i = Some v ->
                  safe_map (fst (MultiPut key_list value_list m)) !! k = Some v) /\
   (forall k, k ∉ key_list ->
              safe_map (fst (MultiPut key_list value_list m)) !! k
              = safe_map m !! k)).
Proof.
  rewrite MultiPut_result. split.
  - intros Hbad. rewrite bool_decide_eq_false_2; [reflexivity|].
    intros [Hlen Hne]. destruct Hbad; contradiction.
  - intros Hlen Hne. rewrite bool_decide_eq_true_2 by auto.
    cbn [fst snd safe_map]. split; [reflexivity|]. split.
    + intros Hnd i k v. now apply insert_all_lookup.
    + intros k. apply insert_all_notin.
Qed.

(** *** Sizes *)

Lemma MemorySize_step (a b1 b2 : Z) :
  to_uint64 (to_uint64 (a + b2) + b1) = to_uint64 (to_uint64 (a + b1) + b2).
Proof.
  unfold to_uint64. rewrite !Z.add_mod_idemp_l by lia. f_equal. lia.
Qed.

(** [Size] counts the keys and [MemorySize] adds up what [ByteSizeLong]
    says of the values (as a [uint64_t]): a new key adds one to the first
    and the size of its value to the second, erasing it takes them back,
    overwriting a key keeps the count, and [Clear] leaves both at 0. *)
Theorem Size_MemorySize_accounting m key value :
  read_rc m = 0 ->
  safe_map m !! key = None ->
  let m1 := fst (Put key value m) in
  Size m1 = Size m + 1 /\
  MemorySize ByteSizeLong m1
  = to_uint64 (MemorySize ByteSizeLong m + ByteSizeLong value) /\
  (forall value', Size (fst (Put key value' m1)) = Size m1) /\
  Size (fst (Erase key m1)) = Size m /\
  MemorySize ByteSizeLong (fst (Erase key m1)) = MemorySize ByteSizeLong m /\
  Size (fst (Clear m1)) = 0 /\
  MemorySize ByteSizeLong (fst (Clear m1)) = 0.
Proof.
  intros Hrc Hk m1. subst m1. rewrite Put_stores. cbn [fst].
  assert (Herase : forall fg rc,
             fst (Erase key (mkSafeMap fg rc)) = mkSafeMap (delete key fg) rc)
    by reflexivity.
  assert (Hclear : forall fg rc, fst (Clear (mkSafeMap fg rc)) = mkSafeMap ∅ rc)
    by reflexivity.
  rewrite Herase, Hclear, delete_insert_id by assumption.
  unfold Size, MemorySize. cbn [safe_map read_rc]. rewrite Hrc. cbn [Z.eqb negb].
  rewrite map_size_insert_None by assumption.
  rewrite map_fold_insert_L; [|intros; apply MemorySize_step | assumption].
  destruct m as [fg rc]. cbn [safe_map] in *.
  repeat split; try reflexivity; try lia.
  intros value'. rewrite Put_stores. cbn [fst safe_map].
  rewrite map_size_insert_Some, map_size_insert_None;
    [reflexivity | assumption |].
  rewrite lookup_insert_eq. eauto.
Qed.

End Facts.

(** The theorems at work on a map from strings to integers, each of them
    taking 8 bytes. *)
Definition example_map : DingoSafeMap string Z :=
  mkSafeMap (<["b" := 2]> ∅) 0.

Lemma Put_Get_Erase_round_trip_witness :
  Get (fst (Put "a" 1 example_map)) "a" 0 = (0, 1) /\
  Get (fst (Erase "a" (fst (Put "a" 1 example_map)))) "a" 0 = (-1, 0).
Proof.
  pose proof (Put_Get_Erase_round_trip example_map "a" 1 0 eq_refl)
    as (_ & Hget & _ & _ & Hgone & _).
  split; assumption.
Defined.

Lemma PutIfAbsent_PutIfExists_keep_witness :
  Get (fst (PutIfAbsent "b" 5 example_map)) "b" 0 = (0, 2) /\
  Get (fst (PutIfExists "a" 5 example_map)) "a" 0 = (-1, 0).
Proof.
  pose proof (PutIfAbsent_PutIfExists_keep example_map "b" 5 0 eq_refl)
    as (Habsent & _).
  pose proof (PutIfAbsent_PutIfExists_keep example_map "a" 5 0 eq_refl)
    as (_ & _ & _ & Hexists & _).
  split; assumption.
Defined.

Lemma PutIfEqual_PutIfNotEqual_effect_witness :
  snd (PutIfEqual "b" 2 example_map) = 1 /\
  safe_map (fst (PutIfNotEqual "b" 3 example_map)) !! "b" = Some 3.
Proof.
  pose proof (PutIfEqual_PutIfNotEqual_effect example_map "b" 2)
    as (_ & Hequal & _).
  pose proof (PutIfEqual_PutIfNotEqual_effect example_map "b" 3)
    as (_ & _ & _ & Hstored & _).
  split; [now apply Hequal | exact Hstored].
Defined.

Lemma MultiPut_all_or_nothing_witness :
  MultiPut ["a"; "c"] [1] example_map = (example_map, -1) /\
  safe_map (fst (MultiPut ["a"; "c"] [1; 3] example_map)) !! "c" = Some 3 /\
  safe_map (fst (MultiPut ["a"; "c"] [1; 3] example_map)) !! "b" = Some 2.
Proof.
  pose proof (MultiPut_all_or_nothing example_map ["a"; "c"] [1])
    as (Hrefused & _).
  pose proof (MultiPut_all_or_nothing example_map ["a"; "c"] [1; 3])
    as (_ & Hstored).
  destruct (Hstored eq_refl ltac:(discriminate)) as (_ & Hlisted & Hothers).
  split; [apply Hrefused; left; cbn; lia|]. split.
  - assert (Hnd : NoDup ["a"; "c"]).
    { apply NoDup_cons. split; [|apply NoDup_singleton].
      intros Hin. apply list_elem_of_singleton in Hin. discriminate. }
    apply (Hlisted Hnd 1%nat); reflexivity.
  - rewrite Hothers; [reflexivity|].
    intros Hin. apply elem_of_cons in Hin as [Hin|Hin]; [discriminate|].
    apply list_elem_of_singleton in Hin. discriminate.
Defined.

Lemma Size_MemorySize_accounting_witness :
  Size (fst (Put "a" 1 example_map)) = 2 /\
  MemorySize (fun _ => 8) (fst (Put "a" 1 example_map)) = 16.
Proof.
  pose proof (Size_MemorySize_accounting (fun _ => 8) example_map "a" 1
                eq_refl eq_refl) as (Hsize & Hmem & _).
  split; [exact Hsize | exact Hmem].
Defined.

End SafeMapSpec.

(** ** coordinator_service.cc *)

Module CoordinatorServiceSpec.

Import CoordinatorService.

(** C9: a successful [UpdateGCSafePoint] should report the resulting global
    safe point; the handler stores it in [new_safe_point] and then stores the
    resolve-lock safe point in the same field, so the response carries the
    latter.  A coordinator whose global safe point is 100 and whose
    resolve-lock safe point is 0 answers 0. *)
Theorem DoUpdateGCSafePoint_new_safe_point :
  (forall Redirect U Write request response,
      let r :=
        U (safe_point request) (gc_flag request) (tenant_safe_points request)
          (resolve_lock_safe_point request)
          (tenant_resolve_lock_safe_points request) in
      let response' := DoUpdateGCSafePoint true Redirect U Write request response in
      if ok (ret r)
      then new_safe_point response' = new_resolve_lock_safe_point r /\
           gc_stop response' = out_gc_stop r
      else new_safe_point response' = new_safe_point response) /\
  new_safe_point
    (DoUpdateGCSafePoint true (fun r => r)
       (fun _ _ _ _ _ => mkResult Status_OK 100 false 0 0) Status_OK
       (mkRequest 100 0 ∅ 0 ∅) (mkResponse None 0 false None)) = 0.
Proof.
  split; [|reflexivity].
  intros Redirect U Write request response r response'.
  subst response'. unfold DoUpdateGCSafePoint. simpl. fold r.
  destruct (ok (ret r)); simpl; [|reflexivity].
  destruct (meta_increment_size r =? 0); [easy|].
  destruct (ok Write); easy.
Qed.

(** *** CreateIds and CreateRegionId *)

Section CreateIds.

Variable MetaIncrement : Type.
Variable ByteSizeLong : MetaIncrement -> Z.
Variable RedirectIds : CreateIdsResponse -> CreateIdsResponse.
Variable RedirectRegionId : CreateRegionIdResponse -> CreateRegionIdResponse.
Variable CreateIds : IdEpochType -> Z -> Status * list Z * MetaIncrement.
Variable CreateRegionId : Z -> Status * list Z * MetaIncrement.
Variable raft_engine_Write : MetaIncrement -> Status.

(** The types [DoCreateIds] accepts. *)
Definition id_epoch_type_accepted (t : IdEpochType) : bool :=
  match t with ID_other _ => false | _ => true end.

(** On the leader [DoCreateIds] reports the new ids only after their
    increment was written: a count that is not positive or another epoch
    type is answered with [EILLEGAL_PARAMTETERS] and nothing is written; a
    failure of [CreateIds] or of the write is the error of the response,
    which then carries no new id. *)
Theorem DoCreateIds_reports_written_ids request response :
  let r := DoCreateIds MetaIncrement true RedirectIds CreateIds raft_engine_Write
             request response in
  let created := CreateIds (id_epoch_type request) (ids_count request) in
  let st := fst (fst created) in
  let new_ids := snd (fst created) in
  let meta_increment := snd created in
  if (0 <? ids_count request) && id_epoch_type_accepted (id_epoch_type request)
  then
    if ok st
    then
      snd r = [meta_increment] /\
      if ok (raft_engine_Write meta_increment)
      then fst r = mkCreateIdsResponse (ids_error response) (ids response ++ new_ids)
      else
        fst r
        = mkCreateIdsResponse
            (Some (mkError (error_code (raft_engine_Write meta_increment))
                     (error_str (raft_engine_Write meta_increment))))
            (ids response)
    else
      r = (mkCreateIdsResponse (Some (mkError (error_code st) (error_str st)))
             (ids response), [])
  else
    snd r = [] /\ ids (fst r) = ids response /\
    errcode <$> ids_error (fst r) = Some EILLEGAL_PARAMTETERS.
Proof.
  intros r created st new_ids meta_increment.
  subst r st new_ids meta_increment. unfold DoCreateIds. cbn [negb].
  destruct (Z.leb_spec (ids_count request) 0) as [Hle | Hlt].
  - assert (H0 : (0 <? ids_count request) = false) by (apply Z.ltb_ge; lia).
    rewrite H0. cbn. auto.
  - assert (H0 : (0 <? ids_count request) = true) by (apply Z.ltb_lt; lia).
    rewrite H0. cbn [andb].
    destruct (id_epoch_type request) eqn:Htype; cbn [id_epoch_type_accepted];
      try (rewrite ?bool_decide_eq_true_2 by reflexivity;
           rewrite ?bool_decide_eq_false_2 by discriminate;
           cbn [negb andb]; subst created;
           destruct (CreateIds _ (ids_count request)) as [[st new_ids] mi];
           cbn [fst snd]; destruct (ok st); cbn [negb]; [|reflexivity];
           destruct (ok (raft_engine_Write mi)); cbn [negb fst snd]; now auto).
    rewrite !bool_decide_eq_false_2 by discriminate. cbn. auto.
Qed.

(** On the leader [DoCreateRegionId] answers a count that is not positive
    or above [FLAGS_max_create_id_count] with [EILLEGAL_PARAMTETERS] and
    writes nothing.  Otherwise it writes every increment that is not empty,
    also after a failure of [CreateRegionId], and it adds the region ids
    before the write: when the write fails the response carries the ids and
    the error of the write. *)
Theorem DoCreateRegionId_reports_before_write request response :
  let r := DoCreateRegionId MetaIncrement ByteSizeLong true RedirectRegionId
             CreateRegionId raft_engine_Write request response in
  let created := CreateRegionId (region_count request) in
  let st := fst (fst created) in
  let new_ids := snd (fst created) in
  let meta_increment := snd created in
  if (0 <? region_count request) && (region_count request <=? FLAGS_max_create_id_count)
  then
    region_ids (fst r) = region_ids response ++ (if ok st then new_ids else []) /\
    snd r = (if ByteSizeLong meta_increment =? 0 then [] else [meta_increment]) /\
    region_error (fst r)
    = if negb (ByteSizeLong meta_increment =? 0)
         && negb (ok (raft_engine_Write meta_increment))
      then Some (mkError (error_code (raft_engine_Write meta_increment))
                   (error_str (raft_engine_Write meta_increment)))
      else if ok st then region_error response
      else Some (mkError (error_code st) (error_str st))
  else
    snd r = [] /\ region_ids (fst r) = region_ids response /\
    errcode <$> region_error (fst r) = Some EILLEGAL_PARAMTETERS.
Proof.
  intros r created st new_ids meta_increment.
  subst r st new_ids meta_increment. unfold DoCreateRegionId. cbn [negb].
  destruct (Z.leb_spec (region_count request) 0) as [Hle | Hlt].
  - assert (H0 : (0 <? region_count request) = false) by (apply Z.ltb_ge; lia).
    rewrite H0. cbn. auto.
  - assert (H0 : (0 <? region_count request) = true) by (apply Z.ltb_lt; lia).
    rewrite H0. cbn [andb].
    destruct (Z.ltb_spec FLAGS_max_create_id_count (region_count request))
      as [Hbig | Hsmall].
    + assert (H1 : (region_count request <=? FLAGS_max_create_id_count) = false)
        by (apply Z.leb_gt; lia).
      rewrite H1. cbn. auto.
    + assert (H1 : (region_count request <=? FLAGS_max_create_id_count) = true)
        by (apply Z.leb_le; lia).
      rewrite H1. subst created.
      destruct (CreateRegionId (region_count request)) as [[st new_ids] mi].
      cbn [fst snd].
      destruct (ByteSizeLong mi =? 0); cbn [negb andb fst snd].
      * destruct (ok st); cbn; rewrite ?app_nil_r; auto.
      * destruct (ok (raft_engine_Write mi)); cbn [negb fst snd region_ids region_error];
          destruct (ok st); cbn; rewrite ?app_nil_r; auto.
Qed.

End CreateIds.

End CoordinatorServiceSpec.

(** ** bdb_raw_engine.cc *)

Module BdbSpec.

Import Bdb.

(** The records used in the examples: three keys of the column family
    ["default"] (prefix ['0']). *)
Definition db_abx : Db := [("0a", "1"); ("0b", "2"); ("0x", "3")].

(** A heap on which every allocation succeeds. *)
Definition malloc_ok (n : Z) : bool := true.

(** *** The engine without faults *)

Lemma engine_call_no_fault {A : Type} (normal : M A) (failed : Z -> A) d :
  engine_call normal failed (mkWorld d []) = normal (mkWorld d []).
Proof. reflexivity. Qed.

Lemma engine_call_throw {A : Type} (normal : M A) (failed : Z -> A) d e fs :
  engine_call normal failed (mkWorld d (FaultThrow e :: fs))
  = (Throw e, mkWorld d fs).
Proof. reflexivity. Qed.

(** *** Reader::KvScan *)

(** C4, as the code has it: an empty start or end key is rejected with
    [EKEY_EMPTY]; with both keys non-empty and [start_key >= end_key] (equal
    or inverted) the scan returns OK and adds nothing to [kvs]; in neither
    case is the engine touched. *)
Theorem KvScan_bounds cf_name snapshot a b kvs w :
  (empty a = true ->
   KvScan_snapshot cf_name snapshot a b kvs w
   = (Val (st_EKEY_EMPTY "Start key is empty", kvs), w)) /\
  (empty a = false -> empty b = true ->
   KvScan_snapshot cf_name snapshot a b kvs w
   = (Val (st_EKEY_EMPTY "End key is empty", kvs), w)) /\
  (empty a = false -> empty b = false -> str_ge a b = true ->
   KvScan_snapshot cf_name snapshot a b kvs w = (Val (Status_OK, kvs), w)).
Proof.
  unfold KvScan_snapshot, range_scan.
  split; [|split].
  - intros Ha. now rewrite Ha.
  - intros Ha Hb. now rewrite Ha, Hb.
  - intros Ha Hb Hge. now rewrite Ha, Hb, Hge.
Qed.

Lemma KvScan_bounds_witness :
  KvScan_snapshot "default" None "" "z" [] (mkWorld db_abx [])
  = (Val (st_EKEY_EMPTY "Start key is empty", []), mkWorld db_abx []) /\
  KvScan_snapshot "default" None "a" "" [] (mkWorld db_abx [])
  = (Val (st_EKEY_EMPTY "End key is empty", []), mkWorld db_abx []) /\
  KvScan_snapshot "default" None "x" "a" [] (mkWorld db_abx [])
  = (Val (Status_OK, []), mkWorld db_abx []).
Proof.
  split; [|split].
  - apply (proj1 (KvScan_bounds "default" None "" "z" [] (mkWorld db_abx []))).
    reflexivity.
  - apply (proj1 (proj2 (KvScan_bounds "default" None "a" "" [] (mkWorld db_abx []))));
      reflexivity.
  - apply (proj2 (proj2 (KvScan_bounds "default" None "x" "a" [] (mkWorld db_abx []))));
      reflexivity.
Defined.

(** C4 as stated asks for [RANGE_INVALID] when [a > b]: the scan of
    [["x", "a")] is not rejected. *)
Lemma KvScan_inverted_range_accepted :
  str_gt "x" "a" = true /\
  KvScan_snapshot "default" None "x" "a" [] (mkWorld db_abx [])
  = (Val (Status_OK, []), mkWorld db_abx []) /\
  ~ (exists msg kvs,
        fst (KvScan_snapshot "default" None "x" "a" [] (mkWorld db_abx []))
        = Val (mkStatus ERANGE_INVALID msg, kvs)).
Proof.
  split; [reflexivity|]. split; [reflexivity|].
  intros (msg & kvs & Heq). vm_compute in Heq. discriminate.
Qed.

(** A scan of a proper range does read the records (here all three). *)
Example KvScan_reads_range :
  KvScan "default" "a" "z" [] (mkWorld db_abx [])
  = (Val (Status_OK,
          [mkKeyValue "a" "1"; mkKeyValue "b" "2"; mkKeyValue "x" "3"]),
     mkWorld db_abx []).
Proof. vm_compute. reflexivity. Qed.

(** *** Range deletion *)

(** C3: with the compiled strategy ([BDB_BUILD_USE_BULK_DELETE]) the ranges
    of one [KvBatchDeleteRange] are deleted by transactions of their own.
    When the second range is refused, or its commit fails, the call returns
    the error and the keys of the first range are gone all the same. *)
Theorem KvBatchDeleteRange_keeps_earlier_ranges_deleted CheckRange :
  KvBatchDeleteRange CheckRange malloc_ok
    [("default", [mkRange "a" "c"; mkRange "" "z"])] (mkWorld db_abx [])
  = (Val st_range_empty, mkWorld [("0x", "3")] []) /\
  KvBatchDeleteRange CheckRange malloc_ok
    [("default", [mkRange "a" "c"; mkRange "x" "z"])]
    (mkWorld db_abx (repeat NoFault 18 ++ [FaultRet 5]))
  = (Val st_EBDB_COMMIT, mkWorld [("0x", "3")] []).
Proof. split; vm_compute; reflexivity. Qed.

(** C5: in the compiled delete-range the keys are collected by
    [GetRangeKeys] through an iterator.  A deadlock raised by the cursor is
    absorbed by [Iterator::Seek], which only marks the iterator invalid;
    [GetRangeKeys] returns OK with no keys, and the delete returns OK
    without a retry and without deleting anything.  The first equation is
    the same call on an engine that raises nothing. *)
Theorem KvDeleteRange_scan_deadlock_not_retried CheckRange :
  KvDeleteRange CheckRange malloc_ok "default" (mkRange "a" "c")
    (mkWorld db_abx [])
  = (Val Status_OK, mkWorld [("0x", "3")] []) /\
  KvDeleteRange CheckRange malloc_ok "default" (mkRange "a" "c")
    (mkWorld db_abx
       [NoFault; NoFault; NoFault; NoFault; FaultThrow DbDeadlockException])
  = (Val Status_OK, mkWorld db_abx []).
Proof. split; vm_compute; reflexivity. Qed.

(** *** The retry loop of the writers *)

(** An attempt that returns ends the loop with what it returned. *)
Lemma retry_loop_return fuel what body rc w s w' :
  body w = (Return s, w') ->
  retry_loop (S fuel) what body rc w = (Return s, w').
Proof. intros Hbody. cbn [retry_loop]. now rewrite Hbody. Qed.

(** A deadlock below the limit starts the next attempt from the world the
    failed one left, with one retry more on the count. *)
Lemma retry_loop_deadlock fuel what body rc w w' :
  body w = (Throw DbDeadlockException, w') ->
  rc < FLAGS_bdb_max_retries ->
  retry_loop (S fuel) what body rc w = retry_loop fuel what body (rc + 1) w'.
Proof.
  intros Hbody Hrc. cbn [retry_loop]. rewrite Hbody.
  apply Z.ltb_lt in Hrc. now rewrite Hrc.
Qed.

(** A deadlock at the limit gives up. *)
Lemma retry_loop_give_up fuel what body rc w w' :
  body w = (Throw DbDeadlockException, w') ->
  FLAGS_bdb_max_retries <= rc ->
  retry_loop (S fuel) what body rc w = (Return st_EBDB_DEADLOCK, w').
Proof.
  intros Hbody Hrc. cbn [retry_loop]. rewrite Hbody.
  apply Z.ltb_ge in Hrc. now rewrite Hrc.
Qed.

(** [n] attempts in a row that each end in a deadlock thrown out of the
    [try] block lead from the world [w] to the world [w']. *)
Inductive deadlocks (body : M unit) : nat -> World -> World -> Prop :=
| deadlocks_O w : deadlocks body 0 w w
| deadlocks_S n w w1 w' :
    body w = (Throw DbDeadlockException, w1) ->
    deadlocks body n w1 w' ->
    deadlocks body (S n) w w'.

Lemma deadlocks_last body n : forall w w',
  deadlocks body (S n) w w' ->
  exists w1, deadlocks body n w w1 /\ body w1 = (Throw DbDeadlockException, w').
Proof.
  induction n as [|n IH]; intros w w' Hdead; inversion Hdead; subst.
  - match goal with H : deadlocks _ 0 _ _ |- _ => inversion H; subst end.
    exists w. split; [constructor | assumption].
  - match goal with H : deadlocks _ (S n) _ _ |- _ =>
      destruct (IH _ _ H) as (w2 & Hfirst & Hlast) end.
    exists w2. split; [econstructor; eassumption | exact Hlast].
Qed.

(** Deadlocks below the limit are retried, each from the world the attempt
    before it left, and counted. *)
Lemma retry_loop_deadlocks what body n w w1 :
  deadlocks body n w w1 ->
  forall fuel rc,
    rc + Z.of_nat n <= FLAGS_bdb_max_retries ->
    retry_loop (n + fuel) what body rc w
    = retry_loop fuel what body (rc + Z.of_nat n) w1.
Proof.
  induction 1 as [w | n w w1 w' Hbody Hrest IH]; intros fuel rc Hrc.
  - cbn. now rewrite Z.add_0_r.
  - cbn [Nat.add]. rewrite (retry_loop_deadlock _ _ _ _ _ w1) by (auto; lia).
    rewrite IH by lia. f_equal. lia.
Qed.

(** Up to [FLAGS_bdb_max_retries] deadlocks are retried: the call ends with
    what the first attempt that does not deadlock returns. *)
Lemma retry_loop_retried what body n w w1 s w' :
  (n <= 30)%nat ->
  deadlocks body n w w1 ->
  body w1 = (Return s, w') ->
  retry_loop retry_fuel what body 0 w = (Return s, w').
Proof.
  intros Hn Hdead Hret.
  assert (Hfuel : retry_fuel = (n + S (31 - n))%nat).
  { unfold retry_fuel, FLAGS_bdb_max_retries. lia. }
  rewrite Hfuel, (retry_loop_deadlocks _ _ _ _ _ Hdead)
    by (unfold FLAGS_bdb_max_retries; lia).
  now apply retry_loop_return.
Qed.

(** One deadlock more and the call gives up with [EBDB_DEADLOCK]. *)
Lemma retry_loop_exhausted what body w w1 :
  deadlocks body 31 w w1 ->
  retry_loop retry_fuel what body 0 w = (Return st_EBDB_DEADLOCK, w1).
Proof.
  intros Hdead. apply deadlocks_last in Hdead as (w30 & Hdead & Hlast).
  change retry_fuel with (30 + 2)%nat.
  rewrite (retry_loop_deadlocks _ _ _ _ _ Hdead)
    by (unfold FLAGS_bdb_max_retries; lia).
  apply retry_loop_give_up; [exact Hlast | unfold FLAGS_bdb_max_retries; lia].
Qed.

(** The loop ends within its fuel when the attempts never fall through. *)
Lemma retry_loop_terminates what body :
  (forall w a, fst (body w) <> Val a) ->
  (forall w, fst (body w) <> Timeout) ->
  forall fuel rc w,
    rc <= FLAGS_bdb_max_retries ->
    FLAGS_bdb_max_retries - rc < Z.of_nat fuel ->
    fst (retry_loop fuel what body rc w) <> Timeout.
Proof.
  intros Hval Htime.
  induction fuel as [|fuel IH]; intros rc w Hrc Hfuel.
  - lia.
  - cbn [retry_loop].
    pose proof (Hval w) as Hv. pose proof (Htime w) as Ht.
    destruct (body w) as [[a | s | [| |] | |] w']; cbn in *; try discriminate.
    + exfalso. now apply (Hv a).
    + destruct (Z.ltb_spec rc FLAGS_bdb_max_retries).
      * apply IH; lia.
      * discriminate.
    + congruence.
Qed.

(** *** The bulk buffer of KvBatchDelete *)

(** The bytes a list of keys takes in a bulk buffer: the keys, two 32-bit
    words for each, and the end mark. *)
Definition bulk_bytes (raw_keys : list string) : Z :=
  fold_right (fun k acc => 8 + size k + acc) 4 raw_keys.

Lemma size_nonneg s : 0 <= size s.
Proof. unfold size. lia. Qed.

Lemma bulk_bytes_min raw_keys : 4 <= bulk_bytes raw_keys.
Proof.
  induction raw_keys as [|k ks IH]; cbn [bulk_bytes fold_right]; [lia|].
  fold (bulk_bytes ks). pose proof (size_nonneg k). lia.
Qed.

Lemma to_int32_small z : - 2 ^ 31 <= z < 2 ^ 31 -> to_int32 z = z.
Proof. intros Hz. unfold to_int32. rewrite Z.mod_small; lia. Qed.

(** As long as the [int] does not overflow, [keys_size] is the sum of the
    sizes of the keys and of a 32-bit word for each. *)
Lemma keys_size_exact raw_keys : forall acc,
  0 <= acc ->
  acc + (bulk_bytes raw_keys - 4 - 4 * Z.of_nat (length raw_keys)) < 2 ^ 31 ->
  fold_left (fun acc k => to_int32 (acc + 4 + size k)) raw_keys acc
  = acc + (bulk_bytes raw_keys - 4 - 4 * Z.of_nat (length raw_keys)).
Proof.
  induction raw_keys as [|k ks IH]; intros acc Hacc Hsum;
    cbn [fold_left bulk_bytes fold_right length] in *.
  - lia.
  - fold (bulk_bytes ks) in *. pose proof (size_nonneg k) as Hk.
    pose proof (bulk_bytes_min ks) as Hmin.
    assert (Hrest : 0 <= bulk_bytes ks - 4 - 4 * Z.of_nat (length ks)).
    { clear -ks. induction ks as [|k' ks' IH']; cbn [bulk_bytes fold_right length].
      - lia.
      - fold (bulk_bytes ks'). pose proof (size_nonneg k'). lia. }
    rewrite to_int32_small by lia. rewrite IH by lia. lia.
Qed.

Lemma append_all_fits ulen raw_keys : forall off n,
  0 <= n ->
  off + 8 * n + bulk_bytes raw_keys <= ulen ->
  append_all ulen off n raw_keys = true.
Proof.
  induction raw_keys as [|k ks IH]; intros off n Hn Hfit; [reflexivity|].
  cbn [append_all bulk_bytes fold_right] in *. fold (bulk_bytes ks) in *.
  pose proof (bulk_bytes_min ks) as Hmin.
  assert (Hk : (ulen - 4 - 8 * n - 8 <? off + size k) = false)
    by (apply Z.ltb_ge; lia).
  rewrite Hk. apply IH; lia.
Qed.

(** Keys that take at most 2 GiB in the bulk buffer get a buffer that
    holds them and whose size fits a [uint32_t]. *)
Lemma bulk_buffer_fits raw_keys :
  bulk_bytes raw_keys <= 2 ^ 31 ->
  keys_buf_size raw_keys <= UINT32_MAX /\
  append_all (keys_buf_size raw_keys) 0 0 raw_keys = true.
Proof.
  intros Hbytes. pose proof (bulk_bytes_min raw_keys) as Hmin.
  assert (Hlen : 0 <= Z.of_nat (length raw_keys)) by lia.
  assert (Hwords : 8 * Z.of_nat (length raw_keys) <= bulk_bytes raw_keys - 4).
  { clear. induction raw_keys as [|k ks IH]; cbn [bulk_bytes fold_right length].
    - lia.
    - fold (bulk_bytes ks). pose proof (size_nonneg k). lia. }
  unfold keys_buf_size.
  rewrite (keys_size_exact raw_keys 0) by lia.
  replace (4 * Z.of_nat (length raw_keys)
           + (0 + (bulk_bytes raw_keys - 4 - 4 * Z.of_nat (length raw_keys))) + 4)
    with (bulk_bytes raw_keys) by lia.
  assert (Hb : to_uint64 (bulk_bytes raw_keys) = bulk_bytes raw_keys)
    by (unfold to_uint64; apply Z.mod_small; lia).
  rewrite Hb.
  pose proof (Z.mod_pos_bound (bulk_bytes raw_keys) 1024 ltac:(lia)) as Hmod.
  assert (Hr : to_uint64 (bulk_bytes raw_keys
                          + (1024 - bulk_bytes raw_keys mod 1024))
               = bulk_bytes raw_keys + (1024 - bulk_bytes raw_keys mod 1024))
    by (unfold to_uint64; apply Z.mod_small; lia).
  rewrite Hr. unfold UINT32_MAX, DB_MAXIMUM_PAGESIZE.
  destruct (Z.ltb_spec (bulk_bytes raw_keys
                        + (1024 - bulk_bytes raw_keys mod 1024)) (64 * 1024)).
  - split; [lia|]. apply append_all_fits; lia.
  - split; [lia|]. apply append_all_fits; lia.
Qed.

(** [KvBatchDelete] encodes its keys, sizes, allocates and fills the bulk
    buffer before the loop; with a known column family, once this went
    well, what is left is the loop. *)
Lemma encode_keys_known cf_name cf_id keys w :
  GetCfId cf_name = Some cf_id ->
  encode_keys cf_name keys w = (Val (List.map (EncodeKey_id cf_id) keys), w).
Proof.
  intros Hcf. induction keys as [|k keys IH]; [reflexivity|].
  cbn [encode_keys List.map]. unfold bind, EncodeKey. rewrite Hcf.
  cbn [ret]. now rewrite IH.
Qed.

Lemma KvBatchDelete_accepted malloc cf_name cf_id keys w :
  keys <> [] ->
  GetCfId cf_name = Some cf_id ->
  keys_buf_size (List.map (EncodeKey_id cf_id) keys) <= UINT32_MAX ->
  malloc (keys_buf_size (List.map (EncodeKey_id cf_id) keys)) = true ->
  append_all (keys_buf_size (List.map (EncodeKey_id cf_id) keys)) 0 0
    (List.map (EncodeKey_id cf_id) keys) = true ->
  KvBatchDelete malloc cf_name keys w
  = call (_ <- retry_loop retry_fuel "db delete failed"
                 (KvBatchDelete_try (List.map (EncodeKey_id cf_id) keys)) 0 ;;
          return_ st_EBDB_UNKNOW) w.
Proof.
  intros Hne Hcf Hsize Hmalloc Happend. unfold KvBatchDelete.
  destruct keys as [|k keys]; [contradiction|].
  unfold call. unfold bind at 1.
  rewrite (encode_keys_known cf_name cf_id) by assumption.
  apply Z.ltb_ge in Hsize. now rewrite Hsize, Hmalloc, Happend.
Qed.

(** *** Transactions publish on commit only *)

(** Code that leaves the committed records as they are. *)
Definition db_kept {A : Type} (m : M A) : Prop :=
  forall w r w', m w = (r, w') -> db w' = db w.

(** Code that either leaves them as they are or returns OK. *)
Definition commits_or_keeps {A : Type} (m : M A) : Prop :=
  forall w r w', m w = (r, w') -> db w' = db w \/ r = Return Status_OK.

Lemma db_kept_ret {A : Type} (a : A) : db_kept (ret a).
Proof. intros w r w' Heq. now inversion Heq. Qed.

Lemma db_kept_return {A : Type} s : db_kept (@return_ A s).
Proof. intros w r w' Heq. now inversion Heq. Qed.

Lemma db_kept_fatal {A : Type} : db_kept (@fatal A).
Proof. intros w r w' Heq. now inversion Heq. Qed.

Lemma db_kept_timeout {A : Type} : db_kept (@timeout A).
Proof. intros w r w' Heq. now inversion Heq. Qed.

Lemma db_kept_bind {A B : Type} (m : M A) (k : A -> M B) :
  db_kept m -> (forall a, db_kept (k a)) -> db_kept (bind m k).
Proof.
  intros Hm Hk w r w' Heq. unfold bind in Heq.
  destruct (m w) as [[a | s | e | |] w1] eqn:Hmw;
    try (inversion Heq; subst; now apply (Hm _ _ _ Hmw)).
  rewrite (Hk a _ _ _ Heq). now apply (Hm _ _ _ Hmw).
Qed.

Lemma db_kept_next_fault : db_kept next_fault.
Proof.
  intros w r w' Heq. unfold next_fault in Heq.
  destruct (faults w); now inversion Heq.
Qed.

Lemma db_kept_engine_call {A : Type} (normal : M A) failed :
  db_kept normal -> db_kept (engine_call normal failed).
Proof.
  intros Hnormal. unfold engine_call.
  apply db_kept_bind; [apply db_kept_next_fault|].
  intros [|r|e]; [assumption | | now intros w r w' Heq; inversion Heq].
  destruct (r =? 0); [assumption | apply db_kept_ret].
Qed.

Lemma db_kept_if {A : Type} (b : bool) (m1 m2 : M A) :
  db_kept m1 -> db_kept m2 -> db_kept (if b then m1 else m2).
Proof. now destruct b. Qed.

Lemma db_kept_txn_begin : db_kept txn_begin.
Proof.
  apply db_kept_engine_call. intros w r w' Heq. now inversion Heq.
Qed.

Lemma db_kept_EncodeKey cf_name k : db_kept (EncodeKey cf_name k).
Proof.
  unfold EncodeKey. destruct (GetCfId cf_name);
    [apply db_kept_ret | apply db_kept_fatal].
Qed.

Create HintDb db_kept.

#[local] Hint Resolve db_kept_ret db_kept_return db_kept_fatal db_kept_timeout
  db_kept_txn_begin db_kept_EncodeKey : db_kept.

Ltac db_kept_step :=
  first
    [ solve [auto with db_kept]
    | apply db_kept_engine_call
    | apply db_kept_if
    | apply db_kept_bind; [|intros ?] ].

Lemma db_kept_db_put txn k v : db_kept (db_put txn k v).
Proof. unfold db_put. repeat db_kept_step. Qed.

Lemma db_kept_db_del txn k : db_kept (db_del txn k).
Proof. unfold db_del. repeat db_kept_step. Qed.

Lemma db_kept_db_del_multiple txn ks : db_kept (db_del_multiple txn ks).
Proof. unfold db_del_multiple. repeat db_kept_step. Qed.

Lemma db_kept_db_cursor : db_kept db_cursor.
Proof. unfold db_cursor. repeat db_kept_step. Qed.

Lemma db_kept_dbc_get_set_range view k : db_kept (dbc_get_set_range view k).
Proof. unfold dbc_get_set_range. repeat db_kept_step. Qed.

Lemma db_kept_dbc_get_next pos : db_kept (dbc_get_next pos).
Proof. unfold dbc_get_next. repeat db_kept_step. Qed.

Lemma db_kept_dbc_del txn pos : db_kept (dbc_del txn pos).
Proof. unfold dbc_del. repeat db_kept_step. Qed.

#[local] Hint Resolve db_kept_db_put db_kept_db_del db_kept_db_del_multiple
  db_kept_db_cursor db_kept_dbc_get_set_range db_kept_dbc_get_next
  db_kept_dbc_del : db_kept.

Lemma db_kept_put_all cf_name kvs st : db_kept (put_all cf_name kvs st).
Proof.
  revert st. induction kvs as [|kv kvs IH]; intros st; cbn [put_all];
    repeat db_kept_step.
Qed.

Lemma db_kept_del_all cf_name keys st : db_kept (del_all cf_name keys st).
Proof.
  revert st. induction keys as [|k keys IH]; intros st; cbn [del_all];
    repeat db_kept_step.
Qed.

Lemma db_kept_put_all_cf puts st : db_kept (put_all_cf puts st).
Proof.
  revert st. induction puts as [|[cf_name kvs] puts IH]; intros st;
    cbn [put_all_cf]; [auto with db_kept|].
  destruct kvs; [auto with db_kept|].
  apply db_kept_bind; [apply db_kept_put_all | intros; apply IH].
Qed.

Lemma db_kept_del_all_cf dels st : db_kept (del_all_cf dels st).
Proof.
  revert st. induction dels as [|[cf_name keys] dels IH]; intros st;
    cbn [del_all_cf]; [auto with db_kept|].
  destruct keys; [auto with db_kept|].
  apply db_kept_bind; [apply db_kept_del_all | intros; apply IH].
Qed.

Lemma db_kept_cursor_del_loop fuel store_end_key pos txn :
  db_kept (cursor_del_loop fuel store_end_key pos txn).
Proof.
  revert pos txn. induction fuel as [|fuel IH]; intros pos txn;
    cbn [cursor_del_loop]; repeat db_kept_step.
Qed.

#[local] Hint Resolve db_kept_put_all db_kept_del_all db_kept_cursor_del_loop
  : db_kept.

Lemma db_kept_DeleteRangeByCursor CheckRange cf_name range txn :
  db_kept (DeleteRangeByCursor CheckRange cf_name range txn).
Proof. unfold DeleteRangeByCursor. repeat db_kept_step. Qed.

#[local] Hint Resolve db_kept_DeleteRangeByCursor : db_kept.

Lemma db_kept_normal_ranges CheckRange cf_name ranges txn :
  db_kept (normal_ranges CheckRange cf_name ranges txn).
Proof.
  revert txn. induction ranges as [|range ranges IH]; intros txn;
    cbn [normal_ranges]; repeat db_kept_step.
Qed.

Lemma db_kept_normal_cfs CheckRange range_with_cfs txn :
  db_kept (normal_cfs CheckRange range_with_cfs txn).
Proof.
  revert txn. induction range_with_cfs as [|[cf_name ranges] rest IH];
    intros txn; cbn [normal_cfs]; [auto with db_kept|].
  apply db_kept_bind; [apply db_kept_normal_ranges | intros; apply IH].
Qed.

Lemma commits_or_keeps_kept {A : Type} (m : M A) :
  db_kept m -> commits_or_keeps m.
Proof. intros Hm w r w' Heq. left. now apply (Hm _ _ _ Heq). Qed.

Lemma commits_or_keeps_bind {A B : Type} (m : M A) (k : A -> M B) :
  db_kept m -> (forall a, commits_or_keeps (k a)) -> commits_or_keeps (bind m k).
Proof.
  intros Hm Hk w r w' Heq. unfold bind in Heq.
  destruct (m w) as [[a | s | e | |] w1] eqn:Hmw;
    try (inversion Heq; subst; left; now apply (Hm _ _ _ Hmw)).
  destruct (Hk a _ _ _ Heq) as [Hdb | Hr]; [left | now right].
  rewrite Hdb. now apply (Hm _ _ _ Hmw).
Qed.

(** The commit blocks: the records change only when [commit] answers 0, and
    then the block returns OK. *)
Lemma commits_or_keeps_commit (on_error : Z -> M Z) txn :
  (forall r, db_kept (on_error r)) ->
  commits_or_keeps
    (r <- catch_commit
            (r <- txn_commit txn ;;
             if r =? 0 then return_ Status_OK else on_error r) ;;
     if negb (r =? 0) then return_ st_EBDB_COMMIT else ret tt).
Proof.
  intros Herr [d fs] r w' Heq.
  destruct fs as [|[|c|e] fs];
    cbv [bind catch_commit txn_commit engine_call next_fault ret return_ throw
         faults db] in Heq; cbn in Heq.
  - inversion Heq; subst. now right.
  - inversion Heq; subst. now right.
  - destruct (c =? 0) eqn:Hc; cbn in Heq.
    + inversion Heq; subst. now right.
    + rewrite Hc in Heq. left.
      destruct (on_error c (mkWorld d fs)) as [[a | s | x | |] w1] eqn:Hon;
        pose proof (Herr c _ _ _ Hon) as Hkept; cbn in Hkept, Heq.
      * destruct (negb (a =? 0)); injection Heq as Hr Hw; rewrite <- Hw; exact Hkept.
      * injection Heq as Hr Hw; rewrite <- Hw; exact Hkept.
      * destruct (is_DbException x); cbn in Heq; injection Heq as Hr Hw; rewrite <- Hw; exact Hkept.
      * injection Heq as Hr Hw; rewrite <- Hw; exact Hkept.
      * injection Heq as Hr Hw; rewrite <- Hw; exact Hkept.
  - left. destruct (is_DbException e); cbn in Heq; inversion Heq; subst; reflexivity.
Qed.

Lemma commits_or_keeps_commit_block txn : commits_or_keeps (commit_block txn).
Proof. apply commits_or_keeps_commit. intros r. apply db_kept_ret. Qed.

(** The loop keeps the property of its attempts. *)
Lemma commits_or_keeps_retry_loop what body :
  commits_or_keeps body ->
  forall fuel rc, commits_or_keeps (retry_loop fuel what body rc).
Proof.
  intros Hbody. induction fuel as [|fuel IH]; intros rc w r w' Heq.
  - inversion Heq. now left.
  - cbn [retry_loop] in Heq.
    destruct (body w) as [[a | s | [| |] | |] w1] eqn:Hbw;
      pose proof (Hbody _ _ _ Hbw) as [Hdb | Hr]; try discriminate.
    + destruct (IH _ _ _ _ Heq) as [Hdb' | Hr']; [left; congruence | now right].
    + inversion Heq; subst. now left.
    + inversion Heq; subst. now right.
    + destruct (rc <? FLAGS_bdb_max_retries).
      * destruct (IH _ _ _ _ Heq) as [Hdb' | Hr']; [left; congruence | now right].
      * inversion Heq; subst. now left.
    + inversion Heq; subst. now left.
    + inversion Heq; subst. now left.
    + inversion Heq; subst. now left.
    + inversion Heq; subst. now left.
Qed.

Lemma KvBatchDeleteRangeNormal_try_commits_or_keeps CheckRange range_with_cfs :
  commits_or_keeps (KvBatchDeleteRangeNormal_try CheckRange range_with_cfs).
Proof.
  unfold KvBatchDeleteRangeNormal_try.
  apply commits_or_keeps_bind; [apply db_kept_txn_begin|]. intros b.
  destruct (negb (fst b =? 0));
    [apply commits_or_keeps_kept, db_kept_return|].
  apply commits_or_keeps_bind; [apply db_kept_normal_cfs|].
  intros txn. apply commits_or_keeps_commit_block.
Qed.

(** The cursor walk is all or nothing on failure: whenever
    [KvBatchDeleteRangeNormal] returns a status that is not OK, the committed
    records are those it started with. *)
Theorem KvBatchDeleteRangeNormal_failure_keeps_db CheckRange range_with_cfs w s w' :
  KvBatchDeleteRangeNormal CheckRange range_with_cfs w = (Val s, w') ->
  s <> Status_OK -> db w' = db w.
Proof.
  intros Hcall Hs. unfold KvBatchDeleteRangeNormal, call, bind in Hcall.
  destruct (retry_loop retry_fuel "db delete failed"
              (KvBatchDeleteRangeNormal_try CheckRange range_with_cfs) 0 w)
    as [[a | s0 | e | |] w1] eqn:Hloop;
    pose proof (commits_or_keeps_retry_loop _ _
                  (KvBatchDeleteRangeNormal_try_commits_or_keeps CheckRange
                     range_with_cfs) _ _ _ _ _ Hloop) as [Hdb | Hr];
    cbn in Hcall; inversion Hcall; subst; try assumption; try discriminate.
  inversion Hr; subst. contradiction.
Qed.

Lemma KvBatchDeleteRangeNormal_failure_keeps_db_witness :
  db (snd (KvBatchDeleteRangeNormal (fun _ => Status_OK)
             [("default", [mkRange "a" "c"; mkRange "x" "z"])]
             (mkWorld db_abx (repeat NoFault 11 ++ [FaultRet 5]))))
  = db_abx.
Proof.
  apply (KvBatchDeleteRangeNormal_failure_keeps_db (fun _ => Status_OK)
           [("default", [mkRange "a" "c"; mkRange "x" "z"])]
           (mkWorld db_abx (repeat NoFault 11 ++ [FaultRet 5]))
           st_EBDB_COMMIT);
    [vm_compute; reflexivity | discriminate].
Defined.

(** The inputs on which the compiled strategy leaves the first range
    deleted, given to the cursor walk: a refused second range, or a failed
    commit (here the twelfth engine call), leaves all three records; without
    a failure both ranges are deleted. *)
Example KvBatchDeleteRangeNormal_all_or_nothing :
  KvBatchDeleteRangeNormal (fun _ => Status_OK)
    [("default", [mkRange "a" "c"; mkRange "" "z"])] (mkWorld db_abx [])
  = (Val st_range_empty, mkWorld db_abx []) /\
  KvBatchDeleteRangeNormal (fun _ => Status_OK)
    [("default", [mkRange "a" "c"; mkRange "x" "z"])]
    (mkWorld db_abx (repeat NoFault 11 ++ [FaultRet 5]))
  = (Val st_EBDB_COMMIT, mkWorld db_abx []) /\
  KvBatchDeleteRangeNormal (fun _ => Status_OK)
    [("default", [mkRange "a" "c"; mkRange "x" "z"])] (mkWorld db_abx [])
  = (Val Status_OK, mkWorld [] []).
Proof. repeat split; vm_compute; reflexivity. Qed.

(** *** A failed write changes nothing *)

Lemma commits_or_keeps_then {A B : Type} (m : M A) (k : A -> M B) :
  commits_or_keeps m -> (forall a, db_kept (k a)) -> commits_or_keeps (bind m k).
Proof.
  intros Hm Hk w r w' Heq. unfold bind in Heq.
  destruct (m w) as [[a | s | e | |] w1] eqn:Hmw;
    pose proof (Hm _ _ _ Hmw) as [Hdb | Hr];
    try (inversion Heq; subst; now left); try discriminate.
  - left. rewrite (Hk a _ _ _ Heq). exact Hdb.
  - inversion Heq; subst. inversion Hr; subst. now right.
Qed.

Lemma commits_or_keeps_if {A : Type} (b : bool) (m1 m2 : M A) :
  commits_or_keeps m1 -> commits_or_keeps m2 ->
  commits_or_keeps (if b then m1 else m2).
Proof. now destruct b. Qed.

(** A writer: its arguments are checked, then its attempts are repeated. *)
Lemma commits_or_keeps_writer what body (after : Status) :
  commits_or_keeps body ->
  commits_or_keeps
    ((_ <- retry_loop retry_fuel what body 0 ;; return_ after) : M Status).
Proof.
  intros Hbody. apply commits_or_keeps_then.
  - now apply commits_or_keeps_retry_loop.
  - intros _. apply db_kept_return.
Qed.

(** What a caller sees of code that commits or keeps. *)
Definition failure_keeps_db (op : M Status) : Prop :=
  forall w s w', op w = (Val s, w') -> s <> Status_OK -> db w' = db w.

Lemma call_failure_keeps_db (m : M Status) :
  commits_or_keeps m -> failure_keeps_db (call m).
Proof.
  intros Hm w s w' Hcall Hs. unfold call in Hcall.
  destruct (m w) as [[a | s0 | e | |] w1] eqn:Hmw;
    pose proof (Hm _ _ _ Hmw) as [Hdb | Hr];
    inversion Hcall; subst; try assumption; try discriminate.
  inversion Hr; subst. contradiction.
Qed.

Lemma KvPut_try_commits_or_keeps cf_name kv :
  commits_or_keeps (KvPut_try cf_name kv).
Proof.
  unfold KvPut_try.
  apply commits_or_keeps_bind; [apply db_kept_txn_begin|]. intros b.
  apply commits_or_keeps_if; [apply commits_or_keeps_kept, db_kept_return|].
  apply commits_or_keeps_bind; [apply db_kept_EncodeKey|]. intros store_key.
  apply commits_or_keeps_bind; [apply db_kept_db_put|]. intros p.
  apply commits_or_keeps_if; [apply commits_or_keeps_kept, db_kept_return|].
  apply (commits_or_keeps_commit
           (fun _ => return_ (st_EINTERNAL "Internal txn commit error."))).
  intros r. apply db_kept_return.
Qed.

Lemma KvBatchPutAndDelete_try_commits_or_keeps cf_name kvs_to_put keys_to_delete :
  commits_or_keeps (KvBatchPutAndDelete_try cf_name kvs_to_put keys_to_delete).
Proof.
  unfold KvBatchPutAndDelete_try.
  apply commits_or_keeps_bind; [apply db_kept_txn_begin|]. intros b.
  apply commits_or_keeps_if; [apply commits_or_keeps_kept, db_kept_return|].
  apply commits_or_keeps_bind; [apply db_kept_put_all|]. intros p.
  apply commits_or_keeps_bind; [apply db_kept_del_all|]. intros d.
  apply commits_or_keeps_commit_block.
Qed.

Lemma KvBatchPutAndDelete_cf_try_commits_or_keeps puts dels :
  commits_or_keeps (KvBatchPutAndDelete_cf_try puts dels).
Proof.
  unfold KvBatchPutAndDelete_cf_try.
  apply commits_or_keeps_bind; [apply db_kept_txn_begin|]. intros b.
  apply commits_or_keeps_if; [apply commits_or_keeps_kept, db_kept_return|].
  apply commits_or_keeps_bind; [apply db_kept_put_all_cf|]. intros p.
  apply commits_or_keeps_bind; [apply db_kept_del_all_cf|]. intros d.
  apply commits_or_keeps_commit_block.
Qed.

Lemma KvDelete_try_commits_or_keeps cf_name k :
  commits_or_keeps (KvDelete_try cf_name k).
Proof.
  unfold KvDelete_try.
  apply commits_or_keeps_bind; [apply db_kept_txn_begin|]. intros b.
  apply commits_or_keeps_if; [apply commits_or_keeps_kept, db_kept_return|].
  apply commits_or_keeps_bind; [apply db_kept_EncodeKey|]. intros store_key.
  apply commits_or_keeps_bind; [apply db_kept_db_del|]. intros d.
  apply commits_or_keeps_if; [apply commits_or_keeps_kept, db_kept_return|].
  apply commits_or_keeps_commit_block.
Qed.

Lemma KvBatchDelete_try_commits_or_keeps raw_keys :
  commits_or_keeps (KvBatchDelete_try raw_keys).
Proof.
  unfold KvBatchDelete_try.
  apply commits_or_keeps_bind; [apply db_kept_txn_begin|]. intros b.
  apply commits_or_keeps_if; [apply commits_or_keeps_kept, db_kept_return|].
  apply commits_or_keeps_bind; [apply db_kept_db_del_multiple|]. intros d.
  apply commits_or_keeps_if; [apply commits_or_keeps_kept, db_kept_return|].
  apply (commits_or_keeps_commit (fun _ => return_ st_EBDB_COMMIT)).
  intros r. apply db_kept_return.
Qed.

Lemma db_kept_encode_keys cf_name keys : db_kept (encode_keys cf_name keys).
Proof.
  induction keys as [|k keys IH]; cbn [encode_keys]; [apply db_kept_ret|].
  apply db_kept_bind; [apply db_kept_EncodeKey|]. intros raw.
  apply db_kept_bind; [exact IH|]. intros raws. apply db_kept_ret.
Qed.

(** The writers that work in one transaction are all or nothing: whenever
    [KvPut], [KvBatchPutAndDelete] (either one), [KvDelete] or
    [KvBatchDelete] returns a status that is not OK, whatever the engine
    did, the committed records are those the call started with. *)
Theorem writers_failure_keeps_db :
  (forall cf_name kv, failure_keeps_db (KvPut cf_name kv)) /\
  (forall cf_name kvs_to_put keys_to_delete,
      failure_keeps_db (KvBatchPutAndDelete cf_name kvs_to_put keys_to_delete)) /\
  (forall kv_puts_with_cf kv_deletes_with_cf,
      failure_keeps_db (KvBatchPutAndDelete_cf kv_puts_with_cf kv_deletes_with_cf)) /\
  (forall cf_name k, failure_keeps_db (KvDelete cf_name k)) /\
  (forall malloc cf_name keys,
      failure_keeps_db (KvBatchDelete malloc cf_name keys)).
Proof.
  repeat apply conj; intros; apply call_failure_keeps_db.
  - apply commits_or_keeps_if; [apply commits_or_keeps_kept, db_kept_return|].
    apply commits_or_keeps_writer, KvPut_try_commits_or_keeps.
  - apply commits_or_keeps_if; [apply commits_or_keeps_kept, db_kept_return|].
    apply commits_or_keeps_writer, KvBatchPutAndDelete_try_commits_or_keeps.
  - apply commits_or_keeps_writer, KvBatchPutAndDelete_cf_try_commits_or_keeps.
  - apply commits_or_keeps_if; [apply commits_or_keeps_kept, db_kept_return|].
    apply commits_or_keeps_writer, KvDelete_try_commits_or_keeps.
  - destruct keys as [|k keys]; [apply commits_or_keeps_kept, db_kept_return|].
    apply commits_or_keeps_bind; [apply db_kept_encode_keys|]. intros raw_keys.
    apply commits_or_keeps_if; [apply commits_or_keeps_kept, db_kept_fatal|].
    apply commits_or_keeps_if; [apply commits_or_keeps_kept, db_kept_return|].
    apply commits_or_keeps_if; [apply commits_or_keeps_kept, db_kept_return|].
    apply commits_or_keeps_writer, KvBatchDelete_try_commits_or_keeps.
Qed.

(** A batch whose commit is refused (the fourth engine call), and a batch
    with an empty key behind a good one: the record that was put is not
    there. *)
Lemma writers_failure_keeps_db_witness :
  db (snd (KvBatchPutAndDelete "default" [mkKeyValue "k" "v"] ["a"]
             (mkWorld db_abx (repeat NoFault 3 ++ [FaultRet 5]))))
  = db_abx /\
  db (snd (KvBatchPutAndDelete "default"
             [mkKeyValue "k" "v"; mkKeyValue "" "w"] [] (mkWorld db_abx [])))
  = db_abx.
Proof.
  pose proof (proj1 (proj2 writers_failure_keeps_db)) as Hkeeps.
  split.
  - apply (Hkeeps "default" [mkKeyValue "k" "v"] ["a"]
             (mkWorld db_abx (repeat NoFault 3 ++ [FaultRet 5])) st_EBDB_COMMIT);
      [vm_compute; reflexivity | discriminate].
  - apply (Hkeeps "default" [mkKeyValue "k" "v"; mkKeyValue "" "w"] []
             (mkWorld db_abx []) (st_EKEY_EMPTY "Key is empty"));
      [vm_compute; reflexivity | discriminate].
Defined.

(** *** Deadlocks are retried, except those of the commit *)

(** An attempt that throws has not committed. *)
Lemma deadlocks_db body n w w1 :
  commits_or_keeps body -> deadlocks body n w w1 -> db w1 = db w.
Proof.
  intros Hbody Hdead.
  induction Hdead as [w | n w w1 w' Hthrow Hrest IH]; [reflexivity|].
  destruct (Hbody _ _ _ Hthrow) as [Hdb | Hret]; [|discriminate].
  now rewrite IH.
Qed.

(** What "retried, at most 30 times" says of a writer [op] whose attempts
    are [body]: while attempts end in a deadlock thrown out of the [try]
    block the committed records stay as they are; after up to 30 of them
    the call ends as the next attempt does; after 31 it ends with
    [EBDB_DEADLOCK]. *)
Definition retries_deadlocks (op : M Status) (body : M unit) : Prop :=
  forall n w w1,
    deadlocks body n w w1 ->
    db w1 = db w /\
    ((n <= 30)%nat ->
     forall s w', body w1 = (Return s, w') -> op w = (Val s, w')) /\
    (n = 31%nat -> op w = (Val st_EBDB_DEADLOCK, w1)).

(** The shape the writers share once their arguments are accepted. *)
Lemma writer_retries_deadlocks what body (after : Status) :
  commits_or_keeps body ->
  retries_deadlocks
    (call (_ <- retry_loop retry_fuel what body 0 ;; return_ after)) body.
Proof.
  intros Hbody n w w1 Hdead.
  split; [now apply (deadlocks_db body n)|]. split.
  - intros Hn s w' Hret. unfold call, bind.
    now rewrite (retry_loop_retried what body n w w1 s w').
  - intros ->. unfold call, bind.
    now rewrite (retry_loop_exhausted what body w w1).
Qed.

(** The same answers of the engine, [n] times over, each making an attempt
    end in a deadlock. *)
Lemma deadlocks_rounds body round d :
  (forall fs,
      body (mkWorld d (round ++ fs)) = (Throw DbDeadlockException, mkWorld d fs)) ->
  forall n fs,
    deadlocks body n (mkWorld d (concat (repeat round n) ++ fs)) (mkWorld d fs).
Proof.
  intros Hround. induction n as [|n IH]; intros fs; cbn [repeat concat app].
  - constructor.
  - rewrite <- app_assoc. econstructor; [apply Hround | apply IH].
Qed.

(** A deadlock raised by [commit] does not leave the [try] block: the
    handler around the commit catches it as a [DbException]. *)
Lemma commit_block_deadlock txn d fs :
  commit_block txn (mkWorld d (FaultThrow DbDeadlockException :: fs))
  = (Return st_EBDB_COMMIT, mkWorld d fs).
Proof. reflexivity. Qed.

(** The writers with a transaction of their own ([KvPut], both
    [KvBatchPutAndDelete], [KvDelete], [KvBatchDelete] and the cursor walk
    [KvBatchDeleteRangeNormal]) retry the deadlocks that their [try] block
    throws, whichever engine call before the commit raised them: after up
    to 30 such attempts the call returns what the next attempt returns,
    after 31 it returns [EBDB_DEADLOCK], and the committed records are
    those from before the attempts.  A deadlock raised by the commit is not
    retried: the handler around the commit makes it [EBDB_COMMIT], in the
    commit block that [KvBatchPutAndDelete], [KvDelete] and
    [KvBatchDeleteRangeNormal] end their attempts with, and in [KvPut],
    [KvDelete] and [KvBatchDelete] when the engine calls before the commit
    went well. *)
Theorem writers_retry_deadlocks :
  (forall cf_name kv,
      empty (key kv) = false ->
      retries_deadlocks (KvPut cf_name kv) (KvPut_try cf_name kv)) /\
  (forall cf_name kvs_to_put keys_to_delete,
      (kvs_to_put <> [] \/ keys_to_delete <> []) ->
      retries_deadlocks (KvBatchPutAndDelete cf_name kvs_to_put keys_to_delete)
        (KvBatchPutAndDelete_try cf_name kvs_to_put keys_to_delete)) /\
  (forall kv_puts_with_cf kv_deletes_with_cf,
      retries_deadlocks (KvBatchPutAndDelete_cf kv_puts_with_cf kv_deletes_with_cf)
        (KvBatchPutAndDelete_cf_try kv_puts_with_cf kv_deletes_with_cf)) /\
  (forall cf_name k,
      empty k = false ->
      retries_deadlocks (KvDelete cf_name k) (KvDelete_try cf_name k)) /\
  (forall malloc cf_name cf_id keys,
      keys <> [] ->
      GetCfId cf_name = Some cf_id ->
      keys_buf_size (List.map (EncodeKey_id cf_id) keys) <= UINT32_MAX ->
      malloc (keys_buf_size (List.map (EncodeKey_id cf_id) keys)) = true ->
      append_all (keys_buf_size (List.map (EncodeKey_id cf_id) keys)) 0 0
        (List.map (EncodeKey_id cf_id) keys) = true ->
      retries_deadlocks (KvBatchDelete malloc cf_name keys)
        (KvBatchDelete_try (List.map (EncodeKey_id cf_id) keys))) /\
  (forall CheckRange range_with_cfs,
      retries_deadlocks (KvBatchDeleteRangeNormal CheckRange range_with_cfs)
        (KvBatchDeleteRangeNormal_try CheckRange range_with_cfs)) /\
  (forall txn d fs,
      commit_block txn (mkWorld d (FaultThrow DbDeadlockException :: fs))
      = (Return st_EBDB_COMMIT, mkWorld d fs)) /\
  (forall cf_name cf_id kv d fs,
      empty (key kv) = false ->
      GetCfId cf_name = Some cf_id ->
      KvPut cf_name kv
        (mkWorld d (NoFault :: NoFault :: FaultThrow DbDeadlockException :: fs))
      = (Val st_EBDB_COMMIT, mkWorld d fs)) /\
  (forall cf_name cf_id k d fs,
      empty k = false ->
      GetCfId cf_name = Some cf_id ->
      KvDelete cf_name k
        (mkWorld d (NoFault :: NoFault :: FaultThrow DbDeadlockException :: fs))
      = (Val st_EBDB_COMMIT, mkWorld d fs)) /\
  (forall malloc cf_name cf_id keys d fs,
      keys <> [] ->
      GetCfId cf_name = Some cf_id ->
      keys_buf_size (List.map (EncodeKey_id cf_id) keys) <= UINT32_MAX ->
      malloc (keys_buf_size (List.map (EncodeKey_id cf_id) keys)) = true ->
      append_all (keys_buf_size (List.map (EncodeKey_id cf_id) keys)) 0 0
        (List.map (EncodeKey_id cf_id) keys) = true ->
      KvBatchDelete malloc cf_name keys
        (mkWorld d (NoFault :: NoFault :: FaultThrow DbDeadlockException :: fs))
      = (Val st_EBDB_COMMIT, mkWorld d fs)).
Proof.
  repeat apply conj.
  - intros cf_name kv Hkey. unfold KvPut. rewrite Hkey.
    apply writer_retries_deadlocks, KvPut_try_commits_or_keeps.
  - intros cf_name kvs keys Hne. unfold KvBatchPutAndDelete.
    destruct kvs, keys;
      try apply writer_retries_deadlocks,
                KvBatchPutAndDelete_try_commits_or_keeps.
    destruct Hne; contradiction.
  - intros puts dels.
    apply writer_retries_deadlocks, KvBatchPutAndDelete_cf_try_commits_or_keeps.
  - intros cf_name k Hkey. unfold KvDelete. rewrite Hkey.
    apply writer_retries_deadlocks, KvDelete_try_commits_or_keeps.
  - intros malloc cf_name cf_id keys Hne Hcf Hsize Hmalloc Happend n w w1 Hdead.
    rewrite !(KvBatchDelete_accepted malloc cf_name cf_id) by assumption.
    revert n w w1 Hdead.
    apply writer_retries_deadlocks, KvBatchDelete_try_commits_or_keeps.
  - intros CheckRange rwc.
    apply writer_retries_deadlocks, KvBatchDeleteRangeNormal_try_commits_or_keeps.
  - reflexivity.
  - intros cf_name cf_id kv d fs Hkey Hcf. unfold KvPut. rewrite Hkey.
    unfold call, bind at 1. change retry_fuel with (S 31).
    rewrite (retry_loop_return _ _ _ _ _ st_EBDB_COMMIT (mkWorld d fs));
      [reflexivity|].
    unfold KvPut_try, bind, EncodeKey. rewrite Hcf. reflexivity.
  - intros cf_name cf_id k d fs Hkey Hcf. unfold KvDelete. rewrite Hkey.
    unfold call, bind at 1. change retry_fuel with (S 31).
    rewrite (retry_loop_return _ _ _ _ _ st_EBDB_COMMIT (mkWorld d fs));
      [reflexivity|].
    unfold KvDelete_try, bind, EncodeKey. rewrite Hcf.
    cbn [txn_begin engine_call bind next_fault faults db ret fst snd Z.eqb negb].
    unfold db_del.
    cbn [engine_call bind next_fault faults db ret].
    destruct (db_find (EncodeKey_id cf_id k) d); reflexivity.
  - intros malloc cf_name cf_id keys d fs Hne Hcf Hsize Hmalloc Happend.
    rewrite (KvBatchDelete_accepted malloc cf_name cf_id) by assumption.
    unfold call, bind at 1. change retry_fuel with (S 31).
    rewrite (retry_loop_return _ _ _ _ _ st_EBDB_COMMIT (mkWorld d fs));
      [reflexivity|].
    unfold KvBatchDelete_try, bind, db_del_multiple.
    cbn [txn_begin engine_call bind next_fault faults db ret fst snd Z.eqb negb].
    destruct (forallb _ _); reflexivity.
Qed.

(** The theorem at work.  Thirty deadlocks of the [put], then a [KvPut]
    that goes through; thirty-one, and it gives up.  A deadlock of the
    cursor's [del] in [KvBatchDeleteRangeNormal] (its fourth engine call on
    these records) is retried.  A deadlock of the commit of [KvPut] is
    not. *)
Lemma writers_retry_deadlocks_witness :
  KvPut "default" (mkKeyValue "k" "v")
    (mkWorld db_abx
       (concat (repeat [NoFault; FaultThrow DbDeadlockException] 30) ++ []))
  = (Val Status_OK, mkWorld (db_insert "0k" "v" db_abx) []) /\
  KvPut "default" (mkKeyValue "k" "v")
    (mkWorld db_abx
       (concat (repeat [NoFault; FaultThrow DbDeadlockException] 31) ++ []))
  = (Val st_EBDB_DEADLOCK, mkWorld db_abx []) /\
  KvBatchDeleteRangeNormal (fun _ => Status_OK) [("default", [mkRange "a" "c"])]
    (mkWorld db_abx [NoFault; NoFault; NoFault; FaultThrow DbDeadlockException])
  = (Val Status_OK, mkWorld [("0x", "3")] []) /\
  KvPut "default" (mkKeyValue "k" "v")
    (mkWorld db_abx [NoFault; NoFault; FaultThrow DbDeadlockException])
  = (Val st_EBDB_COMMIT, mkWorld db_abx []).
Proof.
  destruct writers_retry_deadlocks
    as (HKvPut & _ & _ & _ & _ & HNormal & _ & Hcommit & _).
  assert (Hround : forall n,
             deadlocks (KvPut_try "default" (mkKeyValue "k" "v")) n
               (mkWorld db_abx
                  (concat (repeat [NoFault; FaultThrow DbDeadlockException] n) ++ []))
               (mkWorld db_abx [])).
  { intros n. apply deadlocks_rounds. intros fs. reflexivity. }
  split; [|split; [|split]].
  - apply (proj1 (proj2 (HKvPut "default" (mkKeyValue "k" "v") eq_refl
                           30%nat _ _ (Hround 30%nat))));
      [lia | vm_compute; reflexivity].
  - apply (proj2 (proj2 (HKvPut "default" (mkKeyValue "k" "v") eq_refl
                           31%nat _ _ (Hround 31%nat)))).
    reflexivity.
  - apply (proj1 (proj2 (HNormal (fun _ => Status_OK)
                           [("default", [mkRange "a" "c"])] 1%nat
                           (mkWorld db_abx
                              [NoFault; NoFault; NoFault;
                               FaultThrow DbDeadlockException])
                           (mkWorld db_abx [])
                           ltac:(econstructor;
                                 [vm_compute; reflexivity | constructor]))));
      [lia | vm_compute; reflexivity].
  - apply (Hcommit "default" "0"%char (mkKeyValue "k" "v") db_abx []);
      reflexivity.
Defined.

(** *** The writers always answer *)

(** Code that runs to its end: it does not run out of fuel, what it returns
    is not the "unknown error." status, and a value it completes with
    satisfies [P]. *)
Definition yields {A : Type} (P : A -> Prop) (m : M A) : Prop :=
  forall w r w',
    m w = (r, w') ->
    match r with
    | Val a => P a
    | Return s => error_code s <> EBDB_UNKNOW
    | Timeout => False
    | _ => True
    end.

(** Code that ends the function it is in, by a [return] of another status
    than "unknown error." or by the fatal log. *)
Definition answers {A : Type} (m : M A) : Prop :=
  forall w r w',
    m w = (r, w') ->
    match r with
    | Return s => error_code s <> EBDB_UNKNOW
    | Fatal => True
    | _ => False
    end.

Lemma yields_ret {A : Type} (P : A -> Prop) (a : A) : P a -> yields P (ret a).
Proof. intros Ha w r w' Heq. now inversion Heq. Qed.

Lemma yields_return {A : Type} (P : A -> Prop) (s : Status) :
  error_code s <> EBDB_UNKNOW -> yields P (return_ s).
Proof. intros Hs w r w' Heq. now inversion Heq. Qed.

Lemma yields_fatal {A : Type} (P : A -> Prop) : yields P fatal.
Proof. intros w r w' Heq. now inversion Heq. Qed.

Lemma yields_bind {A B : Type} (P : A -> Prop) (Q : B -> Prop) (m : M A)
    (k : A -> M B) :
  yields P m -> (forall a, P a -> yields Q (k a)) -> yields Q (bind m k).
Proof.
  intros Hm Hk w r w' Heq. unfold bind in Heq.
  destruct (m w) as [[a | s | e | |] w1] eqn:Hmw;
    pose proof (Hm _ _ _ Hmw) as Hr; cbn in Hr.
  - exact (Hk a Hr _ _ _ Heq).
  - now inversion Heq.
  - now inversion Heq.
  - now inversion Heq.
  - contradiction.
Qed.

Lemma yields_if {A : Type} (P : A -> Prop) (b : bool) (m1 m2 : M A) :
  yields P m1 -> yields P m2 -> yields P (if b then m1 else m2).
Proof. now destruct b. Qed.

Lemma yields_weaken {A : Type} (P Q : A -> Prop) (m : M A) :
  (forall a, P a -> Q a) -> yields P m -> yields Q m.
Proof.
  intros HPQ Hm w r w' Heq. specialize (Hm _ _ _ Heq).
  destruct r; auto.
Qed.

Lemma yields_engine_call {A : Type} (P : A -> Prop) (normal : M A) failed :
  yields P normal -> (forall r, r <> 0 -> P (failed r)) ->
  yields P (engine_call normal failed).
Proof.
  intros Hnormal Hfailed [d fs] r w' Heq.
  unfold engine_call, bind, next_fault in Heq. cbn [faults db] in Heq.
  destruct fs as [|[|c|e] fs].
  - exact (Hnormal _ _ _ Heq).
  - exact (Hnormal _ _ _ Heq).
  - destruct (Z.eqb_spec c 0) as [_|Hc].
    + exact (Hnormal _ _ _ Heq).
    + inversion Heq; subst. now apply Hfailed.
  - now inversion Heq.
Qed.

Lemma yields_catch_commit (P : Z -> Prop) (m : M Z) :
  yields P m -> P kCommitException -> yields P (catch_commit m).
Proof.
  intros Hm Hk w r w' Heq. unfold catch_commit in Heq.
  destruct (m w) as [[a | s | e | |] w1] eqn:Hmw;
    pose proof (Hm _ _ _ Hmw) as Hr; cbn in Hr;
    try (inversion Heq; subst; assumption).
  destruct (is_DbException e); now inversion Heq.
Qed.

Lemma yields_EncodeKey cf_name k : yields (fun _ => True) (EncodeKey cf_name k).
Proof.
  unfold EncodeKey. destruct (GetCfId cf_name).
  - now apply yields_ret.
  - apply yields_fatal.
Qed.

Lemma yields_txn_begin : yields (fun _ => True) txn_begin.
Proof.
  apply yields_engine_call; [|auto]. intros w r w' Heq. now inversion Heq.
Qed.

Lemma yields_db_put txn k v : yields (fun _ => True) (db_put txn k v).
Proof. apply yields_engine_call; [now apply yields_ret | auto]. Qed.

Lemma yields_db_del txn k : yields (fun _ => True) (db_del txn k).
Proof. apply yields_engine_call; [now apply yields_ret | auto]. Qed.

Lemma yields_db_del_multiple txn ks : yields (fun _ => True) (db_del_multiple txn ks).
Proof. apply yields_engine_call; [now apply yields_ret | auto]. Qed.

(** The commit of [KvPut] and [KvBatchDelete] either returns or leaves a
    code that is not 0. *)
Lemma yields_commit txn (s : Status) :
  error_code s <> EBDB_UNKNOW ->
  yields (fun r => r <> 0)
    (catch_commit
       (r <- txn_commit txn ;;
        if r =? 0 then return_ Status_OK else return_ s)).
Proof.
  intros Hs. apply yields_catch_commit; [|discriminate].
  apply (yields_bind (fun _ => True)).
  - apply yields_engine_call; [|auto]. intros w r w' Heq. now inversion Heq.
  - intros r _. apply yields_if; now apply yields_return.
Qed.

Lemma yields_commit_block txn : yields (fun _ : unit => False) (commit_block txn).
Proof.
  unfold commit_block. apply (yields_bind (fun r => r <> 0)).
  - apply yields_catch_commit; [|discriminate].
    apply (yields_bind (fun _ => True)).
    + apply yields_engine_call; [|auto]. intros w r w' Heq. now inversion Heq.
    + intros r _. destruct (Z.eqb_spec r 0).
      * now apply yields_return.
      * now apply yields_ret.
  - intros r Hr. destruct (Z.eqb_spec r 0); [contradiction|].
    now apply yields_return.
Qed.

Lemma yields_put_all cf_name kvs : forall st,
  yields (fun _ => True) (put_all cf_name kvs st).
Proof.
  induction kvs as [|kv kvs IH]; intros st; cbn [put_all].
  - now apply yields_ret.
  - apply yields_if; [now apply yields_return|].
    apply (yields_bind (fun _ => True)); [apply yields_EncodeKey|]. intros sk _.
    apply (yields_bind (fun _ => True)); [apply yields_db_put|]. intros p _.
    apply yields_if; [now apply yields_return | apply IH].
Qed.

Lemma yields_del_all cf_name keys : forall st,
  yields (fun _ => True) (del_all cf_name keys st).
Proof.
  induction keys as [|k keys IH]; intros st; cbn [del_all].
  - now apply yields_ret.
  - apply yields_if; [now apply yields_return|].
    apply (yields_bind (fun _ => True)); [apply yields_EncodeKey|]. intros sk _.
    apply (yields_bind (fun _ => True)); [apply yields_db_del|]. intros p _.
    apply yields_if; [now apply yields_return | apply IH].
Qed.

Lemma yields_put_all_cf kv_puts_with_cf : forall st,
  yields (fun _ => True) (put_all_cf kv_puts_with_cf st).
Proof.
  induction kv_puts_with_cf as [|[cf_name kv_puts] rest IH]; intros st;
    cbn [put_all_cf].
  - now apply yields_ret.
  - destruct kv_puts as [|kv kvs]; [now apply yields_return|].
    apply (yields_bind (fun _ => True)); [apply yields_put_all|].
    intros st' _. apply IH.
Qed.

Lemma yields_del_all_cf kv_deletes_with_cf : forall st,
  yields (fun _ => True) (del_all_cf kv_deletes_with_cf st).
Proof.
  induction kv_deletes_with_cf as [|[cf_name kv_deletes] rest IH]; intros st;
    cbn [del_all_cf].
  - now apply yields_ret.
  - destruct kv_deletes as [|k ks]; [now apply yields_return|].
    apply (yields_bind (fun _ => True)); [apply yields_del_all|].
    intros st' _. apply IH.
Qed.

Lemma yields_encode_keys cf_name keys :
  forall w r w',
    encode_keys cf_name keys w = (r, w') ->
    match r with Val _ | Fatal => True | _ => False end.
Proof.
  induction keys as [|k keys IH]; intros w r w' Heq; cbn [encode_keys] in Heq.
  - now inversion Heq.
  - unfold bind, EncodeKey in Heq.
    destruct (GetCfId cf_name) as [cf_id|]; [|now inversion Heq].
    unfold ret at 1 in Heq.
    destruct (encode_keys cf_name keys w) as [[raws | s | e | |] w1] eqn:Hrest;
      specialize (IH _ _ _ Hrest); cbn in IH; try contradiction;
      now inversion Heq.
Qed.

(** The [try] blocks of the writers end by a [return] or an exception. *)
Lemma yields_KvPut_try cf_name kv : yields (fun _ => False) (KvPut_try cf_name kv).
Proof.
  unfold KvPut_try.
  apply (yields_bind (fun _ => True)); [apply yields_txn_begin|]. intros b _.
  apply yields_if; [now apply yields_return|].
  apply (yields_bind (fun _ => True)); [apply yields_EncodeKey|]. intros sk _.
  apply (yields_bind (fun _ => True)); [apply yields_db_put|]. intros p _.
  apply yields_if; [now apply yields_return|].
  apply (yields_bind (fun r => r <> 0)); [now apply yields_commit|].
  intros r Hr. destruct (Z.eqb_spec r 0); [contradiction|].
  now apply yields_return.
Qed.

Lemma yields_KvBatchPutAndDelete_try cf_name kvs_to_put keys_to_delete :
  yields (fun _ => False) (KvBatchPutAndDelete_try cf_name kvs_to_put keys_to_delete).
Proof.
  unfold KvBatchPutAndDelete_try.
  apply (yields_bind (fun _ => True)); [apply yields_txn_begin|]. intros b _.
  apply yields_if; [now apply yields_return|].
  apply (yields_bind (fun _ => True)); [apply yields_put_all|]. intros p _.
  apply (yields_bind (fun _ => True)); [apply yields_del_all|]. intros d _.
  apply yields_commit_block.
Qed.

Lemma yields_KvBatchPutAndDelete_cf_try kv_puts_with_cf kv_deletes_with_cf :
  yields (fun _ => False)
    (KvBatchPutAndDelete_cf_try kv_puts_with_cf kv_deletes_with_cf).
Proof.
  unfold KvBatchPutAndDelete_cf_try.
  apply (yields_bind (fun _ => True)); [apply yields_txn_begin|]. intros b _.
  apply yields_if; [now apply yields_return|].
  apply (yields_bind (fun _ => True)); [apply yields_put_all_cf|]. intros p _.
  apply (yields_bind (fun _ => True)); [apply yields_del_all_cf|]. intros d _.
  apply yields_commit_block.
Qed.

Lemma yields_KvDelete_try cf_name k : yields (fun _ => False) (KvDelete_try cf_name k).
Proof.
  unfold KvDelete_try.
  apply (yields_bind (fun _ => True)); [apply yields_txn_begin|]. intros b _.
  apply yields_if; [now apply yields_return|].
  apply (yields_bind (fun _ => True)); [apply yields_EncodeKey|]. intros sk _.
  apply (yields_bind (fun _ => True)); [apply yields_db_del|]. intros d _.
  apply yields_if; [now apply yields_return | apply yields_commit_block].
Qed.

Lemma yields_KvBatchDelete_try raw_keys :
  yields (fun _ => False) (KvBatchDelete_try raw_keys).
Proof.
  unfold KvBatchDelete_try.
  apply (yields_bind (fun _ => True)); [apply yields_txn_begin|]. intros b _.
  apply yields_if; [now apply yields_return|].
  apply (yields_bind (fun _ => True)); [apply yields_db_del_multiple|]. intros d _.
  apply yields_if; [now apply yields_return|].
  apply (yields_bind (fun r => r <> 0)); [now apply yields_commit|].
  intros r Hr. destruct (Z.eqb_spec r 0); [contradiction|].
  now apply yields_return.
Qed.

(** Around such a [try] block the loop ends within the retries the flag
    allows. *)
Lemma answers_retry_loop what body : forall fuel retry_count,
  yields (fun _ => False) body ->
  retry_count <= FLAGS_bdb_max_retries ->
  FLAGS_bdb_max_retries - retry_count < Z.of_nat fuel ->
  answers (retry_loop fuel what body retry_count).
Proof.
  induction fuel as [|fuel IH]; intros retry_count Hbody Hle Hfuel; [lia|].
  intros w r w' Heq. cbn [retry_loop] in Heq.
  destruct (body w) as [[a | s | [| |] | |] w1] eqn:Hbw;
    pose proof (Hbody _ _ _ Hbw) as Hr; cbn in Hr; try contradiction;
    try (inversion Heq; subst; first [assumption | discriminate | exact I]).
  destruct (Z.ltb_spec retry_count FLAGS_bdb_max_retries).
  - apply (IH (retry_count + 1) Hbody) in Heq; [exact Heq | lia | lia].
  - inversion Heq; subst. discriminate.
Qed.

Lemma answers_writer (pre : bool) (s : Status) what body :
  error_code s <> EBDB_UNKNOW ->
  yields (fun _ => False) body ->
  answers (if pre then return_ s
           else _ <- retry_loop retry_fuel what body 0 ;; return_ st_EBDB_UNKNOW
           : M Status).
Proof.
  intros Hs Hbody w r w' Heq. destruct pre; [now inversion Heq|].
  assert (Hans : answers (retry_loop retry_fuel what body 0)).
  { apply answers_retry_loop; [exact Hbody | discriminate | reflexivity]. }
  unfold bind in Heq.
  destruct (retry_loop retry_fuel what body 0 w) as [[a | s' | e | |] w1] eqn:Hloop;
    specialize (Hans _ _ _ Hloop); cbn in Hans; try contradiction;
    now inversion Heq.
Qed.

Lemma call_answers (f : M Status) w :
  answers f ->
  (exists w', call f w = (Fatal, w')) \/
  (exists s w', call f w = (Val s, w') /\ error_code s <> EBDB_UNKNOW).
Proof.
  intros Hf. unfold call.
  destruct (f w) as [[a | s | e | |] w1] eqn:Hfw;
    specialize (Hf _ _ _ Hfw); cbn in Hf; try contradiction; eauto.
Qed.

(** Whatever the engine does, [KvPut], [KvBatchPutAndDelete] (both
    overloads), [KvDelete] and [KvBatchDelete] end, with a status or on the
    fatal log of an unknown column family or of a bulk buffer that is too
    large; the status is never "unknown error.", the [return] after each
    retry loop is not reached. *)
Theorem writers_always_answer w :
  let answer (f : M Status) :=
    (exists w', f w = (Fatal, w')) \/
    (exists s w', f w = (Val s, w') /\ error_code s <> EBDB_UNKNOW) in
  (forall cf_name kv, answer (KvPut cf_name kv)) /\
  (forall cf_name kvs_to_put keys_to_delete,
      answer (KvBatchPutAndDelete cf_name kvs_to_put keys_to_delete)) /\
  (forall kv_puts_with_cf kv_deletes_with_cf,
      answer (KvBatchPutAndDelete_cf kv_puts_with_cf kv_deletes_with_cf)) /\
  (forall cf_name k, answer (KvDelete cf_name k)) /\
  (forall malloc cf_name keys, answer (KvBatchDelete malloc cf_name keys)).
Proof.
  intros answer. subst answer. cbv beta. repeat split.
  - intros cf_name kv. apply call_answers.
    apply answers_writer; [discriminate | apply yields_KvPut_try].
  - intros cf_name kvs_to_put keys_to_delete. apply call_answers.
    apply answers_writer; [discriminate | apply yields_KvBatchPutAndDelete_try].
  - intros kv_puts_with_cf kv_deletes_with_cf. apply call_answers.
    apply (answers_writer false Status_OK);
      [discriminate | apply yields_KvBatchPutAndDelete_cf_try].
  - intros cf_name k. apply call_answers.
    apply answers_writer; [discriminate | apply yields_KvDelete_try].
  - intros malloc cf_name keys. apply call_answers.
    destruct keys as [|k keys]; [intros w0 r w' Heq; now inversion Heq|].
    intros w0 r w' Heq. unfold bind in Heq.
    destruct (encode_keys cf_name (k :: keys) w0) as [[a | s | e | |] w1] eqn:Henc;
      pose proof (yields_encode_keys _ _ _ _ _ Henc) as Hr; cbn in Hr;
      try contradiction; [|now inversion Heq].
    destruct (UINT32_MAX <? keys_buf_size a); [now inversion Heq|].
    destruct (malloc (keys_buf_size a)); [|now inversion Heq].
    destruct (append_all (keys_buf_size a) 0 0 a); [|now inversion Heq].
    cbn [negb] in Heq.
    refine (answers_writer false Status_OK _ _ _ (yields_KvBatchDelete_try a) _ _ _ Heq).
    discriminate.
Qed.

(** *** Keys and column families *)

Lemma EncodeKey_id_cons cf_id k : EncodeKey_id cf_id k = String cf_id k.
Proof. reflexivity. Qed.

Lemma substring_all s : String.substring 0 (String.length s) s = s.
Proof. induction s as [|c s IH]; cbn; congruence. Qed.

Lemma DbtToUserKey_cons cf_id k : DbtToUserKey (String cf_id k) = k.
Proof.
  unfold DbtToUserKey, CF_ID_LEN. cbn [String.length Nat.sub String.substring].
  rewrite Nat.sub_0_r. apply substring_all.
Qed.

(** The key a record is stored under is the user's key behind the id of the
    column family: [DbtToUserKey] and [DecodeKey] give the user's key back,
    and two stored keys are equal only for the same column family and the
    same user key.  [DecodeKey] answers -1 also on success, and aborts on
    the stored form of the empty key. *)
Theorem key_encoding_round_trip cf_id k :
  DbtToUserKey (EncodeKey_id cf_id k) = k /\
  (forall cf_id' k',
      EncodeKey_id cf_id k = EncodeKey_id cf_id' k' <-> cf_id = cf_id' /\ k = k') /\
  (forall w,
      DecodeKey (EncodeKey_id cf_id k) w
      = if empty k then (Fatal, w) else (Val (-1, k), w)).
Proof.
  change (EncodeKey_id cf_id k) with (String cf_id k).
  split; [apply DbtToUserKey_cons|]. split.
  - intros cf_id' k'. change (EncodeKey_id cf_id' k') with (String cf_id' k').
    split.
    + intros Heq. now inversion Heq.
    + now intros [-> ->].
  - intros w. unfold DecodeKey. destruct k as [|c k]; [reflexivity|].
    cbn [String.length CF_ID_LEN Nat.ltb Nat.leb empty].
    unfold ret. now rewrite DbtToUserKey_cons.
Qed.

(** The ids of the table. *)
Definition cf_ids : list ascii :=
  ["0"; "1"; "2"; "3"; "4"; "5"; "6"]%char.

Lemma GetCfId_name cf_name cf_id :
  GetCfId cf_name = Some cf_id -> In (cf_name, cf_id) cf_name_to_id.
Proof.
  unfold GetCfId, cf_name_to_id. cbn [assoc_find].
  repeat (match goal with
          | |- context [String.eqb ?a ?b] =>
              destruct (String.eqb_spec a b) as [->|_];
              [intros Heq; inversion Heq; subst; cbn; tauto|]
          end).
  discriminate.
Qed.

Lemma GetCfId_known cf_name cf_id :
  GetCfId cf_name = Some cf_id -> In cf_id cf_ids.
Proof.
  intros Hcf. apply GetCfId_name in Hcf. cbn in Hcf. unfold cf_ids. cbn.
  repeat (destruct Hcf as [Hcf|Hcf]; [inversion Hcf; subst; tauto|]).
  contradiction.
Qed.

Lemma GetCfId_GetCfName cf_name cf_id :
  GetCfId cf_name = Some cf_id -> GetCfName cf_id = Some cf_name.
Proof.
  intros Hcf. apply GetCfId_name in Hcf. cbn in Hcf.
  repeat (destruct Hcf as [Hcf|Hcf]; [inversion Hcf; subst; reflexivity|]).
  contradiction.
Qed.

Lemma GetCfId_inj cf_name cf_name' cf_id :
  GetCfId cf_name = Some cf_id -> GetCfId cf_name' = Some cf_id ->
  cf_name = cf_name'.
Proof.
  intros H1 H2. apply GetCfId_GetCfName in H1, H2. congruence.
Qed.

(** The two tables of [BdbHelper] are inverse to each other: a name has the
    id whose name it is, so different names have different ids. *)
Theorem GetCfId_GetCfName_inverse cf_name cf_id :
  (GetCfId cf_name = Some cf_id <-> GetCfName cf_id = Some cf_name) /\
  (forall cf_name',
      GetCfId cf_name' = Some cf_id -> GetCfName cf_id = Some cf_name ->
      cf_name = cf_name').
Proof.
  assert (Hfrom : GetCfName cf_id = Some cf_name -> GetCfId cf_name = Some cf_id).
  { unfold GetCfName, cf_id_to_name. cbn [List.find fst].
    repeat (match goal with
            | |- context [Ascii.eqb ?a ?b] =>
                destruct (Ascii.eqb_spec a b) as [<-|_];
                [intros Heq; inversion Heq; subst; reflexivity|]
            end).
    discriminate. }
  split; [split; [apply GetCfId_GetCfName | exact Hfrom]|].
  intros n' H1 H2. apply Hfrom in H2. symmetry. now apply (GetCfId_inj _ _ cf_id).
Qed.

(** Each column family owns an interval of the B-tree: its stored keys lie
    between [EncodeCf] and [EncodedCfUpperBound], and the stored keys of the
    other column families lie outside of it. *)
Theorem cf_key_intervals cf_name cf_id k :
  GetCfId cf_name = Some cf_id ->
  str_ge (EncodeKey_id cf_id k) (EncodeCf_id cf_id) = true /\
  str_lt (EncodeKey_id cf_id k) (EncodedCfUpperBound_id cf_id) = true /\
  (forall cf_name' cf_id' k',
      GetCfId cf_name' = Some cf_id' -> cf_name' <> cf_name ->
      str_lt (EncodeKey_id cf_id' k') (EncodeCf_id cf_id) = true \/
      str_ge (EncodeKey_id cf_id' k') (EncodedCfUpperBound_id cf_id) = true).
Proof.
  intros Hcf. pose proof (GetCfId_known _ _ Hcf) as Hid.
  assert (Hown : str_ge (EncodeKey_id cf_id k) (EncodeCf_id cf_id) = true /\
                 str_lt (EncodeKey_id cf_id k) (EncodedCfUpperBound_id cf_id) = true).
  { cbn in Hid.
    repeat (destruct Hid as [Hid|Hid];
            [subst cf_id; destruct k; split; reflexivity|]).
    contradiction. }
  destruct Hown as [Hge Hlt]. split; [exact Hge|]. split; [exact Hlt|].
  intros cf_name' cf_id' k' Hcf' Hne.
  assert (Hids : cf_id' <> cf_id).
  { intros ->. apply Hne. now apply (GetCfId_inj _ _ cf_id). }
  pose proof (GetCfId_known _ _ Hcf') as Hid'.
  cbn in Hid, Hid'.
  repeat (destruct Hid as [Hid|Hid]; [subst cf_id|]); try contradiction;
    repeat (destruct Hid' as [Hid'|Hid']; [subst cf_id'|]); try contradiction;
    try (exfalso; apply Hids; reflexivity);
    destruct k'; ((left; reflexivity) || (right; reflexivity)).
Qed.

Lemma cf_key_intervals_witness :
  str_ge (EncodeKey_id "0" "zzz") (EncodeCf_id "0") = true /\
  str_lt (EncodeKey_id "0" "zzz") (EncodedCfUpperBound_id "0") = true /\
  (forall cf_name' cf_id' k',
      GetCfId cf_name' = Some cf_id' -> cf_name' <> "default" ->
      str_lt (EncodeKey_id cf_id' k') (EncodeCf_id "0") = true \/
      str_ge (EncodeKey_id cf_id' k') (EncodedCfUpperBound_id "0") = true).
Proof.
  apply (cf_key_intervals "default" "0"%char "zzz"). reflexivity.
Defined.

(** *** Reading back what was written *)

Lemma db_find_insert_eq k v d : db_find k (db_insert k v d) = Some v.
Proof.
  unfold db_find. induction d as [|[k' v'] d IH]; cbn.
  - now rewrite String.eqb_refl.
  - destruct (String.compare k k') eqn:Hcmp; cbn.
    + now rewrite String.eqb_refl.
    + now rewrite String.eqb_refl.
    + destruct (String.eqb_spec k k') as [->|_]; [|exact IH].
      rewrite compare_refl in Hcmp. discriminate.
Qed.

Lemma db_find_insert_ne k k' v d :
  k <> k' -> db_find k' (db_insert k v d) = db_find k' d.
Proof.
  intros Hne. unfold db_find. induction d as [|[k0 v0] d IH]; cbn.
  - destruct (String.eqb_spec k' k); congruence.
  - destruct (String.compare k k0) eqn:Hcmp; cbn.
    + apply compare_eq in Hcmp. subst k0.
      destruct (String.eqb_spec k' k); congruence.
    + destruct (String.eqb_spec k' k); congruence.
    + now rewrite IH.
Qed.

Lemma db_find_remove_eq k d : db_find k (db_remove k d) = None.
Proof.
  unfold db_find, db_remove. induction d as [|[k0 v0] d IH]; cbn; [reflexivity|].
  destruct (String.eqb_spec k0 k) as [->|Hne]; cbn; [exact IH|].
  destruct (String.eqb_spec k k0); congruence.
Qed.

Lemma db_find_remove_ne k k' d :
  k <> k' -> db_find k' (db_remove k d) = db_find k' d.
Proof.
  intros Hne. unfold db_find, db_remove.
  induction d as [|[k0 v0] d IH]; cbn; [reflexivity|].
  destruct (String.eqb_spec k0 k) as [->|Hne0]; cbn.
  - destruct (String.eqb_spec k' k); congruence.
  - now rewrite IH.
Qed.

(** The calls on an engine that does not fail. *)
Lemma GetSnapshot_fault_free d :
  GetSnapshot (mkWorld d []) = (Val (Some d), mkWorld d []).
Proof. destruct d; reflexivity. Qed.

Lemma KvPut_fault_free cf_name cf_id k v d :
  GetCfId cf_name = Some cf_id -> empty k = false ->
  KvPut cf_name (mkKeyValue k v) (mkWorld d [])
  = (Val Status_OK, mkWorld (db_insert (EncodeKey_id cf_id k) v d) []).
Proof.
  intros Hcf Hk. unfold KvPut. cbn [key]. rewrite Hk.
  unfold call, bind at 1. change retry_fuel with (S 31).
  rewrite (retry_loop_return _ _ _ _ _ Status_OK
             (mkWorld (db_insert (EncodeKey_id cf_id k) v d) []));
    [reflexivity|].
  unfold KvPut_try, bind, EncodeKey. rewrite Hcf. reflexivity.
Qed.

Lemma KvDelete_fault_free cf_name cf_id k d :
  GetCfId cf_name = Some cf_id -> empty k = false ->
  KvDelete cf_name k (mkWorld d [])
  = (Val Status_OK, mkWorld (db_remove (EncodeKey_id cf_id k) d) []).
Proof.
  intros Hcf Hk. unfold KvDelete. rewrite Hk.
  unfold call, bind at 1. change retry_fuel with (S 31).
  rewrite (retry_loop_return _ _ _ _ _ Status_OK
             (mkWorld (db_remove (EncodeKey_id cf_id k) d) []));
    [reflexivity|].
  unfold KvDelete_try, bind, EncodeKey. rewrite Hcf.
  cbn -[db_find db_remove EncodeKey_id].
  destruct (db_find (EncodeKey_id cf_id k) d) as [v|] eqn:Hfind;
    cbn -[db_find db_remove EncodeKey_id]; [reflexivity|].
  assert (Hsame : db_remove (EncodeKey_id cf_id k) d = d); [|now rewrite Hsame].
  clear -Hfind. unfold db_find, db_remove in *.
  induction d as [|[k0 v0] d IH]; cbn in *; [reflexivity|].
  rewrite String.eqb_sym.
  destruct (String.eqb (EncodeKey_id cf_id k) k0); [discriminate|].
  cbn. now rewrite IH.
Qed.

Lemma KvGet_fault_free cf_name k v0 d :
  KvGet cf_name k v0 (mkWorld d [])
  = (if empty k then Val (st_EKEY_EMPTY "Key is empty", v0)
     else match GetCfId cf_name with
          | None => Fatal
          | Some cf_id =>
              match db_find (EncodeKey_id cf_id k) d with
              | Some v => Val (Status_OK, v)
              | None => Val (mkStatus EKEY_NOT_FOUND "Not found key.", v0)
              end
          end,
     mkWorld d []).
Proof.
  unfold KvGet, bind at 1. rewrite GetSnapshot_fault_free.
  unfold KvGet_snapshot. destruct (empty k); [reflexivity|].
  unfold bind, EncodeKey. destruct (GetCfId cf_name) as [cf_id|]; [|reflexivity].
  cbn -[db_find EncodeKey_id].
  destruct (db_find (EncodeKey_id cf_id k) d); reflexivity.
Qed.

(** On an engine that does not fail a record that was put is read back, in
    its column family and under its key only, until it is deleted; the
    other keys and the other column families read as before. *)
Theorem KvPut_KvGet_KvDelete_round_trip cf_name cf_id k v v0 d :
  GetCfId cf_name = Some cf_id ->
  empty k = false ->
  exists w1 w2,
    KvPut cf_name (mkKeyValue k v) (mkWorld d []) = (Val Status_OK, w1) /\
    KvGet cf_name k v0 w1 = (Val (Status_OK, v), w1) /\
    KvDelete cf_name k w1 = (Val Status_OK, w2) /\
    KvGet cf_name k v0 w2
    = (Val (mkStatus EKEY_NOT_FOUND "Not found key.", v0), w2) /\
    (forall cf_name' k',
        (cf_name', k') <> (cf_name, k) ->
        fst (KvGet cf_name' k' v0 w1) = fst (KvGet cf_name' k' v0 (mkWorld d [])) /\
        fst (KvGet cf_name' k' v0 w2) = fst (KvGet cf_name' k' v0 (mkWorld d []))).
Proof.
  intros Hcf Hk.
  exists (mkWorld (db_insert (EncodeKey_id cf_id k) v d) []),
         (mkWorld (db_remove (EncodeKey_id cf_id k)
                     (db_insert (EncodeKey_id cf_id k) v d)) []).
  split; [now apply KvPut_fault_free|].
  rewrite !KvGet_fault_free, Hk, Hcf, db_find_insert_eq, db_find_remove_eq.
  split; [reflexivity|]. split; [now apply KvDelete_fault_free|].
  split; [reflexivity|].
  intros cf_name' k' Hne. rewrite !KvGet_fault_free. cbn [fst].
  destruct (empty k'); [auto|].
  destruct (GetCfId cf_name') as [cf_id'|] eqn:Hcf'; [|auto].
  assert (Hkeys : EncodeKey_id cf_id k <> EncodeKey_id cf_id' k').
  { change (String cf_id k <> String cf_id' k').
    intros Heq. inversion Heq; subst. apply Hne. f_equal.
    now apply (GetCfId_inj _ _ cf_id'). }
  rewrite db_find_remove_ne, db_find_insert_ne by assumption. auto.
Qed.

Lemma KvPut_KvGet_KvDelete_round_trip_witness :
  exists w1 w2,
    KvPut "default" (mkKeyValue "k" "v") (mkWorld db_abx []) = (Val Status_OK, w1) /\
    KvGet "default" "k" "" w1 = (Val (Status_OK, "v"), w1) /\
    KvDelete "default" "k" w1 = (Val Status_OK, w2) /\
    KvGet "default" "k" "" w2
    = (Val (mkStatus EKEY_NOT_FOUND "Not found key.", ""), w2) /\
    (forall cf_name' k',
        (cf_name', k') <> ("default", "k") ->
        fst (KvGet cf_name' k' "" w1) = fst (KvGet cf_name' k' "" (mkWorld db_abx [])) /\
        fst (KvGet cf_name' k' "" w2) = fst (KvGet cf_name' k' "" (mkWorld db_abx []))).
Proof.
  apply (KvPut_KvGet_KvDelete_round_trip "default" "0"%char "k" "v" "" db_abx);
    reflexivity.
Defined.

(** *** Snapshots *)

Lemma GetSnapshot_loop_deadlocks n : forall fuel d fs,
  GetSnapshot_loop (n + fuel)
    (mkWorld d (repeat (FaultThrow DbDeadlockException) n ++ fs))
  = GetSnapshot_loop fuel (mkWorld d fs).
Proof.
  induction n as [|n IH]; intros fuel d fs; [reflexivity|].
  cbn [Nat.add repeat app GetSnapshot_loop].
  change (GetSnapshot_try
            (mkWorld d (FaultThrow DbDeadlockException
                          :: repeat (FaultThrow DbDeadlockException) n ++ fs)))
    with (@Throw (option Db) DbDeadlockException,
          mkWorld d (repeat (FaultThrow DbDeadlockException) n ++ fs)).
  apply IH.
Qed.

(** Code that uses up the answers of the engine and ends by itself: it
    never adds an answer, an exception has used up at least one, and it
    neither returns from the enclosing function nor runs out of fuel. *)
Definition consumes {A : Type} (m : M A) : Prop :=
  forall w r w',
    m w = (r, w') ->
    (length (faults w') <= length (faults w))%nat /\
    (forall e, r = Throw e -> (length (faults w') < length (faults w))%nat) /\
    (forall s, r <> Return s) /\ r <> Timeout.

Lemma consumes_ret {A : Type} (a : A) : consumes (ret a).
Proof.
  intros w r w' Heq. inversion Heq; subst.
  repeat split; try lia; discriminate.
Qed.

Lemma consumes_bind {A B : Type} (m : M A) (k : A -> M B) :
  consumes m -> (forall a, consumes (k a)) -> consumes (bind m k).
Proof.
  intros Hm Hk w r w' Heq. unfold bind in Heq.
  destruct (m w) as [[a | s | e | |] w1] eqn:Hmw;
    destruct (Hm _ _ _ Hmw) as (Hle & Hlt & Hret & Htime);
    try (exfalso; now apply (Hret s)); try (exfalso; now apply Htime).
  - destruct (Hk a _ _ _ Heq) as (Hle' & Hlt' & Hret' & Htime').
    repeat split; try assumption; [lia|].
    intros e He. specialize (Hlt' e He). lia.
  - inversion Heq; subst. repeat split; try assumption; try discriminate.
    intros e' _. now apply (Hlt e).
  - inversion Heq; subst. repeat split; try assumption; discriminate.
Qed.

Lemma consumes_if {A : Type} (b : bool) (m1 m2 : M A) :
  consumes m1 -> consumes m2 -> consumes (if b then m1 else m2).
Proof. now destruct b. Qed.

Lemma consumes_engine_call {A : Type} (normal : M A) failed :
  (forall w, exists a w', normal w = (Val a, w') /\ faults w' = faults w) ->
  consumes (engine_call normal failed).
Proof.
  intros Hnormal [d fs] r w' Heq.
  unfold engine_call, bind, next_fault in Heq. cbn [faults db] in Heq.
  destruct fs as [|[|c|e] fs].
  - destruct (Hnormal (mkWorld d [])) as (a & w1 & Hn & Hf).
    rewrite Hn in Heq. inversion Heq; subst. rewrite Hf.
    repeat split; try lia; discriminate.
  - destruct (Hnormal (mkWorld d fs)) as (a & w1 & Hn & Hf).
    rewrite Hn in Heq. inversion Heq; subst. rewrite Hf. cbn.
    repeat split; try lia; discriminate.
  - destruct (c =? 0).
    + destruct (Hnormal (mkWorld d fs)) as (a & w1 & Hn & Hf).
      rewrite Hn in Heq. inversion Heq; subst. rewrite Hf. cbn.
      repeat split; try lia; discriminate.
    + inversion Heq; subst. cbn. repeat split; try lia; discriminate.
  - inversion Heq; subst. cbn. repeat split; try lia; discriminate.
Qed.

Lemma consumes_GetSnapshot_try : consumes GetSnapshot_try.
Proof.
  unfold GetSnapshot_try.
  apply consumes_bind; [apply consumes_engine_call; intros w; eauto|]. intros b.
  apply consumes_if; [apply consumes_ret|].
  apply consumes_bind; [apply consumes_engine_call; intros w; unfold ret; eauto|].
  intros r.
  apply consumes_if; [apply consumes_ret|].
  apply consumes_bind; [apply consumes_engine_call; intros w; unfold ret; eauto|].
  intros r'. apply consumes_if; apply consumes_ret.
Qed.

(** With one round more than the engine has answers left, the loop ends. *)
Lemma GetSnapshot_loop_ends : forall fuel w,
  (length (faults w) < fuel)%nat ->
  (exists o w', GetSnapshot_loop fuel w = (Val o, w')) \/
  (exists w', GetSnapshot_loop fuel w = (Fatal, w')).
Proof.
  induction fuel as [|fuel IH]; intros w Hfuel; [lia|].
  cbn [GetSnapshot_loop].
  destruct (GetSnapshot_try w) as [[o | s | [| |] | |] w1] eqn:Htry; eauto;
    destruct (consumes_GetSnapshot_try _ _ _ Htry) as (_ & Hlt & Hret & Htime).
  - exfalso. now apply (Hret s).
  - apply IH. specialize (Hlt _ eq_refl). lia.
  - exfalso. now apply Htime.
Qed.

(** [GetSnapshot] has no limit on its retries: after any number of
    deadlocks it goes on as if there had been none, and on an engine that
    then does not fail it returns the snapshot of the committed records.
    Whatever the engine does, the call ends: with a snapshot, with
    [nullptr], or on the fatal log of a [std::exception]. *)
Theorem GetSnapshot_retries_every_deadlock n d fs :
  GetSnapshot
    (mkWorld d (repeat (FaultThrow DbDeadlockException) n ++ fs))
  = GetSnapshot (mkWorld d fs) /\
  GetSnapshot (mkWorld d (repeat (FaultThrow DbDeadlockException) n))
  = (Val (Some d), mkWorld d []) /\
  ((exists o w', GetSnapshot (mkWorld d fs) = (Val o, w')) \/
   (exists w', GetSnapshot (mkWorld d fs) = (Fatal, w'))).
Proof.
  assert (Hskip : forall fs',
             GetSnapshot
               (mkWorld d (repeat (FaultThrow DbDeadlockException) n ++ fs'))
             = GetSnapshot (mkWorld d fs')).
  { intros fs'. unfold GetSnapshot. cbn [faults].
    rewrite length_app, repeat_length.
    replace (S (n + length fs')) with (n + S (length fs'))%nat by lia.
    apply GetSnapshot_loop_deadlocks. }
  split; [apply Hskip|]. split.
  - rewrite <- (app_nil_r (repeat _ n)), Hskip. apply GetSnapshot_fault_free.
  - apply GetSnapshot_loop_ends. cbn. lia.
Qed.

(** *** The readers only read *)

Lemma db_kept_cursor_move internal failed get it :
  db_kept get -> db_kept (cursor_move internal failed get it).
Proof.
  intros Hget w r w' Heq. unfold cursor_move in Heq.
  destruct (get w) as [[[c pos] | s | [| |] | |] w1] eqn:Hgw;
    pose proof (Hget _ _ _ Hgw) as Hdb;
    try (inversion Heq; subst; exact Hdb).
  destruct (c =? 0); [now inversion Heq; subst|].
  destruct (c =? DB_NOTFOUND); now inversion Heq; subst.
Qed.

Lemma db_kept_Seek it target : db_kept (Seek it target).
Proof. apply db_kept_cursor_move. auto with db_kept. Qed.

Lemma db_kept_Next it : db_kept (Next it).
Proof. apply db_kept_cursor_move. auto with db_kept. Qed.

Lemma db_kept_NewIterator cf_name snapshot options :
  db_kept (NewIterator cf_name snapshot options).
Proof.
  intros w r w' Heq. unfold NewIterator in Heq.
  destruct (db_cursor w) as [[c | s | e | |] w1] eqn:Hcw;
    pose proof (db_kept_db_cursor _ _ _ Hcw) as Hdb;
    try (inversion Heq; subst; exact Hdb).
  destruct (c =? 0); [|now inversion Heq; subst].
  unfold Iterator_new in Heq.
  destruct (GetCfId cf_name); now inversion Heq; subst.
Qed.

Lemma db_kept_scan_loop {A : Type} (emit : Iterator -> A) fuel :
  forall iter out, db_kept (scan_loop emit fuel iter out).
Proof.
  induction fuel as [|fuel IH]; intros iter out; cbn [scan_loop].
  - apply db_kept_timeout.
  - apply db_kept_if; [|apply db_kept_ret].
    apply db_kept_bind; [apply db_kept_Next | intros; apply IH].
Qed.

Lemma db_kept_range_scan {A : Type} (emit : Iterator -> A) cf_name snapshot a b out :
  db_kept (range_scan emit cf_name snapshot a b out).
Proof.
  unfold range_scan. repeat (apply db_kept_if; [apply db_kept_ret|]).
  apply db_kept_bind; [apply db_kept_NewIterator|]. intros [iter|];
    [|apply db_kept_ret].
  apply db_kept_bind; [apply db_kept_Seek|]. intros iter'.
  apply db_kept_bind; [apply db_kept_scan_loop | intros; apply db_kept_ret].
Qed.

Lemma db_kept_GetSnapshot_try : db_kept GetSnapshot_try.
Proof.
  unfold GetSnapshot_try, dbc_get_first. repeat db_kept_step.
Qed.

Lemma db_kept_GetSnapshot_loop fuel : db_kept (GetSnapshot_loop fuel).
Proof.
  induction fuel as [|fuel IH]; cbn [GetSnapshot_loop]; [apply db_kept_timeout|].
  intros w r w' Heq.
  destruct (GetSnapshot_try w) as [[o | s | [| |] | |] w1] eqn:Htry;
    pose proof (db_kept_GetSnapshot_try _ _ _ Htry) as Hdb;
    try (inversion Heq; subst; exact Hdb).
  rewrite (IH _ _ _ Heq). exact Hdb.
Qed.

Lemma db_kept_GetSnapshot : db_kept GetSnapshot.
Proof. intros w r w' Heq. exact (db_kept_GetSnapshot_loop _ _ _ _ Heq). Qed.

Lemma db_kept_KvGet_snapshot cf_name snapshot k v :
  db_kept (KvGet_snapshot cf_name snapshot k v).
Proof.
  unfold KvGet_snapshot. apply db_kept_if; [apply db_kept_ret|].
  intros w r w' Heq.
  match type of Heq with
  | match ?m w with _ => _ end = _ =>
      assert (Hm : db_kept m)
        by (apply db_kept_bind;
            [apply db_kept_EncodeKey
            | intros; unfold db_get; repeat db_kept_step]);
      destruct (m w) as [[[c bdb_value] | s | e | |] w1] eqn:Hmw;
      pose proof (Hm _ _ _ Hmw) as Hdb
  end;
    try (inversion Heq; subst; exact Hdb).
  - destruct (c =? 0); [now inversion Heq; subst|].
    destruct (c =? DB_NOTFOUND); now inversion Heq; subst.
  - destruct (is_DbException e); now inversion Heq; subst.
Qed.

(** Whatever the engine answers, [GetSnapshot], [KvGet], [KvScan],
    [KvCount] and [GetRangeKeys] leave the committed records as they
    are. *)
Theorem readers_keep_db :
  db_kept GetSnapshot /\
  (forall cf_name k v, db_kept (KvGet cf_name k v)) /\
  (forall cf_name a b kvs, db_kept (KvScan cf_name a b kvs)) /\
  (forall cf_name a b, db_kept (KvCount cf_name a b)) /\
  (forall cf_name a b keys, db_kept (GetRangeKeys cf_name a b keys)).
Proof.
  split; [apply db_kept_GetSnapshot|]. split; [|split; [|split]].
  - intros cf_name k v. unfold KvGet.
    apply db_kept_bind; [apply db_kept_GetSnapshot|].
    intros snapshot. apply db_kept_KvGet_snapshot.
  - intros cf_name a b kvs. unfold KvScan, KvScan_snapshot.
    apply db_kept_bind; [apply db_kept_GetSnapshot|].
    intros snapshot. apply db_kept_range_scan.
  - intros cf_name a b. unfold KvCount, KvCount_snapshot.
    apply db_kept_bind; [apply db_kept_GetSnapshot|]. intros snapshot.
    apply db_kept_bind; [apply db_kept_range_scan | intros; apply db_kept_ret].
  - intros cf_name a b keys. unfold GetRangeKeys.
    repeat (apply db_kept_if; [apply db_kept_ret|]).
    apply db_kept_bind; [apply db_kept_GetSnapshot|]. intros snapshot.
    apply db_kept_bind; [apply db_kept_NewIterator|]. intros [iter|];
      [|apply db_kept_ret].
    apply db_kept_bind; [apply db_kept_Seek|]. intros iter'.
    apply db_kept_bind; [apply db_kept_scan_loop | intros; apply db_kept_ret].
Qed.

(** *** The range readers *)

(** The result of a call, mapped. *)
Definition outcome_map {A B : Type} (f : A -> B) (r : outcome A * World)
  : outcome B * World :=
  match r with
  | (Val a, w) => (Val (f a), w)
  | (Return s, w) => (Return s, w)
  | (Throw e, w) => (Throw e, w)
  | (Fatal, w) => (Fatal, w)
  | (Timeout, w) => (Timeout, w)
  end.

(** Two scans that differ in what they emit per record go through the same
    records. *)
Lemma scan_loop_map {A B : Type} (f : A -> B) (emitA : Iterator -> A)
  (emitB : Iterator -> B) :
  (forall it, emitB it = f (emitA it)) ->
  forall fuel iter out w,
    scan_loop emitB fuel iter (List.map f out) w
    = outcome_map (List.map f) (scan_loop emitA fuel iter out w).
Proof.
  intros Hemit. induction fuel as [|fuel IH]; intros iter out w;
    [reflexivity|].
  cbn [scan_loop]. destruct (Valid iter); [|reflexivity].
  unfold bind. destruct (Next iter w) as [[iter'| | | |] w']; try reflexivity.
  rewrite <- IH. f_equal. rewrite List.map_app, Hemit. reflexivity.
Qed.

Lemma range_scan_map {A B : Type} (f : A -> B) (emitA : Iterator -> A)
  (emitB : Iterator -> B) cf_name snapshot a b out w :
  (forall it, emitB it = f (emitA it)) ->
  range_scan emitB cf_name snapshot a b (List.map f out) w
  = outcome_map (fun r => (fst r, List.map f (snd r)))
      (range_scan emitA cf_name snapshot a b out w).
Proof.
  intros Hemit. unfold range_scan.
  destruct (empty a); [reflexivity|]. destruct (empty b); [reflexivity|].
  destruct (str_ge a b); [reflexivity|].
  unfold bind.
  destruct (NewIterator cf_name snapshot (mkOptions a b) w)
    as [[[iter|]| | | |] w1]; try reflexivity.
  destruct (Seek iter a w1) as [[iter'| | | |] w2]; try reflexivity.
  rewrite (scan_loop_map f emitA emitB Hemit).
  destruct (scan_loop emitA _ iter' out w2) as [[l| | | |] w3]; reflexivity.
Qed.

(** [KvCount] counts the records [KvScan] returns, and [GetRangeKeys]
    returns their keys, whatever the engine does; the three fail alike.
    ([GetRangeKeys] validates its range before it takes the snapshot, the
    other two after.) *)
Theorem range_readers_agree cf_name a b w :
  KvCount cf_name a b w
  = outcome_map (fun r => (fst r, Z.of_nat (length (snd r))))
      (KvScan cf_name a b [] w) /\
  (empty a = false -> empty b = false -> str_lt a b = true ->
   GetRangeKeys cf_name a b [] w
   = outcome_map (fun r => (fst r, List.map key (snd r)))
       (KvScan cf_name a b [] w)).
Proof.
  split.
  - unfold KvCount, KvScan, KvCount_snapshot, KvScan_snapshot, bind.
    destruct (GetSnapshot w) as [[snapshot| | | |] w1]; try reflexivity.
    pose proof (range_scan_map (fun _ => tt)
                  (fun it => mkKeyValue (Key it) (Value it)) (fun _ => tt)
                  cf_name snapshot a b [] w1 (fun _ => eq_refl)) as Hmap.
    cbn [List.map] in Hmap. rewrite Hmap.
    destruct (range_scan (fun it => mkKeyValue (Key it) (Value it))
                cf_name snapshot a b [] w1) as [[[st l]| | | |] w2];
      try reflexivity.
    cbn [outcome_map fst snd]. unfold ret. now rewrite List.length_map.
  - intros Ha Hb Hlt. unfold GetRangeKeys, KvScan, KvScan_snapshot, bind.
    rewrite Ha, Hb. change (str_ge a b) with (negb (str_lt a b)).
    rewrite Hlt. cbn [negb].
    destruct (GetSnapshot w) as [[snapshot| | | |] w1]; try reflexivity.
    pose proof (range_scan_map key (fun it => mkKeyValue (Key it) (Value it))
                  Key cf_name snapshot a b [] w1 (fun _ => eq_refl)) as Hmap.
    unfold range_scan at 1 in Hmap. unfold bind in Hmap. rewrite Ha, Hb in Hmap.
    change (str_ge a b) with (negb (str_lt a b)) in Hmap.
    rewrite Hlt in Hmap. cbn [negb List.map] in Hmap.
    exact Hmap.
Qed.

Lemma range_readers_agree_witness :
  GetRangeKeys "default" "a" "c" [] (mkWorld db_abx [])
  = (Val (Status_OK, ["a"; "b"]), mkWorld db_abx []).
Proof.
  rewrite (proj2 (range_readers_agree "default" "a" "c" (mkWorld db_abx []))
             eq_refl eq_refl eq_refl).
  vm_compute. reflexivity.
Defined.

(** *** Scans on an engine that does not fail *)

(** The B-tree keeps its records in the order of their keys. *)
Fixpoint db_sorted (d : Db) : bool :=
  match d with
  | [] => true
  | (k, _) :: d' => forallb (fun kv => str_lt k (fst kv)) d' && db_sorted d'
  end.

(** The stored keys of [[s, e)]. *)
Definition in_range (s e : string) (kv : string * string) : bool :=
  str_ge (fst kv) s && str_lt (fst kv) e.

(** A record as a reader returns it. *)
Definition to_KeyValue (kv : string * string) : KeyValue :=
  mkKeyValue (DbtToUserKey (fst kv)) (snd kv).

Fixpoint take_while {A : Type} (f : A -> bool) (l : list A) : list A :=
  match l with
  | [] => []
  | x :: l' => if f x then x :: take_while f l' else []
  end.

Lemma Valid_at it p ps :
  valid_ it = true -> pos_ it = p :: ps ->
  Valid it = in_range (raw_start_key_ it) (raw_end_key_ it) p.
Proof.
  intros Hvalid Hpos. unfold Valid, in_range, bdb_key_.
  rewrite Hvalid, Hpos. destruct p as [k v]. cbn [negb fst].
  rewrite !str_gt_lt, str_ge_lt.
  destruct (str_lt k (raw_start_key_ it)), (str_lt k (raw_end_key_ it));
    reflexivity.
Qed.

(** From a valid position the loop goes on as long as the keys stay between
    the bounds of the iterator. *)
Lemma scan_loop_fault_free {A : Type} (emit : Iterator -> A)
  (g : string * string -> A) :
  (forall it p ps, pos_ it = p :: ps -> emit it = g p) ->
  forall ps p fuel it out d,
    valid_ it = true -> pos_ it = p :: ps ->
    (length (p :: ps) < fuel)%nat ->
    scan_loop emit fuel it out (mkWorld d [])
    = (Val (out ++ List.map g
                     (take_while (in_range (raw_start_key_ it) (raw_end_key_ it))
                        (p :: ps))),
       mkWorld d []).
Proof.
  intros Hemit. induction ps as [|p' ps IH]; intros p fuel it out d Hvalid Hpos Hfuel;
    (destruct fuel as [|fuel]; [cbn in Hfuel; lia|]);
    cbn [scan_loop take_while]; rewrite (Valid_at it p _ Hvalid Hpos);
    destruct (in_range (raw_start_key_ it) (raw_end_key_ it) p) eqn:Hin;
    try (cbn; now rewrite app_nil_r).
  - unfold bind, Next, cursor_move, dbc_get_next. rewrite Hpos.
    cbn [tl engine_call bind next_fault faults ret].
    destruct fuel as [|fuel]; [cbn in Hfuel; lia|].
    cbn. now rewrite (Hemit it p [] Hpos).
  - unfold bind, Next, cursor_move, dbc_get_next. rewrite Hpos.
    cbn [tl engine_call bind next_fault faults ret Z.eqb].
    rewrite (IH p' fuel (set_pos it (p' :: ps) true Status_OK)
               (out ++ [emit it]) d eq_refl eq_refl)
      by (cbn in Hfuel |- *; lia).
    cbn [raw_start_key_ raw_end_key_ set_pos List.map take_while].
    rewrite (Hemit it p _ Hpos), <- app_assoc. reflexivity.
Qed.

(** In a sorted list the records of an interval are those met from the
    first key at or after its start up to the first key at or after its
    end. *)
Lemma take_while_filter_from s e : forall d,
  db_sorted d = true ->
  forallb (fun kv => str_ge (fst kv) s) d = true ->
  take_while (in_range s e) d = List.filter (in_range s e) d.
Proof.
  induction d as [|[k v] d IH]; intros Hsorted Hfrom; [reflexivity|].
  cbn [db_sorted forallb fst] in Hsorted, Hfrom.
  apply andb_true_iff in Hsorted as [Hhead Hsorted].
  apply andb_true_iff in Hfrom as [Hk Hfrom].
  cbn [take_while List.filter].
  destruct (in_range s e (k, v)) eqn:Hin; [now rewrite IH|].
  unfold in_range in Hin. cbn [fst] in Hin. rewrite Hk in Hin. cbn in Hin.
  symmetry. clear IH Hfrom Hsorted.
  induction d as [|[k' v'] d IH]; [reflexivity|].
  cbn [forallb fst] in Hhead. apply andb_true_iff in Hhead as [Hlt Hhead].
  cbn [List.filter]. unfold in_range at 1. cbn [fst].
  assert (Hout : str_lt k' e = false).
  { destruct (str_lt k' e) eqn:Hk'; [|reflexivity].
    rewrite (str_lt_trans _ _ _ Hlt Hk') in Hin. discriminate. }
  rewrite Hout, andb_false_r. now apply IH.
Qed.

Lemma db_seek_filter s e : forall d,
  db_sorted d = true ->
  take_while (in_range s e) (db_seek s d) = List.filter (in_range s e) d.
Proof.
  induction d as [|[k v] d IH]; intros Hsorted; [reflexivity|].
  cbn [db_seek]. destruct (str_lt k s) eqn:Hks.
  - cbn [db_sorted] in Hsorted. apply andb_true_iff in Hsorted as [_ Hsorted].
    rewrite IH by assumption. cbn [List.filter]. unfold in_range at 2.
    cbn [fst]. rewrite str_ge_lt, Hks. reflexivity.
  - apply take_while_filter_from; [assumption|].
    cbn [forallb fst]. rewrite str_ge_lt, Hks. cbn [negb andb].
    cbn [db_sorted] in Hsorted. apply andb_true_iff in Hsorted as [Hhead _].
    apply forallb_forall. intros [k' v'] Hin'.
    rewrite forallb_forall in Hhead. specialize (Hhead _ Hin'). cbn [fst] in *.
    rewrite str_ge_lt. apply negb_true_iff.
    destruct (str_lt k' s) eqn:Hk's; [|reflexivity].
    rewrite (str_lt_trans _ _ _ Hhead Hk's) in Hks. discriminate.
Qed.

Lemma range_scan_fault_free {A : Type} (emit : Iterator -> A)
  (g : string * string -> A) cf_name cf_id snapshot a b out d :
  (forall it p ps, pos_ it = p :: ps -> emit it = g p) ->
  GetCfId cf_name = Some cf_id ->
  empty a = false -> empty b = false -> str_lt a b = true ->
  range_scan emit cf_name snapshot a b out (mkWorld d [])
  = (Val (Status_OK,
          out ++ List.map g
                   (take_while
                      (in_range (EncodeKey_id cf_id a) (EncodeKey_id cf_id b))
                      (db_seek (EncodeKey_id cf_id a)
                         (match snapshot with Some ss => ss | None => d end)))),
     mkWorld d []).
Proof.
  intros Hemit Hcf Ha Hb Hlt. unfold range_scan. rewrite Ha, Hb.
  change (str_ge a b) with (negb (str_lt a b)). rewrite Hlt. cbn [negb].
  unfold bind at 1, NewIterator, Iterator_new. rewrite Hcf.
  cbn [db_cursor engine_call bind next_fault faults ret Z.eqb db lower_bound
       upper_bound].
  rewrite Ha, Hb. cbn [negb].
  set (view := match snapshot with Some ss => ss | None => d end).
  unfold bind at 1, Seek, cursor_move, dbc_get_set_range.
  cbn [engine_call bind next_fault faults ret view_ cf_id_].
  change (String cf_id a) with (EncodeKey_id cf_id a).
  destruct (db_seek (EncodeKey_id cf_id a) view) as [|p ps] eqn:Hseek.
  - cbn. now rewrite app_nil_r.
  - cbn [Z.eqb]. unfold bind.
    rewrite (scan_loop_fault_free emit g Hemit ps p) by (cbn; auto; lia).
    reflexivity.
Qed.

(** On an engine that does not fail, [KvScan] appends the records of the
    column family whose keys are in [[start_key, end_key)], in key order,
    and nothing else. *)
Theorem KvScan_fault_free cf_name cf_id a b kvs d :
  GetCfId cf_name = Some cf_id ->
  empty a = false -> empty b = false -> str_lt a b = true ->
  db_sorted d = true ->
  KvScan cf_name a b kvs (mkWorld d [])
  = (Val (Status_OK,
          kvs ++ List.map to_KeyValue
                   (List.filter
                      (in_range (EncodeKey_id cf_id a) (EncodeKey_id cf_id b)) d)),
     mkWorld d []).
Proof.
  intros Hcf Ha Hb Hlt Hsorted. unfold KvScan, bind at 1.
  rewrite GetSnapshot_fault_free. unfold KvScan_snapshot.
  rewrite (range_scan_fault_free _ to_KeyValue cf_name cf_id (Some d) a b kvs d)
    by (try assumption; intros it [k v] ps Hpos;
        unfold Key, Value, bdb_key_, bdb_value_, to_KeyValue; now rewrite Hpos).
  now rewrite db_seek_filter.
Qed.

Lemma KvScan_fault_free_witness :
  KvScan "default" "a" "c" [] (mkWorld db_abx [])
  = (Val (Status_OK, [mkKeyValue "a" "1"; mkKeyValue "b" "2"]),
     mkWorld db_abx []).
Proof.
  apply (KvScan_fault_free "default" "0"%char "a" "c" [] db_abx); reflexivity.
Defined.

(** *** Range deletion on an engine that does not fail *)

Lemma GetRangeKeys_range_scan cf_name a b keys w :
  empty a = false -> empty b = false -> str_lt a b = true ->
  GetRangeKeys cf_name a b keys w
  = (snapshot <- GetSnapshot ;; range_scan Key cf_name snapshot a b keys) w.
Proof.
  intros Ha Hb Hlt. unfold GetRangeKeys, range_scan, bind.
  rewrite Ha, Hb. change (str_ge a b) with (negb (str_lt a b)).
  rewrite Hlt. reflexivity.
Qed.

Lemma GetRangeKeys_fault_free cf_name cf_id a b d :
  GetCfId cf_name = Some cf_id ->
  empty a = false -> empty b = false -> str_lt a b = true ->
  db_sorted d = true ->
  GetRangeKeys cf_name a b [] (mkWorld d [])
  = (Val (Status_OK,
          List.map (fun kv => DbtToUserKey (fst kv))
            (List.filter
               (in_range (EncodeKey_id cf_id a) (EncodeKey_id cf_id b)) d)),
     mkWorld d []).
Proof.
  intros Hcf Ha Hb Hlt Hsorted.
  rewrite GetRangeKeys_range_scan by assumption.
  unfold bind at 1. rewrite GetSnapshot_fault_free.
  rewrite (range_scan_fault_free Key (fun kv => DbtToUserKey (fst kv))
             cf_name cf_id (Some d) a b [] d)
    by (try assumption; intros it [k v] ps Hpos;
        unfold Key, bdb_key_; now rewrite Hpos).
  now rewrite db_seek_filter.
Qed.

(** A stored key between two stored keys of a column family is one of that
    column family. *)
Lemma in_range_cf cf_id a b k v :
  in_range (EncodeKey_id cf_id a) (EncodeKey_id cf_id b) (k, v) = true ->
  EncodeKey_id cf_id (DbtToUserKey k) = k.
Proof.
  change (EncodeKey_id cf_id a) with (String cf_id a).
  change (EncodeKey_id cf_id b) with (String cf_id b).
  unfold in_range, str_ge, str_lt, String.ltb. cbn [fst].
  destruct k as [|c k]; [discriminate|]. cbn [String.compare].
  destruct (Ascii.compare c cf_id) eqn:Hcmp; cbn; try discriminate.
  apply Ascii.compare_eq_iff in Hcmp. subst c. intros _.
  change (String cf_id (DbtToUserKey (String cf_id k)) = String cf_id k).
  now rewrite DbtToUserKey_cons.
Qed.

Lemma fold_db_remove ks : forall d,
  fold_left (fun t k => db_remove k t) ks d
  = List.filter (fun kv => negb (existsb (String.eqb (fst kv)) ks)) d.
Proof.
  induction ks as [|k ks IH]; intros d; cbn [fold_left existsb].
  - induction d as [|kv d IHd]; [reflexivity|].
    cbn [List.filter existsb negb]. now f_equal.
  - rewrite IH. unfold db_remove.
    induction d as [|kv d IHd]; cbn [List.filter]; [reflexivity|].
    destruct (String.eqb (fst kv) k); cbn [negb orb List.filter];
      [exact IHd|].
    destruct (negb (existsb (String.eqb (fst kv)) ks)); now rewrite IHd.
Qed.

Lemma remove_filtered (P : string -> bool) (d : Db) :
  List.filter
    (fun kv => negb (existsb (String.eqb (fst kv))
                       (List.map fst (List.filter (fun kv => P (fst kv)) d)))) d
  = List.filter (fun kv => negb (P (fst kv))) d.
Proof.
  apply List.filter_ext_in. intros [k v] Hin. cbn [fst]. f_equal.
  destruct (P k) eqn:HP.
  - apply existsb_exists. exists k. split; [|apply String.eqb_refl].
    apply List.in_map_iff. exists (k, v). split; [reflexivity|].
    apply List.filter_In. auto.
  - destruct (existsb _ _) eqn:Hex; [|reflexivity].
    apply existsb_exists in Hex as (k' & Hin' & Heq).
    apply String.eqb_eq in Heq. subst k'.
    apply List.in_map_iff in Hin' as ([k' v'] & Hk' & Hin').
    apply List.filter_In in Hin' as [_ HP']. cbn [fst] in *. congruence.
Qed.

Lemma KvBatchDelete_fault_free malloc cf_name cf_id keys d :
  keys <> [] ->
  GetCfId cf_name = Some cf_id ->
  keys_buf_size (List.map (EncodeKey_id cf_id) keys) <= UINT32_MAX ->
  malloc (keys_buf_size (List.map (EncodeKey_id cf_id) keys)) = true ->
  append_all (keys_buf_size (List.map (EncodeKey_id cf_id) keys)) 0 0
    (List.map (EncodeKey_id cf_id) keys) = true ->
  KvBatchDelete malloc cf_name keys (mkWorld d [])
  = (Val Status_OK,
     mkWorld (fold_left (fun t k => db_remove k t)
                (List.map (EncodeKey_id cf_id) keys) d) []).
Proof.
  intros Hne Hcf Hsize Hmalloc Happend.
  rewrite (KvBatchDelete_accepted malloc cf_name cf_id) by assumption.
  unfold call, bind at 1. change retry_fuel with (S 31).
  rewrite (retry_loop_return _ _ _ _ _ Status_OK
             (mkWorld (fold_left (fun t k => db_remove k t)
                         (List.map (EncodeKey_id cf_id) keys) d) []));
    [reflexivity|].
  unfold KvBatchDelete_try, bind, db_del_multiple.
  cbn [txn_begin engine_call bind next_fault faults ret fst snd db Z.eqb negb].
  destruct (forallb _ _); reflexivity.
Qed.

(** On an engine that does not fail, [KvDeleteRange] (the compiled one,
    which scans and bulk-deletes) returns OK and removes the records of the
    column family whose keys are in [[start_key, end_key)], and no other
    record, when the stored keys of these records take at most 2 GiB in the
    bulk buffer (each with its two 32-bit words, and the end mark) and the
    buffer can be allocated.  Then the [int] that adds up the sizes does
    not overflow and the buffer holds every key. *)
Theorem KvDeleteRange_fault_free CheckRange malloc cf_name cf_id a b d :
  GetCfId cf_name = Some cf_id ->
  empty a = false -> empty b = false -> str_lt a b = true ->
  db_sorted d = true ->
  bulk_bytes
    (List.map fst
       (List.filter (in_range (EncodeKey_id cf_id a) (EncodeKey_id cf_id b)) d))
  <= 2 ^ 31 ->
  malloc
    (keys_buf_size
       (List.map fst
          (List.filter (in_range (EncodeKey_id cf_id a) (EncodeKey_id cf_id b)) d)))
  = true ->
  KvDeleteRange CheckRange malloc cf_name (mkRange a b) (mkWorld d [])
  = (Val Status_OK,
     mkWorld
       (List.filter
          (fun kv => negb (in_range (EncodeKey_id cf_id a) (EncodeKey_id cf_id b) kv))
          d) []).
Proof.
  intros Hcf Ha Hb Hlt Hsorted Hbytes Hmalloc.
  destruct (bulk_buffer_fits _ Hbytes) as [Hsize Happend].
  set (s := EncodeKey_id cf_id a) in *. set (e := EncodeKey_id cf_id b) in *.
  assert (Hraw : List.map (EncodeKey_id cf_id)
                   (List.map (fun kv => DbtToUserKey (fst kv))
                      (List.filter (in_range s e) d))
                 = List.map fst (List.filter (in_range s e) d)).
  { rewrite List.map_map. apply List.map_ext_in. intros [k v] Hin.
    apply List.filter_In in Hin as [_ Hin]. cbn [fst].
    now apply (in_range_cf cf_id a b k v). }
  assert (Hrest : fold_left (fun t k => db_remove k t)
                    (List.map fst (List.filter (in_range s e) d)) d
                  = List.filter (fun kv => negb (in_range s e kv)) d).
  { rewrite fold_db_remove.
    apply (remove_filtered (fun k => str_ge k s && str_lt k e)). }
  unfold KvDeleteRange, range_is_empty, range_is_wrong. cbn [start_key end_key].
  rewrite Ha, Hb. change (str_ge a b) with (negb (str_lt a b)). rewrite Hlt.
  cbn [orb negb]. unfold KvBatchDeleteRange.
  change BDB_BUILD_USE_BULK_DELETE with true. cbv iota.
  unfold KvBatchDeleteRangeBulk, call, bind at 1. change retry_fuel with (S 31).
  rewrite (retry_loop_return _ _ _ _ _ Status_OK
             (mkWorld (List.filter (fun kv => negb (in_range s e kv)) d) []));
    [reflexivity|].
  unfold KvBatchDeleteRangeBulk_try. cbn [bulk_cfs bulk_ranges].
  unfold range_is_empty, range_is_wrong. cbn [start_key end_key].
  rewrite Ha, Hb. change (str_ge a b) with (negb (str_lt a b)). rewrite Hlt.
  cbn [orb negb]. unfold bind at 1. unfold bind at 1. unfold bind at 1.
  rewrite (GetRangeKeys_fault_free cf_name cf_id) by assumption.
  fold s e. cbn [fst snd]. change (ok Status_OK) with true. cbn [negb].
  destruct (List.filter (in_range s e) d) as [|p ps] eqn:Hkeys.
  - cbn. f_equal. f_equal. cbn in Hrest. now rewrite <- Hrest.
  - cbn [List.map]. cbn [List.map] in Hraw, Hrest.
    unfold bind at 1, call at 1.
    rewrite (KvBatchDelete_fault_free malloc cf_name cf_id);
      [| discriminate | assumption
       | cbn [List.map]; rewrite Hraw; exact Hsize
       | cbn [List.map]; rewrite Hraw; exact Hmalloc
       | cbn [List.map]; rewrite Hraw; exact Happend].
    change (ok Status_OK) with true. cbn [negb List.map]. rewrite Hraw, Hrest.
    reflexivity.
Qed.

Lemma KvDeleteRange_fault_free_witness :
  KvDeleteRange (fun _ => Status_OK) malloc_ok "default" (mkRange "a" "c")
    (mkWorld db_abx [])
  = (Val Status_OK, mkWorld [("0x", "3")] []).
Proof.
  apply (KvDeleteRange_fault_free (fun _ => Status_OK) malloc_ok "default"
           "0"%char "a" "c" db_abx); try reflexivity.
  vm_compute. discriminate.
Defined.

(** *** The cursor walk on an engine that does not fail *)

Lemma db_seek_from s : forall d,
  db_sorted d = true ->
  forallb (fun kv => str_ge (fst kv) s) (db_seek s d) = true.
Proof.
  induction d as [|[k v] d IH]; intros Hsorted; [reflexivity|].
  cbn [db_sorted] in Hsorted. apply andb_true_iff in Hsorted as [Hhead Hsorted].
  cbn [db_seek]. destruct (str_lt k s) eqn:Hks; [now apply IH|].
  cbn [forallb fst]. rewrite str_ge_lt, Hks. cbn [negb andb].
  apply forallb_forall. intros [k' v'] Hin.
  rewrite forallb_forall in Hhead. specialize (Hhead _ Hin). cbn [fst] in *.
  rewrite str_ge_lt. destruct (str_lt k' s) eqn:Hk's; [|reflexivity].
  now rewrite (str_lt_trans _ _ _ Hhead Hk's) in Hks.
Qed.

Lemma take_while_from s e : forall l,
  forallb (fun kv => str_ge (fst kv) s) l = true ->
  take_while (fun kv : string * string => str_lt (fst kv) e) l
  = take_while (in_range s e) l.
Proof.
  induction l as [|[k v] l IH]; intros Hfrom; [reflexivity|].
  cbn [forallb fst] in Hfrom. apply andb_true_iff in Hfrom as [Hk Hfrom].
  cbn [take_while]. unfold in_range at 1. cbn [fst]. rewrite Hk. cbn [andb].
  now rewrite IH.
Qed.

(** From the record [p] the walk deletes the records that follow up to the
    first key at or after the end key. *)
Lemma cursor_del_loop_fault_free e d : forall ps p fuel txn,
  (length ps < fuel)%nat ->
  cursor_del_loop fuel e (p :: ps) txn (mkWorld d [])
  = (Val (fold_left (fun t k => db_remove k t)
            (List.map fst (take_while (fun kv => str_lt (fst kv) e) ps)) txn),
     mkWorld d []).
Proof.
  induction ps as [|[k v] ps IH]; intros p fuel txn Hfuel;
    (destruct fuel as [|fuel]; [cbn in Hfuel; lia|]).
  - reflexivity.
  - cbn [cursor_del_loop]. unfold bind at 1.
    cbn [dbc_get_next engine_call bind next_fault faults ret tl fst snd Z.eqb].
    cbn [take_while fst]. destruct (str_lt k e); [|reflexivity].
    unfold bind at 1.
    cbn [dbc_del engine_call bind next_fault faults ret fst snd List.map fold_left].
    apply IH. cbn in Hfuel. lia.
Qed.

(** On an engine that does not fail, [KvBatchDeleteRangeNormal] (the cursor
    walk inside one transaction) of one range removes the records of the
    column family whose keys are in [[start_key, end_key)], and no other
    record.  It needs a record at or after the start key, be it one of
    another range or column family: without one it returns [EINTERNAL] and
    changes nothing. *)
Theorem KvBatchDeleteRangeNormal_fault_free CheckRange cf_name cf_id a b d :
  GetCfId cf_name = Some cf_id ->
  ok (CheckRange (mkRange a b)) = true ->
  empty a = false -> empty b = false -> str_lt a b = true ->
  db_sorted d = true ->
  KvBatchDeleteRangeNormal CheckRange [(cf_name, [mkRange a b])] (mkWorld d [])
  = match db_seek (EncodeKey_id cf_id a) d with
    | [] => (Val (st_EINTERNAL "Internal txn get error."), mkWorld d [])
    | _ =>
        (Val Status_OK,
         mkWorld
           (List.filter
              (fun kv =>
                 negb (in_range (EncodeKey_id cf_id a) (EncodeKey_id cf_id b) kv))
              d) [])
    end.
Proof.
  intros Hcf Hcheck Ha Hb Hlt Hsorted.
  set (s := EncodeKey_id cf_id a) in *. set (e := EncodeKey_id cf_id b) in *.
  assert (Hrest : fold_left (fun t k => db_remove k t)
                    (List.map fst
                       (take_while (fun kv => str_lt (fst kv) e) (db_seek s d))) d
                  = List.filter (fun kv => negb (in_range s e kv)) d).
  { rewrite (take_while_from s e) by now apply db_seek_from.
    rewrite db_seek_filter by assumption. rewrite fold_db_remove.
    apply (remove_filtered (fun k => str_ge k s && str_lt k e)). }
  unfold KvBatchDeleteRangeNormal, call, bind at 1. change retry_fuel with (S 31).
  assert (Hbody :
            KvBatchDeleteRangeNormal_try CheckRange [(cf_name, [mkRange a b])]
              (mkWorld d [])
            = match db_seek s d with
              | [] => (Return (st_EINTERNAL "Internal txn get error."), mkWorld d [])
              | _ => (Return Status_OK,
                      mkWorld (List.filter (fun kv => negb (in_range s e kv)) d) [])
              end).
  { unfold KvBatchDeleteRangeNormal_try. unfold bind at 1.
    cbn [txn_begin engine_call bind next_fault faults ret fst snd db Z.eqb negb].
    cbn [normal_cfs normal_ranges]. unfold range_is_empty, range_is_wrong.
    cbn [start_key end_key]. rewrite Ha, Hb.
    change (str_ge a b) with (negb (str_lt a b)). rewrite Hlt. cbn [orb negb].
    unfold DeleteRangeByCursor. rewrite Hcheck. cbn [negb start_key end_key].
    unfold EncodeKey. rewrite Hcf. fold s e.
    unfold bind at 1. unfold bind at 1. unfold bind at 1.
    cbn [db_cursor engine_call bind next_fault faults ret fst snd Z.eqb negb].
    cbn [dbc_get_set_range engine_call bind next_fault faults ret].
    destruct (db_seek s d) as [|[k v] ps] eqn:Hseek.
    - reflexivity.
    - cbn [fst snd Z.eqb negb take_while List.map fold_left] in *.
      destruct (str_lt k e) eqn:Hke.
      + cbn [dbc_del engine_call bind next_fault faults ret fst snd length].
        unfold bind at 1.
        rewrite (cursor_del_loop_fault_free e d ps (k, v) (S (S (length ps))))
          by lia.
        cbn [List.map fold_left fst] in Hrest. rewrite Hrest.
        cbn [ret fst snd]. change (ok Status_OK) with true. cbn [negb].
        reflexivity.
      + cbn [ret fst snd List.map fold_left] in *. change (ok Status_OK) with true.
        cbn [negb]. rewrite <- Hrest. reflexivity. }
  destruct (db_seek s d) as [|p ps];
    now rewrite (retry_loop_return _ _ _ _ _ _ _ Hbody).
Qed.

Lemma KvBatchDeleteRangeNormal_fault_free_witness :
  KvBatchDeleteRangeNormal (fun _ => Status_OK) [("default", [mkRange "a" "c"])]
    (mkWorld db_abx [])
  = (Val Status_OK, mkWorld [("0x", "3")] []) /\
  KvBatchDeleteRangeNormal (fun _ => Status_OK) [("default", [mkRange "y" "z"])]
    (mkWorld db_abx [])
  = (Val (st_EINTERNAL "Internal txn get error."), mkWorld db_abx []).
Proof.
  split.
  - apply (KvBatchDeleteRangeNormal_fault_free (fun _ => Status_OK) "default"
             "0"%char "a" "c" db_abx); reflexivity.
  - apply (KvBatchDeleteRangeNormal_fault_free (fun _ => Status_OK) "default"
             "0"%char "y" "z" db_abx); reflexivity.
Defined.

(** *** GetApproximateSizes *)

Section ApproximateSizes.

Variable bt_nkeys : Z.
Variable key_range : string -> DB_KEY_RANGE.
Variable GetRangeCountByCursor : string -> string -> string -> M (Status * Z).

(** The estimate of the fast path for one range of ["default"]. *)
Definition range_estimate (range : Range) : Z :=
  estimate_count bt_nkeys
    (key_range (EncodeKey_id "0"%char (start_key range)))
    (key_range (EncodeKey_id "0"%char (end_key range))).

Lemma fast_ranges_no_fault ranges acc d :
  fast_ranges (fun _ => Status_OK) bt_nkeys key_range "default" ranges acc
    (mkWorld d [])
  = (Val (acc ++ List.filter (fun c => 0 <? c) (List.map range_estimate ranges)),
     mkWorld d []).
Proof.
  revert acc. induction ranges as [|range rest IH]; intros acc.
  - simpl. now rewrite app_nil_r.
  - cbn [fast_ranges List.map List.filter]. unfold range_estimate at 1.
    change (ok Status_OK) with true. cbn [negb].
    unfold bind, EncodeKey, db_key_range. cbn [GetCfId assoc_find cf_name_to_id].
    cbn. fold (range_estimate range).
    destruct (0 <? _) eqn:Hpos.
    + rewrite IH. now rewrite <- app_assoc.
    + now rewrite IH.
Qed.

End ApproximateSizes.

(** The cursor fallback appends the count of every range: with a counter
    that succeeds, the answer has one entry per range, in order. *)
Lemma cursor_ranges_counts (count : string -> string -> Z) cf_name ranges acc w :
  cursor_ranges (fun _ a b => ret (Status_OK, count a b)) cf_name ranges acc w
  = (Val (acc ++ List.map (fun r => count (start_key r) (end_key r)) ranges), w).
Proof.
  revert acc. induction ranges as [|range rest IH]; intros acc.
  - cbn. now rewrite app_nil_r.
  - cbn [cursor_ranges List.map]. unfold bind. cbn [ret fst snd].
    change (ok Status_OK) with true. cbn [negb].
    rewrite IH. now rewrite <- app_assoc.
Qed.

Lemma GetApproximateSizes_cursor_counts (count : string -> string -> Z)
  cf_name ranges w :
  GetApproximateSizes_cursor (fun _ a b => ret (Status_OK, count a b))
    cf_name ranges w
  = (Val (List.map (fun r => count (start_key r) (end_key r)) ranges), w).
Proof. unfold GetApproximateSizes_cursor. apply cursor_ranges_counts. Qed.

(** The ranges and statistics of the example: ten keys, none of them between
    ["m"] and ["p"], a quarter of them between ["a"] and ["c"]. *)
Definition example_key_range (k : string) : DB_KEY_RANGE :=
  if String.eqb k "0m" then mkKeyRange 0.5 0 0.5
  else if String.eqb k "0p" then mkKeyRange 0.5 0 0.5
  else if String.eqb k "0a" then mkKeyRange 0 0 1
  else mkKeyRange 0.25 0 0.75.

(** C6: the fast path (the compiled one) appends a count only when it is
    positive, so the answer lists the positive estimates and is shorter than
    the list of ranges whenever a range is estimated empty.  For the two
    ranges [["m","p")] and [["a","c")] the answer is the single count 2, which
    belongs to the second range. *)
Theorem GetApproximateSizes_omits_empty_ranges :
  (forall bt_nkeys key_range GetRangeCountByCursor ranges d,
      GetApproximateSizes (fun _ => Status_OK) bt_nkeys key_range
        GetRangeCountByCursor "default" ranges (mkWorld d [])
      = (Val (List.filter (fun c => 0 <? c)
                (List.map (range_estimate bt_nkeys key_range) ranges)),
         mkWorld d [])) /\
  GetApproximateSizes (fun _ => Status_OK) 10 example_key_range
    (fun _ _ _ => ret (Status_OK, 0)) "default"
    [mkRange "m" "p"; mkRange "a" "c"] (mkWorld db_abx [])
  = (Val [2], mkWorld db_abx []).
Proof.
  split.
  - intros bt_nkeys key_range GRC ranges d.
    unfold GetApproximateSizes. change BDB_FAST_GET_APROX_SIZE with true. cbv iota.
    unfold GetApproximateSizes_fast, bind, db_stat.
    rewrite engine_call_no_fault. cbn [ret negb Z.eqb].
    now rewrite fast_ranges_no_fault.
  - vm_compute. reflexivity.
Qed.

End BdbSpec.

(** ** coordinator_control_kv.cc *)

Module KvSpec.

Import SafeMap Kv.

(** *** Raw access *)

Lemma GetRawKvIndex_found cc k d kv_index :
  read_rc (kv_index_map_ cc) = 0 ->
  safe_map (kv_index_map_ cc) !! k = Some kv_index ->
  GetRawKvIndex cc k d = (Status_OK, kv_index).
Proof.
  intros Hrc Hk. unfold GetRawKvIndex, Get. now rewrite Hrc, Hk.
Qed.

Lemma GetRawKvIndex_not_found cc k d :
  read_rc (kv_index_map_ cc) <> 0 \/ safe_map (kv_index_map_ cc) !! k = None ->
  GetRawKvIndex cc k d = (st_EINVAL "GetRawKvIndex not found", d).
Proof.
  intros Hfail. unfold GetRawKvIndex.
  now rewrite (SafeMapSpec.Get_failure _ _ _ Hfail).
Qed.

(** [GetRawKvIndex] fails exactly when the map cannot be read or has no
    entry for the key. *)
Lemma GetRawKvIndex_ok_iff cc k d :
  ok (fst (GetRawKvIndex cc k d)) = true <->
  read_rc (kv_index_map_ cc) = 0 /\ is_Some (safe_map (kv_index_map_ cc) !! k).
Proof.
  destruct (Z.eq_dec (read_rc (kv_index_map_ cc)) 0) as [Hrc | Hrc].
  - destruct (safe_map (kv_index_map_ cc) !! k) as [ki|] eqn:Hk.
    + rewrite (GetRawKvIndex_found _ _ _ ki Hrc Hk). split; eauto.
    + rewrite GetRawKvIndex_not_found by auto.
      split; [discriminate|]. intros [_ [x Hx]]. discriminate.
  - rewrite GetRawKvIndex_not_found by auto.
    split; [discriminate|]. intros [Hx _]. contradiction.
Qed.

Lemma trigger_watch_kv_index_map cc k ev prev last_rev rev ncr op nv :
  kv_index_map_ (trigger_watch cc k ev prev last_rev rev ncr op nv)
  = kv_index_map_ cc.
Proof.
  unfold trigger_watch, TriggerOneWatch.
  destruct (negb _); [|reflexivity].
  destruct (one_time_watch_map_ cc !! k); reflexivity.
Qed.

Lemma trigger_watch_kv_rev_map cc k ev prev last_rev rev ncr op nv :
  kv_rev_map_ (trigger_watch cc k ev prev last_rev rev ncr op nv)
  = kv_rev_map_ cc.
Proof.
  unfold trigger_watch, TriggerOneWatch.
  destruct (negb _); [|reflexivity].
  destruct (one_time_watch_map_ cc !! k); reflexivity.
Qed.

Lemma revision_eta (r : RevisionInternal) : mkRevision (main r) (sub r) = r.
Proof. now destruct r. Qed.

(** *** KvPutApply *)

(** The record [KvPutApply] writes under [op_revision]. *)
Definition put_kv_rev (cc : CoordinatorControl) (k : string)
  (op_revision : RevisionInternal) (ignore_lease : bool) (lease_id : Z)
  (ignore_value : bool) (v : string) : KvRevInternal :=
  let '(_, last_mod_revision, new_create_revision, new_version, _) :=
    put_kv_index cc k op_revision in
  let kv_rev_last := snd (GetRawKvRev cc last_mod_revision KvRev_default) in
  mkKvRev (RevisionToString op_revision)
    (mkKvInternal k
       (if negb ignore_value then v else kv_value (rev_kv kv_rev_last))
       new_create_revision op_revision new_version
       (if ignore_lease then kv_lease (rev_kv kv_rev_last) else lease_id)
       false).

(** What the call leaves in the two maps. *)
Lemma KvPutApply_maps cc k op ignore_lease lease_id ignore_value v :
  let r := KvPutApply cc k op ignore_lease lease_id ignore_value v in
  fst r = Status_OK /\
  safe_map (kv_index_map_ (snd r))
  = <[k := fst (fst (fst (fst (put_kv_index cc k op))))]>
      (safe_map (kv_index_map_ cc)) /\
  safe_map (kv_rev_map_ (snd r))
  = <[RevisionToString op :=
        put_kv_rev cc k op ignore_lease lease_id ignore_value v]>
      (safe_map (kv_rev_map_ cc)).
Proof.
  unfold KvPutApply, put_kv_rev.
  destruct (put_kv_index cc k op) as [[[[kv_index last_mod] ncr] nv] prev].
  cbn -[RevisionToString trigger_watch].
  change (ok Status_OK) with true. cbn -[RevisionToString trigger_watch].
  rewrite trigger_watch_kv_index_map, trigger_watch_kv_rev_map.
  rewrite !revision_eta. cbn. auto.
Qed.

(** The new kv_index, by the state of the old one. *)
Lemma put_kv_index_absent cc k op :
  ok (fst (GetRawKvIndex cc k KvIndex_default)) = false ->
  fst (fst (fst (fst (put_kv_index cc k op))))
  = mkKvIndex k op [mkGeneration (Some op) 1 [op]].
Proof.
  intros Hnot. unfold put_kv_index.
  destruct (GetRawKvIndex cc k KvIndex_default) as [st ki] eqn:Hget.
  simpl in Hnot. rewrite Hnot. cbn [negb fst].
  assert (Hki : ki = KvIndex_default).
  { destruct (Z.eq_dec (read_rc (kv_index_map_ cc)) 0) as [Hrc | Hrc].
    - destruct (safe_map (kv_index_map_ cc) !! k) as [x|] eqn:Hk.
      + rewrite (GetRawKvIndex_found _ _ _ x Hrc Hk) in Hget.
        inversion Hget; subst. discriminate.
      + rewrite GetRawKvIndex_not_found in Hget by auto. now inversion Hget.
    - rewrite GetRawKvIndex_not_found in Hget by auto. now inversion Hget. }
  subst ki. unfold start_generation. cbn. now rewrite revision_eta.
Qed.

Lemma put_kv_index_no_generation cc k op :
  ok (fst (GetRawKvIndex cc k KvIndex_default)) = true ->
  generations (snd (GetRawKvIndex cc k KvIndex_default)) = [] ->
  fst (fst (fst (fst (put_kv_index cc k op))))
  = mkKvIndex (index_id (snd (GetRawKvIndex cc k KvIndex_default))) op
      [mkGeneration (Some op) 1 [op]].
Proof.
  intros Hok Hgens. unfold put_kv_index.
  destruct (GetRawKvIndex cc k KvIndex_default) as [st ki].
  simpl in *. rewrite Hok, Hgens. cbn. unfold start_generation. cbn.
  now rewrite revision_eta.
Qed.

Lemma put_kv_index_latest cc k op gens g :
  ok (fst (GetRawKvIndex cc k KvIndex_default)) = true ->
  generations (snd (GetRawKvIndex cc k KvIndex_default)) = gens ++ [g] ->
  fst (fst (fst (fst (put_kv_index cc k op))))
  = mkKvIndex (index_id (snd (GetRawKvIndex cc k KvIndex_default))) op
      (gens ++ [if has_create_revision g
                then mkGeneration (create_revision g) (to_uint64 (verison g + 1))
                       (revisions g ++ [op])
                else mkGeneration (Some op) 1 (revisions g ++ [op])]).
Proof.
  intros Hok Hgens. unfold put_kv_index.
  destruct (GetRawKvIndex cc k KvIndex_default) as [st ki].
  simpl in *. rewrite Hok, Hgens. cbn [negb].
  rewrite last_snoc. unfold set_latest_generation. rewrite removelast_last.
  destruct (has_create_revision g); cbn; [reflexivity|].
  unfold start_generation. now rewrite revision_eta.
Qed.


(** The empty coordinator, three revisions and the states the examples go
    through. *)
Definition cc_empty : CoordinatorControl :=
  mkControl (mkSafeMap ∅ 0) (mkSafeMap ∅ 0) [] ∅ [].
Definition rev1 : RevisionInternal := mkRevision 1 0.
Definition rev2 : RevisionInternal := mkRevision 2 0.
Definition rev3 : RevisionInternal := mkRevision 3 0.

(** ["k"] put at [rev1]. *)
Definition cc_put : CoordinatorControl :=
  snd (KvPutApply cc_empty "k" rev1 false 0 false "v").

(** ... and deleted at [rev2]. *)
Definition cc_put_del : CoordinatorControl := snd (KvDeleteApply cc_put "k" rev2).


(** *** KvDeleteApply *)

Definition delete_kv_rev (k : string) (op_revision : RevisionInternal)
  (kv_index0 : KvIndexInternal) : KvRevInternal :=
  let '(_, _, new_create_revision, new_version, _) :=
    delete_kv_index kv_index0 op_revision in
  mkKvRev (RevisionToString op_revision)
    (mkKvInternal k "" new_create_revision op_revision new_version 0 true).

Lemma KvDeleteApply_absent cc k op :
  ok (fst (GetRawKvIndex cc k KvIndex_default)) = false ->
  KvDeleteApply cc k op = (Status_OK, cc).
Proof.
  intros Hnot. unfold KvDeleteApply.
  destruct (GetRawKvIndex cc k KvIndex_default) as [st ki].
  simpl in Hnot. now rewrite Hnot.
Qed.

Lemma KvDeleteApply_maps cc k op :
  let prior := GetRawKvIndex cc k KvIndex_default in
  let r := KvDeleteApply cc k op in
  ok (fst prior) = true ->
  fst r = Status_OK /\
  safe_map (kv_index_map_ (snd r))
  = <[k := fst (fst (fst (fst (delete_kv_index (snd prior) op))))]>
      (safe_map (kv_index_map_ cc)) /\
  safe_map (kv_rev_map_ (snd r))
  = <[RevisionToString op := delete_kv_rev k op (snd prior)]>
      (safe_map (kv_rev_map_ cc)).
Proof.
  intros prior r Hok. subst prior r. unfold KvDeleteApply, delete_kv_rev.
  destruct (GetRawKvIndex cc k KvIndex_default) as [st ki].
  simpl in Hok. rewrite Hok. cbn [negb fst snd].
  destruct (delete_kv_index ki op) as [[[[kv_index last_mod] ncr] nv] prev].
  cbn -[RevisionToString trigger_watch].
  change (ok Status_OK) with true. cbn -[RevisionToString trigger_watch].
  rewrite trigger_watch_kv_index_map, trigger_watch_kv_rev_map.
  rewrite !revision_eta. cbn. auto.
Qed.

Lemma delete_kv_index_no_generation kv_index op :
  generations kv_index = [] ->
  fst (fst (fst (fst (delete_kv_index kv_index op))))
  = mkKvIndex (index_id kv_index) op [Generation_default].
Proof. intros Hgens. unfold delete_kv_index. now rewrite Hgens. Qed.

Lemma delete_kv_index_latest kv_index op gens g :
  generations kv_index = gens ++ [g] ->
  fst (fst (fst (fst (delete_kv_index kv_index op))))
  = mkKvIndex (index_id kv_index) op
      (if has_create_revision g
       then gens ++ [mkGeneration (create_revision g) (to_uint64 (verison g + 1))
                       (revisions g ++ [op]); Generation_default]
       else gens ++ [g]).
Proof.
  intros Hgens. unfold delete_kv_index. rewrite Hgens, last_snoc.
  destruct (has_create_revision g); cbn; [|reflexivity].
  unfold set_latest_generation. rewrite removelast_last, <- app_assoc.
  reflexivity.
Qed.




(** *** KvRange *)

(** The text the second branch of the filter compares [range_end] with. *)
Lemma to_string_nul : std_to_string (Z.of_N (N_of_ascii nul)) = "0".
Proof. reflexivity. Qed.

(** Nothing but the empty string is below the one-byte string ["\0"]. *)
Lemma str_lt_nul id : id <> "" -> str_lt id (String nul "") = false.
Proof.
  intros Hne. destruct id as [|c s]; [contradiction|].
  unfold str_lt, String.ltb. cbn [String.compare].
  unfold Ascii.compare, nul. cbn [N_of_ascii Ascii.zero N_of_digits].
  destruct (N_of_ascii c) eqn:Hc; cbn.
  - destruct s; reflexivity.
  - reflexivity.
Qed.

(** The filter on a kv_index whose latest generation is live. *)
Lemma range_filter_live k range_end kv_index g :
  last (generations kv_index) = Some g ->
  has_create_revision g = true -> revisions g <> [] ->
  range_filter k range_end kv_index
  = if empty range_end then bool_decide (k = index_id kv_index)
    else if bool_decide (range_end = "0") then str_ge (index_id kv_index) k
    else str_ge (index_id kv_index) k && str_lt (index_id kv_index) range_end.
Proof.
  intros Hlast Hlive Hrevs. unfold range_filter. rewrite Hlast, Hlive.
  destruct (revisions g); [contradiction|]. reflexivity.
Qed.

(** With [range_end = "\0"] the filter takes the half-open branch, which
    accepts no key but the empty one. *)
Lemma range_filter_nul_end k kv_index :
  index_id kv_index <> "" -> range_filter k (String nul "") kv_index = false.
Proof.
  intros Hid. unfold range_filter.
  destruct (last (generations kv_index)) as [g|]; [|reflexivity].
  destruct (negb (has_create_revision g) || _); [reflexivity|].
  cbn [empty]. rewrite to_string_nul.
  rewrite bool_decide_eq_false_2 by discriminate.
  rewrite (str_lt_nul _ Hid). apply andb_false_r.
Qed.

(** Three live keys: ["/x"], ["a"] and ["b"]. *)
Definition cc_xab : CoordinatorControl :=
  snd (KvPutApply
         (snd (KvPutApply
                 (snd (KvPutApply cc_empty "/x" rev1 false 0 false "1"))
                 "a" rev2 false 0 false "2"))
         "b" rev3 false 0 false "3").

(** The keys and the count a [KvRange] returns. *)
Definition range_keys (r : Status * list version_Kv * Z)
  : Errno * list string * Z :=
  (error_code (fst (fst r)), vkv_key <$> snd (fst r), snd r).

(** C7: [range_end] is compared with [std::to_string('\0')], which is the
    text ["0"].  So [range_end = "\0"] is handled as an ordinary upper bound
    and returns nothing, where the keys from ["a"] on (["a"], ["b"]) are
    expected; and [range_end = "0"] returns every key from [key] on, where
    the keys of [["/", "0")] (only ["/x"]) are expected.  The point get and an
    ordinary half-open range work. *)
Theorem KvRange_dispatch :
  range_keys (KvRange cc_xab "a" (String nul "") 0 false false [] 0)
  = (OK, [], 0) /\
  range_keys (KvRange cc_xab "/" "0" 0 false false [] 0)
  = (OK, ["/x"; "a"; "b"], 3) /\
  range_keys (KvRange cc_xab "a" "" 0 false false [] 0) = (OK, ["a"], 1) /\
  range_keys (KvRange cc_xab "/" "a" 0 false false [] 0) = (OK, ["/x"], 1).
Proof. repeat split; vm_compute; reflexivity. Qed.

(** *** KvPut *)

Section KvPut.

Variable LeaseState : Type.
Variable LeaseQuery : Z -> LeaseState -> Status.
Variable LeaseAddKeys : Z -> list string -> LeaseState -> Status * LeaseState.

(** C8, as the code has it.  A put whose key is longer than 4096 bytes, or
    whose value is (when [ignore_value] is not set), is rejected: the status
    is not OK, and [sub_revision] and the meta increment are as before.  The
    status is the one of the first check that fails, in the order of the
    function: the lease checks ([LeaseQuery], the lookup of the key for
    [ignore_lease], [LeaseAddKeys]), then the checks of the key and the
    value, which all answer [EINVAL].  The length checks do not look at the
    lease: every put that gets past the lease checks, with the lease
    [grant] it is granted, and whose key and value are non-empty and at
    most 4096 bytes long (the value only when [ignore_value] is not set) is
    accepted: it returns OK, adds one entry to the meta increment and
    advances [sub_revision]. *)
Theorem KvPut_length_checks cc leases key_value_in lease_id need_prev_kv
  igore_value ignore_lease main_revision sub_revision prev_kv lease_grant_id
  meta_increment :
  let k := Bdb.key key_value_in in
  let v := Bdb.value key_value_in in
  let r :=
    KvPut LeaseQuery LeaseAddKeys cc leases key_value_in lease_id need_prev_kv
      igore_value ignore_lease main_revision sub_revision prev_kv
      lease_grant_id meta_increment in
  (FLAGS_max_kv_key_size < size k \/
   (igore_value = false /\ FLAGS_max_kv_value_size < size v) ->
   ok (put_status r) = false /\
   put_sub_revision r = sub_revision /\
   put_meta_increment r = meta_increment /\
   (error_code (put_status r) = EINVAL \/
    put_status r = LeaseQuery lease_id leases \/
    put_status r = fst (LeaseAddKeys (put_lease_grant_id r) [k] leases))) /\
  (lease_id = 0 -> ignore_lease = false ->
   FLAGS_max_kv_key_size < size k \/
   (igore_value = false /\ FLAGS_max_kv_value_size < size v) ->
   error_code (put_status r) = EINVAL) /\
  (forall grant,
      (if ignore_lease
       then exists kv0 rest,
           snd (fst (KvRange cc k "" 1 false false [] 0)) = kv0 :: rest /\
           grant = vkv_lease kv0
       else grant = lease_id /\
            (lease_id = 0 \/ ok (LeaseQuery lease_id leases) = true)) ->
      grant = 0 \/ ok (fst (LeaseAddKeys grant [k] leases)) = true ->
      0 < size k <= FLAGS_max_kv_key_size ->
      igore_value = true \/ 0 < size v <= FLAGS_max_kv_value_size ->
      put_status r = Status_OK /\
      put_lease_grant_id r = grant /\
      put_sub_revision r = to_uint64 (sub_revision + 1) /\
      exists entry, put_meta_increment r = meta_increment ++ [entry]).
Proof.
  intros k v r. subst r. unfold KvPut. fold k. fold v.
  assert (Hempty : forall s, empty s = true -> size s = 0)
    by (intros s; apply empty_size).
  assert (Hnonempty : forall s, empty s = false -> 0 < size s).
  { intros [|c s] Hs; [discriminate|]. unfold size. simpl. lia. }
  split; [|split].
  - intros Hlong.
    destruct (negb ignore_lease && negb (lease_id =? 0)
              && negb (ok (LeaseQuery lease_id leases))) eqn:Hquery.
    { cbn. apply andb_true_iff in Hquery as [_ Hq].
      apply negb_true_iff in Hq. intuition. }
    destruct (if ignore_lease then _ else Some lease_id) as [grant|];
      [|cbn; intuition].
    destruct (if negb (grant =? 0) then _ else _) as [st leases'] eqn:Hadd.
    destruct (negb (ok st)) eqn:Hst.
    { cbn. apply negb_true_iff in Hst. repeat split; auto.
      destruct (negb (grant =? 0)).
      - right. right. now rewrite Hadd.
      - inversion Hadd; subst. discriminate. }
    destruct (empty k) eqn:Hk; [cbn; intuition|].
    destruct (negb igore_value && empty v) eqn:Hv; [cbn; intuition|].
    destruct (FLAGS_max_kv_key_size <? size k) eqn:Hklen; [cbn; intuition|].
    destruct (negb igore_value && (FLAGS_max_kv_value_size <? size v)) eqn:Hvlen;
      [cbn; intuition|].
    exfalso. apply Z.ltb_ge in Hklen.
    destruct Hlong as [Hl | [Hig Hl]]; [lia|]. subst igore_value.
    cbn in Hvlen. apply Z.ltb_ge in Hvlen. lia.
  - intros -> -> Hlong. cbn [negb andb Z.eqb].
    destruct (empty k) eqn:Hk; [reflexivity|].
    destruct (negb igore_value && empty v) eqn:Hv; [reflexivity|].
    destruct (FLAGS_max_kv_key_size <? size k) eqn:Hklen; [reflexivity|].
    destruct (negb igore_value && (FLAGS_max_kv_value_size <? size v)) eqn:Hvlen;
      [reflexivity|].
    exfalso. apply Z.ltb_ge in Hklen.
    destruct Hlong as [Hl | [Hig Hl]]; [lia|]. subst igore_value.
    cbn in Hvlen. apply Z.ltb_ge in Hvlen. lia.
  - intros grant Hlease Hadd Hk Hv.
    assert (Hquery : negb ignore_lease && negb (lease_id =? 0)
                     && negb (ok (LeaseQuery lease_id leases)) = false).
    { destruct ignore_lease; [reflexivity|]. destruct Hlease as [_ [-> | ->]].
      - reflexivity.
      - cbn. apply andb_false_r. }
    rewrite Hquery.
    assert (Hgrant : (if ignore_lease
                      then match (if ignore_lease
                                  then snd (fst (KvRange cc k "" 1 false false [] 0))
                                  else [])
                           with
                           | kv0 :: _ => Some (vkv_lease kv0)
                           | [] => None
                           end
                      else Some lease_id) = Some grant).
    { destruct ignore_lease.
      - destruct Hlease as (kv0 & rest & -> & ->). reflexivity.
      - destruct Hlease as [-> _]. reflexivity. }
    rewrite Hgrant.
    assert (Hadded : exists leases',
               (if negb (grant =? 0) then LeaseAddKeys grant [k] leases
                else (Status_OK, leases)) = (fst (if negb (grant =? 0)
                                                  then LeaseAddKeys grant [k] leases
                                                  else (Status_OK, leases)), leases') /\
               ok (fst (if negb (grant =? 0) then LeaseAddKeys grant [k] leases
                        else (Status_OK, leases))) = true).
    { destruct (Z.eqb_spec grant 0) as [Hzero | Hnonzero]; cbn [negb].
      - exists leases. split; reflexivity.
      - destruct Hadd as [Hzero | Hok]; [contradiction|].
        destruct (LeaseAddKeys grant [k] leases) as [st leases'].
        exists leases'. split; [reflexivity | exact Hok]. }
    destruct Hadded as (leases' & Hpair & Hok).
    rewrite Hpair, Hok. cbn [negb].
    destruct (empty k) eqn:Hke; [apply Hempty in Hke; lia|].
    assert (Hklen : (FLAGS_max_kv_key_size <? size k) = false)
      by (apply Z.ltb_ge; lia).
    rewrite Hklen.
    assert (Hvchecks : negb igore_value && empty v = false /\
                       negb igore_value && (FLAGS_max_kv_value_size <? size v) = false).
    { destruct Hv as [-> | Hv]; [split; reflexivity|].
      destruct igore_value; [split; reflexivity|]. cbn. split.
      - destruct (empty v) eqn:Hve; [apply Hempty in Hve; lia | reflexivity].
      - apply Z.ltb_ge. lia. }
    destruct Hvchecks as [Hv1 Hv2]. rewrite Hv1, Hv2.
    cbn. repeat split. eauto.
Qed.

End KvPut.

(** The checks at work without leases: a key of 4097 bytes, and a key of one
    byte. *)
Definition no_LeaseQuery (lease_id : Z) (leases : unit) : Status := Status_OK.
Definition no_LeaseAddKeys (lease_id : Z) (keys : list string) (leases : unit)
  : Status * unit := (Status_OK, leases).

Definition put_long_key : KvPutResult unit :=
  KvPut no_LeaseQuery no_LeaseAddKeys cc_empty tt
    (Bdb.mkKeyValue (string_n 4097 "a"%char) "v") 0 false false false 1 0
    version_Kv_default 0 [].

Definition put_short_key : KvPutResult unit :=
  KvPut no_LeaseQuery no_LeaseAddKeys cc_empty tt (Bdb.mkKeyValue "k" "v") 0
    false false false 1 0 version_Kv_default 0 [].

(** ... and the key of one byte put under the lease 7. *)
Definition put_leased_key : KvPutResult unit :=
  KvPut no_LeaseQuery no_LeaseAddKeys cc_empty tt (Bdb.mkKeyValue "k" "v") 7
    false false false 1 0 version_Kv_default 0 [].

Lemma KvPut_length_checks_witness :
  (ok (put_status put_long_key) = false /\
   put_sub_revision put_long_key = 0 /\
   put_meta_increment put_long_key = []) /\
  error_code (put_status put_long_key) = EINVAL /\
  put_status put_short_key = Status_OK /\
  put_status put_leased_key = Status_OK /\
  put_lease_grant_id put_leased_key = 7.
Proof.
  assert (Hlong : FLAGS_max_kv_key_size
                  < size (Bdb.key (Bdb.mkKeyValue (string_n 4097 "a"%char) "v"))).
  { cbn [Bdb.key]. rewrite size_string_n. unfold FLAGS_max_kv_key_size. lia. }
  pose proof (KvPut_length_checks unit no_LeaseQuery no_LeaseAddKeys cc_empty tt
                (Bdb.mkKeyValue (string_n 4097 "a"%char) "v") 0 false false false
                1 0 version_Kv_default 0 []) as (Hreject & Hcode & _).
  pose proof (KvPut_length_checks unit no_LeaseQuery no_LeaseAddKeys cc_empty tt
                (Bdb.mkKeyValue "k" "v") 0 false false false 1 0
                version_Kv_default 0 []) as (_ & _ & Haccept).
  pose proof (KvPut_length_checks unit no_LeaseQuery no_LeaseAddKeys cc_empty tt
                (Bdb.mkKeyValue "k" "v") 7 false false false 1 0
                version_Kv_default 0 []) as (_ & _ & Hleased).
  split; [|split; [|split]].
  - destruct (Hreject (or_introl Hlong)) as (H1 & H2 & H3 & _). auto.
  - apply Hcode; [reflexivity | reflexivity | left; exact Hlong].
  - apply (Haccept 0); [split; [reflexivity | left; reflexivity] | left; reflexivity | |].
    + change (0 < 1 <= 4096). lia.
    + right. change (0 < 1 <= 4096). lia.
  - assert (Hk : 0 < 1 <= 4096) by lia.
    destruct (Hleased 7) as (Hst & Hgrant & _);
      [split; [reflexivity | right; reflexivity] | right; reflexivity
      | exact Hk | right; exact Hk |].
    split; [exact Hst | exact Hgrant].
Defined.

(** C8 as stated asks for [ILLEGAL_PARAMETERS]: a put without lease of a key
    of 4097 bytes is rejected with [EINVAL]. *)
Lemma KvPut_long_key_is_EINVAL :
  size (string_n 4097 "a"%char) = 4097 /\
  put_status put_long_key = st_EINVAL "KvPut key is too long" /\
  error_code (put_status put_long_key) <> EILLEGAL_PARAMTETERS.
Proof.
  split; [apply size_string_n|].
  assert (Hst : put_status put_long_key = st_EINVAL "KvPut key is too long")
    by (vm_compute; reflexivity).
  split; [exact Hst|]. rewrite Hst. discriminate.
Qed.

(** *** Reading back what was applied *)

Lemma KvPutApply_read_rc cc k op ignore_lease lease_id ignore_value v :
  let r := KvPutApply cc k op ignore_lease lease_id ignore_value v in
  read_rc (kv_index_map_ (snd r)) = read_rc (kv_index_map_ cc) /\
  read_rc (kv_rev_map_ (snd r)) = read_rc (kv_rev_map_ cc).
Proof.
  unfold KvPutApply.
  destruct (put_kv_index cc k op) as [[[[kv_index last_mod] ncr] nv] prev].
  cbn -[RevisionToString trigger_watch].
  change (ok Status_OK) with true. cbn -[RevisionToString trigger_watch].
  rewrite trigger_watch_kv_index_map, trigger_watch_kv_rev_map. cbn. auto.
Qed.

Lemma KvDeleteApply_read_rc cc k op :
  let r := KvDeleteApply cc k op in
  read_rc (kv_index_map_ (snd r)) = read_rc (kv_index_map_ cc) /\
  read_rc (kv_rev_map_ (snd r)) = read_rc (kv_rev_map_ cc).
Proof.
  unfold KvDeleteApply.
  destruct (GetRawKvIndex cc k KvIndex_default) as [st ki].
  destruct (negb (ok st)); [cbn; auto|].
  destruct (delete_kv_index ki op) as [[[[kv_index last_mod] ncr] nv] prev].
  cbn -[RevisionToString trigger_watch].
  change (ok Status_OK) with true. cbn -[RevisionToString trigger_watch].
  rewrite trigger_watch_kv_index_map, trigger_watch_kv_rev_map. cbn. auto.
Qed.

(** A point read looks at the kv_index of the key only. *)
Lemma KvRange_point cc k limit keys_only kv t :
  KvRange cc k "" limit keys_only false kv t
  = match Get (kv_index_map_ cc) k KvIndex_default with
    | (0, kv_index) =>
        let r := range_step cc (if limit =? 0 then INT64_MAX else limit)
                   keys_only (0, kv) kv_index in
        (Status_OK, snd r, fst r)
    | _ => (Status_OK, kv, t)
    end.
Proof.
  unfold KvRange, GetRawKvIndex, Get. cbn [empty].
  destruct (negb (read_rc (kv_index_map_ cc) =? 0)); [reflexivity|].
  destruct (safe_map (kv_index_map_ cc) !! k) as [ki|]; [|reflexivity].
  cbn [Z.ltb Z.compare negb fold_left]. change (ok Status_OK) with true.
  cbn [negb fold_left].
  destruct (range_step _ _ _ _ _); reflexivity.
Qed.

(** The generation a put leaves last is live. *)
Lemma put_kv_index_live cc k op :
  exists gens g,
    generations (fst (fst (fst (fst (put_kv_index cc k op))))) = gens ++ [g] /\
    has_create_revision g = true /\ revisions g <> [].
Proof.
  destruct (ok (fst (GetRawKvIndex cc k KvIndex_default))) eqn:Hok.
  - destruct (generations (snd (GetRawKvIndex cc k KvIndex_default)))
      as [|g0 gens0] eqn:Hgens using rev_ind.
    + rewrite (put_kv_index_no_generation _ _ _ Hok Hgens).
      exists [], (mkGeneration (Some op) 1 [op]). now repeat split.
    + rewrite (put_kv_index_latest _ _ _ _ _ Hok Hgens). cbn [generations].
      eexists _, _. split; [reflexivity|].
      destruct (has_create_revision g0) eqn:Hlive; cbn; split; auto;
        now destruct (revisions g0).
  - rewrite (put_kv_index_absent _ _ _ Hok).
    exists [], (mkGeneration (Some op) 1 [op]). now repeat split.
Qed.

(** The generation a delete of a key with a kv_index leaves last is a
    tombstone. *)
Lemma delete_kv_index_tombstone kv_index op :
  exists gens g,
    generations (fst (fst (fst (fst (delete_kv_index kv_index op))))) = gens ++ [g] /\
    has_create_revision g = false.
Proof.
  destruct (generations kv_index) as [|g0 gens0] eqn:Hgens using rev_ind.
  - rewrite (delete_kv_index_no_generation _ _ Hgens).
    now exists [], Generation_default.
  - rewrite (delete_kv_index_latest _ _ _ _ Hgens). cbn [generations].
    destruct (has_create_revision g0) eqn:Hlive.
    + eexists (gens0 ++ [_]), Generation_default.
      split; [now rewrite <- app_assoc|reflexivity].
    + now exists gens0, g0.
Qed.

(** What a point read returns for the record [kv_rev]. *)
Definition to_version_Kv (keys_only : bool) (kv_rev : KvRevInternal) : version_Kv :=
  mkVersionKv (main (kv_create_revision (rev_kv kv_rev)))
    (main (kv_mod_revision (rev_kv kv_rev))) (kv_version (rev_kv kv_rev))
    (kv_lease (rev_kv kv_rev)) (kv_id (rev_kv kv_rev))
    (if keys_only then "" else kv_value (rev_kv kv_rev)).

(** A key that was put is read back by a point read, with the revision of
    the put, the value and the lease the put gave it, for every limit that
    is not negative; a negative limit counts the key and returns nothing.
    After a delete of the key the point read returns nothing.  A key whose
    latest record is not the one the put wrote reads as before. *)
Theorem KvPutApply_KvRange_round_trip cc k op ignore_lease lease_id ignore_value
    v limit keys_only kv t :
  read_rc (kv_index_map_ cc) = 0 ->
  read_rc (kv_rev_map_ cc) = 0 ->
  let cc1 := snd (KvPutApply cc k op ignore_lease lease_id ignore_value v) in
  (exists kv_rev,
      (0 <= limit ->
       KvRange cc1 k "" limit keys_only false kv t
       = (Status_OK, kv ++ [to_version_Kv keys_only kv_rev], 1)) /\
      (limit < 0 ->
       KvRange cc1 k "" limit keys_only false kv t = (Status_OK, kv, 1)) /\
      kv_id (rev_kv kv_rev) = k /\
      kv_mod_revision (rev_kv kv_rev) = op /\
      (ignore_value = false -> kv_value (rev_kv kv_rev) = v) /\
      (ignore_lease = false -> kv_lease (rev_kv kv_rev) = lease_id) /\
      (safe_map (kv_index_map_ cc) !! k = None ->
       kv_create_revision (rev_kv kv_rev) = op /\ kv_version (rev_kv kv_rev) = 1)) /\
  (forall op',
      KvRange (snd (KvDeleteApply cc1 k op')) k "" limit keys_only false kv t
      = (Status_OK, kv, 0)) /\
  (forall k',
      k' <> k ->
      (forall kv_index,
          safe_map (kv_index_map_ cc) !! k' = Some kv_index ->
          RevisionToString (index_mod_revision kv_index) <> RevisionToString op) ->
      KvRange cc1 k' "" limit keys_only false kv t
      = KvRange cc k' "" limit keys_only false kv t).
Proof.
  intros Hrc_index Hrc_rev cc1.
  destruct (KvPutApply_maps cc k op ignore_lease lease_id ignore_value v)
    as (_ & Hindex & Hrev).
  destruct (KvPutApply_read_rc cc k op ignore_lease lease_id ignore_value v)
    as (Hrc1 & Hrc2).
  fold cc1 in Hindex, Hrev, Hrc1, Hrc2.
  rewrite Hrc_index in Hrc1. rewrite Hrc_rev in Hrc2.
  destruct (put_kv_index_live cc k op) as (gens & g & Hgens & Hlive & Hrevs).
  assert (Hmod : index_mod_revision (fst (fst (fst (fst (put_kv_index cc k op))))) = op).
  { unfold put_kv_index.
    destruct (GetRawKvIndex cc k KvIndex_default) as [st ki].
    destruct (negb (ok st)); [cbn; apply revision_eta|].
    destruct (last (generations ki)) as [g'|]; [|reflexivity].
    destruct (has_create_revision g'); reflexivity. }
  assert (Hstep : forall l,
             range_step cc1 l keys_only (0, kv)
               (fst (fst (fst (fst (put_kv_index cc k op)))))
             = if l <? 1 then (1, kv)
               else (1, kv ++ [to_version_Kv keys_only
                                 (put_kv_rev cc k op ignore_lease lease_id
                                    ignore_value v)])).
  { intros l. unfold range_step. rewrite Hgens, last_snoc, Hlive.
    destruct (revisions g) as [|r rs]; [contradiction|].
    cbn [negb orb length Nat.eqb]. change (to_uint32 (0 + 1)) with 1.
    destruct (l <? 1); [reflexivity|].
    unfold GetRawKvRev, Get. rewrite Hrc2, Hmod, Hrev, lookup_insert_eq.
    reflexivity. }
  split; [|split].
  - exists (put_kv_rev cc k op ignore_lease lease_id ignore_value v).
    split; [|split].
    + intros Hlimit. rewrite KvRange_point. unfold Get.
      rewrite Hrc1, Hindex, lookup_insert_eq. cbn [Z.eqb negb].
      rewrite Hstep.
      assert (Hl : ((if limit =? 0 then INT64_MAX else limit) <? 1) = false).
      { destruct (Z.eqb_spec limit 0); [reflexivity|]. apply Z.ltb_ge. lia. }
      now rewrite Hl.
    + intros Hlimit. rewrite KvRange_point. unfold Get.
      rewrite Hrc1, Hindex, lookup_insert_eq. cbn [Z.eqb negb].
      rewrite Hstep.
      assert (Hl : ((if limit =? 0 then INT64_MAX else limit) <? 1) = true).
      { destruct (Z.eqb_spec limit 0); [lia|]. apply Z.ltb_lt. lia. }
      now rewrite Hl.
    + unfold put_kv_rev.
      destruct (put_kv_index cc k op) as [[[[a b] c] d] e] eqn:Hput.
      cbn [rev_kv kv_id kv_mod_revision kv_value kv_lease kv_create_revision
             kv_version].
      repeat (split; [first [reflexivity | now intros ->]|]).
      intros Hnone. unfold put_kv_index, GetRawKvIndex, Get in Hput.
      rewrite Hrc_index, Hnone in Hput. cbn in Hput.
      inversion Hput; subst. now rewrite revision_eta.
  - intros op'. rewrite KvRange_point. unfold Get.
    destruct (KvDeleteApply_read_rc cc1 k op') as (Hrc3 & _).
    rewrite Hrc3, Hrc1. cbn [Z.eqb negb].
    assert (Hfound : ok (fst (GetRawKvIndex cc1 k KvIndex_default)) = true).
    { apply GetRawKvIndex_ok_iff. split; [exact Hrc1|].
      rewrite Hindex, lookup_insert_eq. eauto. }
    destruct (KvDeleteApply_maps cc1 k op' Hfound) as (_ & Hindex' & _).
    rewrite Hindex', lookup_insert_eq.
    destruct (delete_kv_index_tombstone (snd (GetRawKvIndex cc1 k KvIndex_default)) op')
      as (gens' & g' & Hgens' & Hdead).
    unfold range_step. rewrite Hgens', last_snoc, Hdead. reflexivity.
  - intros k' Hne Hfresh. rewrite !KvRange_point. unfold Get.
    rewrite Hrc1, Hrc_index, Hindex, lookup_insert_ne by congruence.
    cbn [Z.eqb negb].
    destruct (safe_map (kv_index_map_ cc) !! k') as [ki|] eqn:Hk'; [|reflexivity].
    specialize (Hfresh ki eq_refl).
    assert (Hsame : forall l acc,
               range_step cc1 l keys_only acc ki = range_step cc l keys_only acc ki).
    { intros l acc. unfold range_step, GetRawKvRev, Get.
      rewrite Hrc2, Hrc_rev, Hrev, lookup_insert_ne by congruence. reflexivity. }
    now rewrite Hsame.
Qed.

Lemma KvPutApply_KvRange_round_trip_witness :
  (exists kv_rev,
      (0 <= 0 ->
       KvRange cc_put "k" "" 0 false false [] 0
       = (Status_OK, [to_version_Kv false kv_rev], 1)) /\
      (0 < 0 -> KvRange cc_put "k" "" 0 false false [] 0 = (Status_OK, [], 1)) /\
      kv_id (rev_kv kv_rev) = "k" /\
      kv_mod_revision (rev_kv kv_rev) = rev1 /\
      (false = false -> kv_value (rev_kv kv_rev) = "v") /\
      (false = false -> kv_lease (rev_kv kv_rev) = 0) /\
      (safe_map (kv_index_map_ cc_empty) !! "k" = None ->
       kv_create_revision (rev_kv kv_rev) = rev1 /\ kv_version (rev_kv kv_rev) = 1)) /\
  (forall op',
      KvRange (snd (KvDeleteApply cc_put "k" op')) "k" "" 0 false false [] 0
      = (Status_OK, [], 0)) /\
  (forall k',
      k' <> "k" ->
      (forall kv_index,
          safe_map (kv_index_map_ cc_empty) !! k' = Some kv_index ->
          RevisionToString (index_mod_revision kv_index) <> RevisionToString rev1) ->
      KvRange cc_put k' "" 0 false false [] 0
      = KvRange cc_empty k' "" 0 false false [] 0).
Proof.
  apply (KvPutApply_KvRange_round_trip cc_empty "k" rev1 false 0 false "v" 0
           false [] 0); reflexivity.
Defined.

(** *** Well-formed generations *)

(** A generation as the apply functions build it: [create_revision] is the
    first of its revisions (none for the empty generation that marks a
    delete) and [verison] counts them. *)
Definition generation_ok (g : Generation) : bool :=
  bool_decide (create_revision g = head (revisions g))
  && (verison g =? to_uint64 (Z.of_nat (length (revisions g)))).

(** A kv_index as the apply functions leave it under the key [k]: it
    carries the key, its generations are well formed and only the last one
    may be empty. *)
Definition kv_index_ok (k : string) (kv_index : KvIndexInternal) : bool :=
  bool_decide (index_id kv_index = k)
  && forallb generation_ok (generations kv_index)
  && forallb has_create_revision (removelast (generations kv_index)).

Definition kv_index_map_ok (cc : CoordinatorControl) : Prop :=
  map_Forall (fun k kv_index => kv_index_ok k kv_index = true)
    (safe_map (kv_index_map_ cc)).

Lemma generation_ok_first op : generation_ok (mkGeneration (Some op) 1 [op]) = true.
Proof. unfold generation_ok. cbn. now rewrite bool_decide_eq_true_2. Qed.

Lemma generation_ok_add g op :
  generation_ok g = true -> has_create_revision g = true ->
  generation_ok (mkGeneration (create_revision g) (to_uint64 (verison g + 1))
                   (revisions g ++ [op])) = true.
Proof.
  unfold generation_ok, has_create_revision. intros Hok Hlive.
  apply andb_true_iff in Hok as [Hcreate Hver].
  rewrite bool_decide_eq_true in Hcreate. apply Z.eqb_eq in Hver.
  cbn [create_revision verison revisions].
  apply andb_true_iff. split.
  - apply bool_decide_eq_true_2. rewrite Hcreate in *.
    destruct (revisions g); [discriminate|reflexivity].
  - apply Z.eqb_eq. rewrite Hver, length_app. cbn [length].
    unfold to_uint64. rewrite Nat2Z.inj_add. change (Z.of_nat 1) with 1.
    now rewrite Zplus_mod_idemp_l.
Qed.

Lemma generation_ok_start g op :
  generation_ok g = true -> has_create_revision g = false ->
  generation_ok (mkGeneration (Some op) 1 (revisions g ++ [op])) = true.
Proof.
  unfold generation_ok, has_create_revision. intros Hok Hlive.
  apply andb_true_iff in Hok as [Hcreate Hver].
  rewrite bool_decide_eq_true in Hcreate.
  destruct (create_revision g); [discriminate|].
  destruct (revisions g); [|discriminate].
  cbn. now rewrite bool_decide_eq_true_2.
Qed.

Lemma kv_index_ok_snoc k id gens g :
  kv_index_ok k (mkKvIndex id Revision_default (gens ++ [g])) = true <->
  id = k /\ forallb generation_ok gens = true /\ generation_ok g = true /\
  forallb has_create_revision gens = true.
Proof.
  unfold kv_index_ok. cbn [index_id generations].
  rewrite removelast_last, forallb_app. cbn [forallb].
  rewrite !andb_true_iff, bool_decide_eq_true. tauto.
Qed.

Lemma kv_index_ok_mod k id r r' gens :
  kv_index_ok k (mkKvIndex id r gens) = kv_index_ok k (mkKvIndex id r' gens).
Proof. reflexivity. Qed.

Lemma put_kv_index_ok cc k op :
  kv_index_map_ok cc ->
  kv_index_ok k (fst (fst (fst (fst (put_kv_index cc k op))))) = true.
Proof.
  intros Hmap.
  destruct (ok (fst (GetRawKvIndex cc k KvIndex_default))) eqn:Hok.
  - apply GetRawKvIndex_ok_iff in Hok as Hfound. destruct Hfound as [Hrc [ki Hk]].
    pose proof (Hmap _ _ Hk) as Hki. cbn beta in Hki.
    rewrite (GetRawKvIndex_found _ _ _ ki Hrc Hk) in *. cbn [fst snd] in *.
    assert (Hid : index_id ki = k).
    { unfold kv_index_ok in Hki.
      rewrite !andb_true_iff, bool_decide_eq_true in Hki. tauto. }
    destruct (generations ki) as [|g gens] eqn:Hgens using rev_ind.
    + pose proof (put_kv_index_no_generation cc k op) as Hput.
      rewrite (GetRawKvIndex_found _ _ _ ki Hrc Hk) in Hput. cbn [fst snd] in Hput.
      rewrite (Hput eq_refl Hgens).
      rewrite (kv_index_ok_mod _ _ _ Revision_default).
      apply (kv_index_ok_snoc k (index_id ki) []).
      repeat split; [exact Hid | apply generation_ok_first].
    + clear IHgens.
      pose proof (put_kv_index_latest cc k op gens g) as Hput.
      rewrite (GetRawKvIndex_found _ _ _ ki Hrc Hk) in Hput. cbn [fst snd] in Hput.
      rewrite (Hput eq_refl Hgens).
      destruct ki as [id r gs]. cbn [generations index_id] in *. subst gs.
      rewrite (kv_index_ok_mod _ _ r Revision_default) in Hki.
      apply kv_index_ok_snoc in Hki as (_ & Hgens_ok & Hg & Hlive).
      rewrite (kv_index_ok_mod _ _ _ Revision_default).
      apply kv_index_ok_snoc. repeat split; try assumption.
      destruct (has_create_revision g) eqn:Hg_live.
      * now apply generation_ok_add.
      * now apply generation_ok_start.
  - rewrite (put_kv_index_absent _ _ _ Hok).
    rewrite (kv_index_ok_mod _ _ _ Revision_default).
    apply (kv_index_ok_snoc k k []).
    repeat split. apply generation_ok_first.
Qed.

Lemma delete_kv_index_ok k ki op :
  kv_index_ok k ki = true ->
  kv_index_ok k (fst (fst (fst (fst (delete_kv_index ki op))))) = true.
Proof.
  intros Hki.
  assert (Hid : index_id ki = k).
  { unfold kv_index_ok in Hki.
    rewrite !andb_true_iff, bool_decide_eq_true in Hki. tauto. }
  destruct (generations ki) as [|g gens] eqn:Hgens using rev_ind.
  - rewrite (delete_kv_index_no_generation _ _ Hgens).
    rewrite (kv_index_ok_mod _ _ _ Revision_default).
    apply (kv_index_ok_snoc k (index_id ki) []). now repeat split.
  - clear IHgens. rewrite (delete_kv_index_latest _ _ _ _ Hgens).
    destruct ki as [id r gs]. cbn [generations index_id] in *. subst gs.
    rewrite (kv_index_ok_mod _ _ r Revision_default) in Hki.
    apply kv_index_ok_snoc in Hki as (_ & Hgens_ok & Hg & Hlive).
    rewrite (kv_index_ok_mod _ _ _ Revision_default).
    destruct (has_create_revision g) eqn:Hg_live.
    + change (gens ++ [?a; ?b]) with (gens ++ [a] ++ [b]).
      rewrite app_assoc. apply kv_index_ok_snoc.
      rewrite !forallb_app. cbn [forallb]. rewrite Hgens_ok, Hlive.
      rewrite (generation_ok_add _ _ Hg Hg_live).
      unfold has_create_revision in *. cbn [create_revision andb].
      rewrite Hg_live. now repeat split.
    + apply kv_index_ok_snoc. now repeat split.
Qed.

(** The apply functions keep every kv_index well formed: under each key the
    kv_index of that key, in each generation [create_revision] the first
    revision and [verison] the number of revisions (as a [uint64]), and no
    empty generation before the last one. *)
Theorem apply_keeps_kv_index_map_ok cc k op ignore_lease lease_id ignore_value v :
  kv_index_map_ok cc ->
  kv_index_map_ok (snd (KvPutApply cc k op ignore_lease lease_id ignore_value v)) /\
  kv_index_map_ok (snd (KvDeleteApply cc k op)).
Proof.
  intros Hmap. split.
  - destruct (KvPutApply_maps cc k op ignore_lease lease_id ignore_value v)
      as (_ & Hindex & _).
    unfold kv_index_map_ok. rewrite Hindex.
    apply map_Forall_insert_2; [|exact Hmap]. now apply put_kv_index_ok.
  - destruct (ok (fst (GetRawKvIndex cc k KvIndex_default))) eqn:Hok.
    + destruct (KvDeleteApply_maps cc k op Hok) as (_ & Hindex & _).
      unfold kv_index_map_ok. rewrite Hindex.
      apply map_Forall_insert_2; [|exact Hmap].
      apply delete_kv_index_ok.
      apply GetRawKvIndex_ok_iff in Hok as [Hrc [ki Hk]].
      rewrite (GetRawKvIndex_found _ _ _ ki Hrc Hk). exact (Hmap _ _ Hk).
    + now rewrite (KvDeleteApply_absent _ _ _ Hok).
Qed.

Lemma apply_keeps_kv_index_map_ok_witness :
  kv_index_map_ok (snd (KvPutApply cc_put_del "k" rev3 false 0 false "w")) /\
  kv_index_map_ok (snd (KvDeleteApply cc_put_del "k" rev3)).
Proof.
  apply (apply_keeps_kv_index_map_ok cc_put_del "k" rev3 false 0 false "w").
  refine (bool_decide_eq_true_1 _ _). vm_compute. reflexivity.
Defined.

(** *** KvDeleteRange *)

(** The entry the [i]-th deleted record adds to the meta increment. *)
Definition delete_entry (main_revision sub_revision : Z) (i : nat)
  (kv : version_Kv) : MetaIncrementKvIndex :=
  mkMetaIncrementKvIndex (vkv_key kv) KV_INDEX_EVENT_TYPE_DELETE
    (mkRevision main_revision (to_uint64 (sub_revision + Z.of_nat i)))
    false 0 false "".

(** The keys of the records of [kvs] that are handed over for the lease
    [lease]: the key of the last record that holds it. *)
Definition lease_keys (kvs : list version_Kv) (lease : Z) : option (gset string) :=
  (fun kv => {[vkv_key kv]})
    <$> last (List.filter
                (fun kv => negb (vkv_lease kv =? 0)
                           && (to_uint64 (vkv_lease kv) =? lease)) kvs).

Lemma to_uint64_succ a b : to_uint64 (to_uint64 (a + 1) + b) = to_uint64 (a + (1 + b)).
Proof. unfold to_uint64. rewrite Zplus_mod_idemp_l. f_equal. lia. Qed.

Lemma fold_delete_step main_revision kvs : forall sub_revision meta_increment keys,
  0 <= sub_revision < 2 ^ 64 ->
  fst (fst (fold_left (delete_step main_revision) kvs
              (sub_revision, meta_increment, keys)))
  = to_uint64 (sub_revision + Z.of_nat (length kvs)) /\
  snd (fst (fold_left (delete_step main_revision) kvs
              (sub_revision, meta_increment, keys)))
  = meta_increment ++ imap (delete_entry main_revision sub_revision) kvs.
Proof.
  induction kvs as [|kv kvs IH]; intros sub_revision mi keys Hsub.
  - cbn. rewrite Z.add_0_r, app_nil_r. unfold to_uint64.
    now rewrite Z.mod_small.
  - cbn [fold_left length imap].
    assert (Hnext : 0 <= to_uint64 (sub_revision + 1) < 2 ^ 64)
      by (apply Z.mod_pos_bound; lia).
    assert (Hstep : exists keys',
               delete_step main_revision (sub_revision, mi, keys) kv
               = (to_uint64 (sub_revision + 1),
                  mi ++ [delete_entry main_revision sub_revision 0 kv], keys')).
    { assert (Hz : to_uint64 (sub_revision + Z.of_nat 0) = sub_revision)
        by (cbn [Z.of_nat]; rewrite Z.add_0_r; now apply Z.mod_small).
      unfold delete_step, delete_entry. rewrite Hz.
      destruct (vkv_lease kv =? 0); eauto. }
    destruct Hstep as [keys' ->].
    destruct (IH (to_uint64 (sub_revision + 1))
                (mi ++ [delete_entry main_revision sub_revision 0 kv]) keys' Hnext)
      as [Hsub' Hmi'].
    split.
    + etransitivity; [exact Hsub'|]. rewrite to_uint64_succ. f_equal. lia.
    + etransitivity; [exact Hmi'|]. rewrite <- app_assoc. cbn [app]. do 2 f_equal.
      apply imap_ext. intros i x _. unfold delete_entry, compose.
      rewrite to_uint64_succ. do 3 f_equal. lia.
Qed.

Lemma fold_delete_step_keys main_revision kvs : forall sub_revision meta_increment lease,
  snd (fold_left (delete_step main_revision) kvs (sub_revision, meta_increment, ∅))
    !! lease
  = lease_keys kvs lease.
Proof.
  induction kvs as [|kv kvs IH] using rev_ind; intros sub_revision mi lease.
  - reflexivity.
  - rewrite fold_left_app. cbn [fold_left].
    specialize (IH sub_revision mi lease).
    destruct (fold_left (delete_step main_revision) kvs (sub_revision, mi, ∅))
      as [[s m] keys].
    cbn [snd] in IH. unfold lease_keys in *. rewrite List.filter_app.
    unfold delete_step. cbn [List.filter].
    destruct (Z.eqb_spec (vkv_lease kv) 0) as [Hzero | Hlease]; cbn [negb andb snd].
    + now rewrite app_nil_r.
    + destruct (Z.eqb_spec (to_uint64 (vkv_lease kv)) lease) as [<- | Hother].
      * now rewrite lookup_insert_eq, last_snoc.
      * rewrite lookup_insert_ne by exact Hother. now rewrite app_nil_r.
Qed.

Section KvDeleteRange.

Variable LeaseState : Type.
Variable LeaseRemoveMultiLeaseKeys :
  gmap Z (gset string) -> LeaseState -> Status * LeaseState.

Abbreviation KvDeleteRange' := (KvDeleteRange LeaseRemoveMultiLeaseKeys).

(** [KvDeleteRange] adds one DELETE entry for each record that [KvRange]
    finds, each at its own sub-revision, and advances [sub_revision] by
    their number; it does so also when the removal of the lease keys fails
    afterwards, and then leaves [prev_kvs] alone.  When [KvRange] fails
    nothing is changed, and a point delete of a key without kv_index adds
    nothing and returns OK. *)
Theorem KvDeleteRange_entries cc leases k range_end need_prev_kv main_revision
    sub_revision need_lease_remove_keys prev_kvs meta_increment :
  0 <= sub_revision < 2 ^ 64 ->
  let range := KvRange cc k range_end INT64_MAX (negb need_prev_kv) false [] 0 in
  let kvs_to_delete := snd (fst range) in
  let r := KvDeleteRange' cc leases k range_end need_prev_kv main_revision
             sub_revision need_lease_remove_keys prev_kvs meta_increment in
  (ok (fst (fst range)) = false ->
   r = mkKvDeleteRangeResult (fst (fst range)) sub_revision prev_kvs
         meta_increment leases) /\
  (ok (fst (fst range)) = true ->
   del_meta_increment r
   = meta_increment ++ imap (delete_entry main_revision sub_revision) kvs_to_delete /\
   del_sub_revision r = to_uint64 (sub_revision + Z.of_nat (length kvs_to_delete)) /\
   del_prev_kvs r
   = (if ok (del_status r) && need_prev_kv then kvs_to_delete else prev_kvs) /\
   (need_lease_remove_keys = false ->
    del_status r = Status_OK /\ del_leases r = leases)) /\
  (range_end = "" -> safe_map (kv_index_map_ cc) !! k = None ->
   r = mkKvDeleteRangeResult Status_OK sub_revision
         (if need_prev_kv then [] else prev_kvs) meta_increment leases).
Proof.
  intros Hsub range kvs_to_delete r.
  assert (Hr : r = KvDeleteRange' cc leases k range_end need_prev_kv main_revision
                     sub_revision need_lease_remove_keys prev_kvs meta_increment)
    by reflexivity.
  unfold KvDeleteRange in Hr. fold range in Hr. clearbody r.
  subst kvs_to_delete.
  assert (Hpoint : range_end = "" -> safe_map (kv_index_map_ cc) !! k = None ->
                   range = (Status_OK, [], 0)).
  { intros -> Hnone. subst range. rewrite KvRange_point. unfold Get.
    rewrite Hnone. now destruct (negb (read_rc _ =? 0)). }
  clearbody range. destruct range as [[st kvs] total].
  cbn [fst snd] in *.
  split; [|split].
  - intros Hok. now rewrite Hok in Hr.
  - intros Hok. rewrite Hok in Hr. cbn [negb] in Hr.
    destruct (fold_delete_step main_revision kvs sub_revision meta_increment ∅ Hsub)
      as [Hsub' Hmi'].
    destruct (fold_left (delete_step main_revision) kvs
                (sub_revision, meta_increment, ∅)) as [[s m] keys].
    cbn [fst snd] in Hsub', Hmi'. subst s m.
    destruct need_lease_remove_keys; cbn [andb] in Hr.
    + destruct (negb (bool_decide (keys = ∅))).
      * destruct (LeaseRemoveMultiLeaseKeys keys leases) as [ret leases'].
        destruct (ok ret) eqn:Hret; cbn [negb] in Hr; subst r;
          cbn [del_meta_increment del_sub_revision del_prev_kvs del_status].
        -- change (ok Status_OK) with true. repeat split; discriminate.
        -- rewrite Hret. repeat split; discriminate.
      * change (ok Status_OK) with true in Hr. cbn [negb] in Hr. subst r.
        cbn [del_meta_increment del_sub_revision del_prev_kvs del_status].
        change (ok Status_OK) with true. repeat split; discriminate.
    + change (ok Status_OK) with true in Hr. cbn [negb] in Hr. subst r.
      cbn [del_meta_increment del_sub_revision del_prev_kvs del_status].
      change (ok Status_OK) with true. repeat split; auto.
  - intros Hend Hnone. specialize (Hpoint Hend Hnone).
    inversion Hpoint; subst st kvs total.
    change (ok Status_OK) with true in Hr. cbn [negb fold_left] in Hr.
    rewrite bool_decide_eq_true_2 in Hr by reflexivity.
    rewrite andb_false_r in Hr. change (ok Status_OK) with true in Hr.
    exact Hr.
Qed.

(** Of the deleted records that hold a lease, [KvDeleteRange] hands over
    one key for each lease, the key of the last record that holds it; the
    keys of the earlier records of the same lease are dropped.  The removal
    is asked for only when [need_lease_remove_keys] is set and some deleted
    record holds a lease, and its failure is the status of the call. *)
Theorem KvDeleteRange_lease_keys cc leases k range_end need_prev_kv main_revision
    sub_revision need_lease_remove_keys prev_kvs meta_increment :
  let range := KvRange cc k range_end INT64_MAX (negb need_prev_kv) false [] 0 in
  let kvs_to_delete := snd (fst range) in
  let r := KvDeleteRange' cc leases k range_end need_prev_kv main_revision
             sub_revision need_lease_remove_keys prev_kvs meta_increment in
  ok (fst (fst range)) = true ->
  exists keys_to_remove_lease : gmap Z (gset string),
    (forall lease, keys_to_remove_lease !! lease = lease_keys kvs_to_delete lease) /\
    if need_lease_remove_keys && negb (bool_decide (keys_to_remove_lease = ∅))
    then
      del_leases r = snd (LeaseRemoveMultiLeaseKeys keys_to_remove_lease leases) /\
      ok (del_status r)
      = ok (fst (LeaseRemoveMultiLeaseKeys keys_to_remove_lease leases)) /\
      (ok (del_status r) = false ->
       del_status r = fst (LeaseRemoveMultiLeaseKeys keys_to_remove_lease leases))
    else del_status r = Status_OK /\ del_leases r = leases.
Proof.
  intros range kvs_to_delete r Hok.
  assert (Hr : r = KvDeleteRange' cc leases k range_end need_prev_kv main_revision
                     sub_revision need_lease_remove_keys prev_kvs meta_increment)
    by reflexivity.
  unfold KvDeleteRange in Hr. fold range in Hr. clearbody r.
  subst kvs_to_delete. clearbody range. destruct range as [[st kvs] total].
  cbn [fst snd] in *. rewrite Hok in Hr. cbn [negb] in Hr.
  pose proof (fold_delete_step_keys main_revision kvs sub_revision meta_increment)
    as Hkeys.
  destruct (fold_left (delete_step main_revision) kvs
              (sub_revision, meta_increment, ∅)) as [[s m] keys].
  cbn [snd] in Hkeys. exists keys. split; [exact Hkeys|].
  destruct (need_lease_remove_keys && negb (bool_decide (keys = ∅))).
  - destruct (LeaseRemoveMultiLeaseKeys keys leases) as [ret leases'].
    destruct (ok ret) eqn:Hret; cbn [negb] in Hr; subst r;
      cbn [del_leases del_status fst snd].
    + rewrite Hret. change (ok Status_OK) with true.
      repeat split. discriminate.
    + auto.
  - change (ok Status_OK) with true in Hr. cbn [negb] in Hr. subst r. auto.
Qed.

End KvDeleteRange.

(** ["a"] and ["b"] put under the lease 7. *)
Definition cc_leased : CoordinatorControl :=
  snd (KvPutApply (snd (KvPutApply cc_empty "a" rev1 false 7 false "1"))
         "b" rev2 false 7 false "2").

Definition no_LeaseRemoveMultiLeaseKeys (keys : gmap Z (gset string)) (leases : unit)
  : Status * unit := (Status_OK, leases).

Lemma KvDeleteRange_entries_witness :
  del_meta_increment
    (KvDeleteRange no_LeaseRemoveMultiLeaseKeys cc_leased tt "a" "c" false 3 0
       true [] [])
  = imap (delete_entry 3 0)
      (snd (fst (KvRange cc_leased "a" "c" INT64_MAX true false [] 0))) /\
  del_sub_revision
    (KvDeleteRange no_LeaseRemoveMultiLeaseKeys cc_leased tt "a" "c" false 3 0
       true [] [])
  = 2.
Proof.
  pose proof (KvDeleteRange_entries unit no_LeaseRemoveMultiLeaseKeys cc_leased tt
                "a" "c" false 3 0 true [] []) as H.
  destruct H as (_ & H & _); [lia|].
  destruct H as (Hmi & Hsub & _); [reflexivity|].
  split; [exact Hmi | exact Hsub].
Defined.

Lemma KvDeleteRange_lease_keys_witness :
  length (snd (fst (KvRange cc_leased "a" "c" INT64_MAX true false [] 0))) = 2%nat /\
  exists keys_to_remove_lease : gmap Z (gset string),
    (forall lease,
        keys_to_remove_lease !! lease
        = lease_keys (snd (fst (KvRange cc_leased "a" "c" INT64_MAX true false [] 0)))
            lease) /\
    keys_to_remove_lease !! 7 = Some {["b"]}.
Proof.
  split; [vm_compute; reflexivity|].
  destruct (KvDeleteRange_lease_keys unit no_LeaseRemoveMultiLeaseKeys cc_leased tt
              "a" "c" false 3 0 true [] []) as (keys & Hkeys & _);
    [vm_compute; reflexivity|].
  exists keys. split; [exact Hkeys|].
  rewrite Hkeys. vm_compute. reflexivity.
Defined.

(** *** What a put leaves behind *)

Section KvPutOutcome.

Variable LeaseState : Type.
Variable LeaseQuery : Z -> LeaseState -> Status.
Variable LeaseAddKeys : Z -> list string -> LeaseState -> Status * LeaseState.

(** A put that is rejected, for whatever reason, leaves [sub_revision],
    [prev_kv] and the meta increment as they were; a put that is accepted
    returns OK, adds one PUT entry at [(main_revision, sub_revision)] and
    advances [sub_revision], and its key and value have passed the checks.
    The entry of a put with [ignore_lease] does not carry [ignore_value], and
    no entry with [igore_value] carries a value.  The key is added to its
    lease before it is checked: a put with a lease that is rejected for an
    empty key has changed the lease. *)
Theorem KvPut_outcome cc leases key_value_in lease_id need_prev_kv igore_value
    ignore_lease main_revision sub_revision prev_kv lease_grant_id meta_increment :
  let k := Bdb.key key_value_in in
  let v := Bdb.value key_value_in in
  let r :=
    KvPut LeaseQuery LeaseAddKeys cc leases key_value_in lease_id need_prev_kv
      igore_value ignore_lease main_revision sub_revision prev_kv
      lease_grant_id meta_increment in
  (ok (put_status r) = false ->
   put_sub_revision r = sub_revision /\ put_prev_kv r = prev_kv /\
   put_meta_increment r = meta_increment) /\
  (ok (put_status r) = true ->
   put_status r = Status_OK /\
   put_sub_revision r = to_uint64 (sub_revision + 1) /\
   put_meta_increment r
   = meta_increment
     ++ [mkMetaIncrementKvIndex k KV_INDEX_EVENT_TYPE_PUT
           (mkRevision main_revision sub_revision) ignore_lease
           (put_lease_grant_id r) (negb ignore_lease && igore_value)
           (if igore_value then "" else v)] /\
   0 < size k <= FLAGS_max_kv_key_size /\
   (igore_value = false -> 0 < size v <= FLAGS_max_kv_value_size)) /\
  (ignore_lease = false -> lease_id <> 0 ->
   ok (LeaseQuery lease_id leases) = true ->
   ok (fst (LeaseAddKeys lease_id [k] leases)) = true ->
   empty k = true ->
   put_status r = st_EINVAL "KvPut key is empty" /\
   put_leases r = snd (LeaseAddKeys lease_id [k] leases)).
Proof.
  intros k v r. subst r. unfold KvPut. fold k. fold v.
  assert (Hnonempty : forall s, empty s = false -> 0 < size s).
  { intros [|c s] Hs; [discriminate|]. unfold size. simpl. lia. }
  split; [|split].
  - destruct (negb ignore_lease && negb (lease_id =? 0)
              && negb (ok (LeaseQuery lease_id leases))); [cbn; auto|].
    destruct (if ignore_lease then _ else Some lease_id) as [grant|];
      [|cbn; auto].
    destruct (if negb (grant =? 0) then _ else _) as [st leases'].
    destruct (negb (ok st)); [cbn; auto|].
    destruct (empty k); [cbn; auto|].
    destruct (negb igore_value && empty v); [cbn; auto|].
    destruct (FLAGS_max_kv_key_size <? size k); [cbn; auto|].
    destruct (negb igore_value && (FLAGS_max_kv_value_size <? size v));
      [cbn; auto|].
    cbn. discriminate.
  - destruct (negb ignore_lease && negb (lease_id =? 0)
              && negb (ok (LeaseQuery lease_id leases))) eqn:Hquery.
    { cbn. apply andb_true_iff in Hquery as [_ Hq].
      apply negb_true_iff in Hq. congruence. }
    destruct (if ignore_lease then _ else Some lease_id) as [grant|];
      [|cbn; discriminate].
    destruct (if negb (grant =? 0) then _ else _) as [st leases'].
    destruct (negb (ok st)) eqn:Hst.
    { cbn. apply negb_true_iff in Hst. congruence. }
    destruct (empty k) eqn:Hk; [cbn; discriminate|].
    destruct (negb igore_value && empty v) eqn:Hv; [cbn; discriminate|].
    destruct (FLAGS_max_kv_key_size <? size k) eqn:Hklen; [cbn; discriminate|].
    destruct (negb igore_value && (FLAGS_max_kv_value_size <? size v)) eqn:Hvlen;
      [cbn; discriminate|].
    cbn [put_status put_sub_revision put_meta_increment put_lease_grant_id].
    intros _. apply Z.ltb_ge in Hklen.
    split; [reflexivity|]. split; [reflexivity|]. split.
    + destruct ignore_lease, igore_value; reflexivity.
    + split; [split; [now apply Hnonempty | exact Hklen]|].
      intros ->. cbn in Hv, Hvlen. apply Z.ltb_ge in Hvlen.
      split; [now apply Hnonempty | exact Hvlen].
  - intros -> Hlease Hquery Hadd Hk.
    apply Z.eqb_neq in Hlease. rewrite Hlease, Hquery. cbn [negb andb].
    destruct (LeaseAddKeys lease_id [k] leases) as [st leases'].
    cbn [fst snd] in *. rewrite Hadd, Hk. cbn. auto.
Qed.

End KvPutOutcome.

(** A lease state that records the keys added to each lease. *)
Definition log_LeaseAddKeys (lease_id : Z) (keys : list string)
  (leases : list (Z * list string)) : Status * list (Z * list string) :=
  (Status_OK, leases ++ [(lease_id, keys)]).

Lemma KvPut_outcome_witness :
  put_status
    (KvPut (fun _ _ => Status_OK) log_LeaseAddKeys cc_empty []
       (Bdb.mkKeyValue "" "v") 7 false false false 1 0 version_Kv_default 0 [])
  = st_EINVAL "KvPut key is empty" /\
  put_leases
    (KvPut (fun _ _ => Status_OK) log_LeaseAddKeys cc_empty []
       (Bdb.mkKeyValue "" "v") 7 false false false 1 0 version_Kv_default 0 [])
  = [(7, [""])].
Proof.
  apply (KvPut_outcome (list (Z * list string)) (fun _ _ => Status_OK)
           log_LeaseAddKeys cc_empty [] (Bdb.mkKeyValue "" "v") 7 false false
           false 1 0 version_Kv_default 0 []);
    [reflexivity | discriminate | reflexivity | reflexivity | reflexivity].
Defined.

End KvSpec.
